(** * PhotoSync: transfer and session engine

    A shallow embedding of the server side of PhotoSync
    (src/server.js, src/server/PhotoWorker.js with the SocketIOServer
    class, src/device-token-manager-server.js and the WebRTCManager
    class) together with the properties of its specification.

    Conventions of the embedding.
    - A JavaScript string is a [string]; one character stands for one
      code unit.  Numbers that the server only compares, adds or prints
      (sizes, timestamps, quality, dimensions) are integers [Z].
    - [crypto.createHash('md5')...digest('hex')] is a parameter [md5] of
      the sections that need it; nothing is assumed about it beyond
      what a theorem states as a hypothesis.
    - [Date.now()] is a parameter [now] of every callback: a callback
      of the event loop runs to completion and is given one clock
      reading.
    - The image library ([sharp]) and the file system are oracles passed
      to each call in an environment record, so that two calls may see
      different files.
    - Event payload fields that only carry the wall clock ([timestamp])
      or a floating point estimate ([estimatedTime]) are left out. *)

From Stdlib Require Import ZArith Lia.
From stdpp Require Import base option list sorting strings gmap pretty.

Local Open Scope Z_scope.

(** ** JavaScript values *)

Module Js.

(** The values that cross the wire: handshake fields and JSON payloads.
    An object is the list of its own properties in insertion order. *)
#[warnings="-register-all"]
Inductive JsValue : Type :=
| JUndefined
| JNull
| JBool (b : bool)
| JNum (z : Z)
| JStr (s : string)
| JArr (items : list JsValue)
| JObj (fields : list (string * JsValue)).

(** [o[k]]: the first own property named [k], [undefined] otherwise. *)
Fixpoint assoc (k : string) (fields : list (string * JsValue)) : JsValue :=
  match fields with
  | [] => JUndefined
  | (k', v) :: rest => if String.eqb k k' then v else assoc k rest
  end.

Definition get (o : JsValue) (k : string) : JsValue :=
  match o with
  | JObj fields => assoc k fields
  | _ => JUndefined
  end.

(** A property is carried by an object when reading it does not give
    [undefined]; [JSON.stringify] drops the others. *)
Definition has_field (o : JsValue) (k : string) : bool :=
  match get o k with
  | JUndefined => false
  | _ => true
  end.

(** [!v] *)
Definition falsy (v : JsValue) : bool :=
  match v with
  | JUndefined | JNull => true
  | JBool b => negb b
  | JNum z => Z.eqb z 0
  | JStr s => String.eqb s EmptyString
  | JArr _ | JObj _ => false
  end.

(** [typeof v === 'string'] *)
Definition is_string (v : JsValue) : bool :=
  match v with
  | JStr _ => true
  | _ => false
  end.

(** The string behind a value whose [typeof] is ['string']. *)
Definition str_of (v : JsValue) : string :=
  match v with
  | JStr s => s
  | _ => EmptyString
  end.

End Js.

(** ** The photo catalog ([PhotoDatabase] in src/server.js) *)

Module Catalog.

(** The record pushed by [scanDirectoryRecursive]. *)
Record PhotoRecord : Type := mkPhoto {
  id : string;
  filename : string;
  path : string;
  size : Z;
  modified : Z;
  width : Z;
  height : Z;
  rootPath : string;
  folderPath : string
}.

Definition getAllPhotos (database : list PhotoRecord) : list PhotoRecord :=
  database.

(** [this.database.find(p => p.id === id) || null] *)
Definition getPhoto (database : list PhotoRecord) (pid : string)
  : option PhotoRecord :=
  List.find (fun p => String.eqb (id p) pid) database.

Definition getPhotoById := getPhoto.

End Catalog.

(** ** Manifests of the two transports *)

Module Manifest.
Import Js Catalog.

(** [Array.prototype.sort()] on strings: ascending code unit order. *)
Definition str_le (a b : string) : Prop := String.leb a b = true.

#[global] Instance str_le_dec (a b : string) : Decision (str_le a b).
Proof. unfold str_le. apply _. Defined.

Definition js_sort (l : list string) : list string := merge_sort str_le l.

(** [l.join('')] *)
Definition join_empty (l : list string) : string :=
  foldr String.append EmptyString l.

Section WithHash.
Variable md5 : string -> string.

(** [photos.map(p => p.id).sort().join('')] hashed; the same expression
    is [calculateDirectoryHash]. *)
Definition manifestHash (photos : list PhotoRecord) : string :=
  md5 (join_empty (js_sort (map id photos))).

(** The entry built by [SocketIOServer.handleManifestRequest]. *)
Definition streamEntry (photo : PhotoRecord) : JsValue :=
  JObj [ ("id", JStr (id photo));
         ("filename", JStr (filename photo));
         ("size", JNum (size photo));
         ("modified", JNum (modified photo));
         ("width", JNum (width photo));
         ("height", JNum (height photo)) ]%string.

(** The argument handed to [ack] ([timestamp] left out); [None] when the
    client passed no acknowledgment callback. *)
Definition handleManifestRequest (database : list PhotoRecord) (ack : bool)
  : option JsValue :=
  let photos := getAllPhotos database in
  let manifest := map streamEntry photos in
  let hash := manifestHash photos in
  if ack then
    Some (JObj [ ("count", JNum (Z.of_nat (length manifest)));
                 ("hash", JStr hash);
                 ("photos", JArr manifest) ]%string)
  else None.

End WithHash.

(** The entry built by [WebRTCManager.sendManifest].  A catalog record
    has no [name] and no [created] property, so both reads give
    [undefined]. *)
Definition p2pEntry (photo : PhotoRecord) : JsValue :=
  JObj [ ("id", JStr (id photo));
         ("name", JUndefined);
         ("size", JNum (size photo));
         ("width", JNum (width photo));
         ("height", JNum (height photo));
         ("modified", JNum (modified photo));
         ("created", JUndefined) ]%string.

(** The message handed to [sendToPeer] by [WebRTCManager.sendManifest]. *)
Definition sendManifest (database : list PhotoRecord) : JsValue :=
  let photos := getAllPhotos database in
  let manifest := map p2pEntry photos in
  JObj [ ("type", JStr "manifest");
         ("photos", JArr manifest);
         ("count", JNum (Z.of_nat (length manifest))) ]%string.

(** The public fields of the specification's manifest entry. *)
Definition publicFields : list string :=
  [ "id"; "filename"; "size"; "modified"; "width"; "height" ]%string.

(** An entry carries exactly the properties listed in [names]. *)
Definition carries_exactly (e : JsValue) (names : list string) : Prop :=
  forall k, has_field e k = true <-> k ∈ names.

(** What the specification promises of a delivered manifest message. *)
Definition delivered_as_specified (md5 : string -> string)
  (database : list PhotoRecord) (msg : JsValue) : Prop :=
  exists entries,
    get msg "photos" = JArr entries /\
    Forall2 (fun e (_ : PhotoRecord) => carries_exactly e publicFields)
            entries database /\
    get msg "hash" = JStr (manifestHash md5 database).

(** The values an entry reports, for the properties both transports
    really send. *)
Definition reports (e : JsValue) (photo : PhotoRecord) : Prop :=
  get e "id" = JStr (id photo) /\
  get e "size" = JNum (size photo) /\
  get e "modified" = JNum (modified photo) /\
  get e "width" = JNum (width photo) /\
  get e "height" = JNum (height photo) /\
  has_field e "path" = false.

End Manifest.

(** ** The read-only token store ([DeviceTokenManagerServer]) *)

Module Tokens.
Import Js.

Record DeviceToken : Type := mkToken {
  token : string;
  deviceId : string;
  deviceName : string;
  userId : string;
  userEmail : string;
  expiresAt : Z;
  active : bool
}.

(** [cache] is [null] until the first successful read. *)
Record Manager : Type := mkManager {
  cache : option (list DeviceToken);
  cacheTimestamp : Z
}.

Definition CACHE_TTL : Z := 5000.

(** The token file as one read sees it: [Some tokens] is the value of
    [JSON.parse(data).tokens || []], [None] a read or parse error. *)
Definition TokenFile : Type := option (list DeviceToken).

Definition readTokens (file : TokenFile) (now : Z) (m : Manager)
  : list DeviceToken * Manager :=
  let reread :=
    match file with
    | Some tokens => (tokens, mkManager (Some tokens) now)
    | None => ([], m)
    end in
  match cache m with
  | Some cached =>
      if now - cacheTimestamp m <? CACHE_TTL then (cached, m) else reread
  | None => reread
  end.

Definition refreshCache (file : TokenFile) (now : Z) (m : Manager)
  : list DeviceToken * Manager :=
  readTokens file now (mkManager (cache m) 0).

(** One character of the class [[0-9a-f]] under the [i] flag. *)
Definition isHexChar (c : Ascii.ascii) : bool :=
  let n := Ascii.N_of_ascii c in
  ((48 <=? n) && (n <=? 57) || (97 <=? n) && (n <=? 102)
   || (65 <=? n) && (n <=? 70))%N.

Fixpoint allHex (s : string) : bool :=
  match s with
  | EmptyString => true
  | String c rest => isHexChar c && allHex rest
  end.

(** [/^[a-f0-9]{64}$/i.test(s)] *)
Definition isHex64 (s : string) : bool :=
  Nat.eqb (String.length s) 64 && allHex s.

Inductive Validation : Type :=
| Invalid (reason : string)
| Valid (t : DeviceToken).

Definition findToken (tokens : list DeviceToken) (value : string)
  : option DeviceToken :=
  List.find (fun t => String.eqb (token t) value) tokens.

Definition validateToken (tokenValue : JsValue) (file : TokenFile) (now : Z)
  (m : Manager) : Validation * Manager :=
  if falsy tokenValue || negb (is_string tokenValue) then
    (Invalid "INVALID_FORMAT", m)
  else if negb (isHex64 (str_of tokenValue)) then
    (Invalid "INVALID_FORMAT", m)
  else
    let '(tokens, m') := readTokens file now m in
    match findToken tokens (str_of tokenValue) with
    | None => (Invalid "TOKEN_NOT_FOUND", m')
    | Some t =>
        if negb (active t) then (Invalid "TOKEN_REVOKED", m')
        else if expiresAt t <? now then (Invalid "TOKEN_EXPIRED", m')
        else (Valid t, m')
    end.

End Tokens.

(** ** Sockets and the events the server emits on them *)

Module Wire.
Import Js.

Definition bytes : Type := list Byte.byte.

Inductive Event : Type :=
| PhotoData (photoId : string) (chunk : bytes) (totalSize : nat)
            (checksum : string) (mimeType : string)
| PhotoComplete (photoId : string) (totalSize : nat) (checksum : string)
| PhotoError (photoId : string) (code : string) (message : string)
| BatchStarted (totalPhotos : nat)
| AuthRevoked (reason : string) (message : string).

(** What the server did to a socket, oldest first. *)
Inductive Action : Type :=
| Emit (e : Event)
| Disconnect.

(** [socket.data] as [authMiddleware] fills it. *)
Record SessionData : Type := mkSession {
  authToken : JsValue;
  sUserId : string;
  sDeviceName : JsValue;
  sDeviceId : string;
  sExpiresAt : Z;
  sUserEmail : string;
  ip : string;
  userAgent : string;
  isIOS : bool;
  isAndroid : bool;
  isSafari : bool;
  connectedAt : Z
}.

(** [data = None] is the empty [socket.data] of a socket that no
    middleware has authenticated. *)
Record Socket : Type := mkSocket {
  sid : string;
  data : option SessionData;
  rooms : list string;
  handlers : list string;
  transcript : list Action
}.

Definition emit (e : Event) (s : Socket) : Socket :=
  mkSocket (sid s) (data s) (rooms s) (handlers s) (transcript s ++ [Emit e]).

Definition disconnect (s : Socket) : Socket :=
  mkSocket (sid s) (data s) (rooms s) (handlers s)
           (transcript s ++ [Disconnect]).

Definition is_disconnect (a : Action) : bool :=
  match a with
  | Disconnect => true
  | Emit _ => false
  end.

(** A socket is live until the server disconnects it. *)
Definition live (s : Socket) : bool :=
  negb (existsb is_disconnect (transcript s)).

End Wire.

(** ** Authentication of the Streaming transport ([SocketIOServer]) *)

Module Auth.
Import Js Tokens Wire.

(** One entry of [authAttempts]: [ip => { count, resetAt }]. *)
Record Attempts : Type := mkAttempts {
  count : Z;
  resetAt : Z
}.

Definition MAX_AUTH_ATTEMPTS : Z := 10.
Definition AUTH_WINDOW : Z := 15 * 60 * 1000.

Inductive RateCheck : Type :=
| Allowed
| Limited (retryAfter : Z).

(** [Math.ceil(a / b)] for integers [a] and a positive [b]. *)
Definition ceil_div (a b : Z) : Z := - ((- a) / b).

Definition checkRateLimit (addr : string) (now : Z)
  (authAttempts : gmap string Attempts) : RateCheck * gmap string Attempts :=
  let fresh := mkAttempts 0 (now + AUTH_WINDOW) in
  let attempts :=
    match authAttempts !! addr with
    | Some a => if resetAt a <? now then fresh else a
    | None => fresh
    end in
  let attempts := mkAttempts (count attempts + 1) (resetAt attempts) in
  let authAttempts := <[addr := attempts]> authAttempts in
  if MAX_AUTH_ATTEMPTS <? count attempts then
    (Limited (ceil_div (resetAt attempts - now) 1000), authAttempts)
  else (Allowed, authAttempts).

(** [re.test(s)] for a regular expression that is a plain word. *)
Fixpoint contains (word s : string) : bool :=
  String.prefix word s ||
  match s with
  | EmptyString => false
  | String _ rest => contains word rest
  end.

(** [socket.handshake]: source address, the [user-agent] header and the
    client's [auth] object. *)
Record Handshake : Type := mkHandshake {
  address : string;
  userAgentHeader : JsValue;
  authTokenField : JsValue;
  authDeviceName : JsValue;
  authVersion : JsValue
}.

Record Server : Type := mkServer {
  authAttempts : gmap string Attempts;
  manager : Manager;
  sockets : list Socket
}.

(** [/^[0-9a-f]+$/i.test(s)] *)
Definition isHexWord (s : string) : bool :=
  negb (String.eqb s EmptyString) && allHex s.

(** [socket.handshake.headers['user-agent'] || 'Unknown'] *)
Definition userAgentOf (hs : Handshake) : string :=
  if falsy (userAgentHeader hs) then "Unknown"%string
  else str_of (userAgentHeader hs).

(** The object assigned to [socket.data] after a successful validation;
    the device class flags come from the declared user agent. *)
Definition sessionFor (hs : Handshake) (t : DeviceToken) (now : Z)
  : SessionData :=
  let userAgent := userAgentOf hs in
  let isIOS :=
    contains "iPhone" userAgent || contains "iPad" userAgent
    || contains "iPod" userAgent in
  let isAndroid := contains "Android" userAgent in
  let isSafari :=
    contains "Safari" userAgent && negb (contains "Chrome" userAgent) in
  mkSession (authTokenField hs) (userId t)
    (if falsy (authDeviceName hs) then JStr (deviceName t)
     else authDeviceName hs)
    (deviceId t) (expiresAt t) (userEmail t)
    (address hs) userAgent isIOS isAndroid isSafari now.

(** The middleware returns the socket, the argument it gave to [next]
    ([None] for a plain [next()], [Some msg] for [next(new Error(msg))])
    and the two stores it may have touched. *)
Definition authMiddleware (hs : Handshake) (file : TokenFile) (now : Z)
  (srv : Server) (socket : Socket)
  : Socket * option string * gmap string Attempts * Manager :=
  let '(rateCheck, attempts') :=
    checkRateLimit (address hs) now (authAttempts srv) in
  match rateCheck with
  | Limited retryAfter =>
      (socket, Some ("RATE_LIMIT_EXCEEDED:" +:+ pretty retryAfter),
       attempts', manager srv)
  | Allowed =>
      let tok := authTokenField hs in
      if falsy tok || negb (is_string tok)
         || negb (Nat.eqb (String.length (str_of tok)) 64) then
        (socket, Some "INVALID_TOKEN"%string, attempts', manager srv)
      else if negb (isHexWord (str_of tok)) then
        (socket, Some "INVALID_TOKEN"%string, attempts', manager srv)
      else
        let '(validation, manager') :=
          validateToken tok file now (manager srv) in
        match validation with
        | Invalid reason => (socket, Some reason, attempts', manager')
        | Valid t =>
            (mkSocket (sid socket) (Some (sessionFor hs t now)) (rooms socket)
                      (handlers socket) (transcript socket),
             None, attempts', manager')
        end
  end.

(** [handleConnection]: join the three rooms, register the handlers. *)
Definition handleConnection (socket : Socket) : Socket :=
  let uid := from_option sUserId "undefined"%string (data socket) in
  let did := from_option sDeviceId "undefined"%string (data socket) in
  mkSocket (sid socket) (data socket)
    (rooms socket ++ ["authenticated"; "user:" +:+ uid; "device:" +:+ did]%string)
    (handlers socket ++
       ["manifest:request"; "photos:request-batch";
        "photos:request-originals"; "disconnect"; "error"]%string)
    (transcript socket).

(** An incoming connection as socket.io drives it: the middleware
    installed by [io.use] runs on a fresh socket; only a plain [next()]
    opens the connection and fires ['connection']. *)
Definition connect (hs : Handshake) (file : TokenFile) (now : Z)
  (newId : string) (srv : Server) : Server * option string :=
  let socket := mkSocket newId None [] [] [] in
  let '(socket, err, attempts', manager') :=
    authMiddleware hs file now srv socket in
  match err with
  | Some msg => (mkServer attempts' manager' (sockets srv), Some msg)
  | None =>
      (mkServer attempts' manager' (sockets srv ++ [handleConnection socket]),
       None)
  end.

(** The outcomes of a run of handshakes from one address, one clock
    reading per attempt. *)
Fixpoint rateChecks (addr : string) (times : list Z)
  (authAttempts : gmap string Attempts) : list RateCheck :=
  match times with
  | [] => []
  | now :: rest =>
      let '(r, authAttempts') := checkRateLimit addr now authAttempts in
      r :: rateChecks addr rest authAttempts'
  end.

(** The rejection reasons of the specification and the order in which
    it ranks them; this definition follows the specification's words. *)
Inductive Reason : Type :=
| InvalidFormat
| TokenNotFound
| TokenRevoked
| TokenExpired.

Definition well_formed (credential : JsValue) : bool :=
  match credential with
  | JStr s => Nat.eqb (String.length s) 64 && allHex s
  | _ => false
  end.

Definition spec_rejection (credential : JsValue) (store : list DeviceToken)
  (now : Z) : option Reason :=
  if negb (well_formed credential) then Some InvalidFormat
  else
    match findToken store (str_of credential) with
    | None => Some TokenNotFound
    | Some t =>
        if negb (active t) then Some TokenRevoked
        else if expiresAt t <? now then Some TokenExpired
        else None
    end.

(** The text the handshake reports for each reason. *)
Definition reasonCode (r : Reason) : string :=
  match r with
  | InvalidFormat => "INVALID_TOKEN"
  | TokenNotFound => "TOKEN_NOT_FOUND"
  | TokenRevoked => "TOKEN_REVOKED"
  | TokenExpired => "TOKEN_EXPIRED"
  end.

End Auth.

(** ** Live revocation ([startTokenFileWatcher]) *)

Module Revocation.
Import Js Tokens Wire Auth.

(** The loop of [checkAuthenticatedConnections] over
    [io.sockets.sockets].  The server record keeps closed sockets too,
    for their transcripts; they are not in [io.sockets.sockets] and are
    passed over. *)
Fixpoint sweep (file : TokenFile) (now : Z) (m : Manager) (ss : list Socket)
  : list Socket * Manager :=
  match ss with
  | [] => ([], m)
  | socket :: rest =>
      match (if live socket then data socket else None) with
      | Some d =>
          let '(validation, m1) := validateToken (authToken d) file now m in
          match validation with
          | Invalid reason =>
              let socket' :=
                disconnect
                  (emit (AuthRevoked reason "Your device token has been revoked")
                        socket) in
              let '(rest', m2) := sweep file now m1 rest in
              (socket' :: rest', m2)
          | Valid _ =>
              let '(rest', m2) := sweep file now m1 rest in
              (socket :: rest', m2)
          end
      | None =>
          let '(rest', m1) := sweep file now m rest in
          (socket :: rest', m1)
      end
  end.

Definition checkAuthenticatedConnections (file : TokenFile) (now : Z)
  (srv : Server) : Server :=
  let '(ss, m) := sweep file now (manager srv) (sockets srv) in
  mkServer (authAttempts srv) m ss.

(** The callback given to [fs.watch] on the token file. *)
Definition onTokenFileEvent (eventType : string) (file : TokenFile) (now : Z)
  (srv : Server) : Server :=
  if String.eqb eventType "change" then
    let '(_, m) := refreshCache file now (manager srv) in
    checkAuthenticatedConnections file now
      (mkServer (authAttempts srv) m (sockets srv))
  else srv.

(** Validation of a credential against a given list of tokens. *)
Definition validateAgainst (store : list DeviceToken) (tokenValue : JsValue)
  (now : Z) : Validation :=
  (validateToken tokenValue (Some store) now (mkManager None 0)).1.

(** What the watcher finds in the token file, [[]] when unreadable. *)
Definition storeOf (file : TokenFile) : list DeviceToken :=
  from_option (fun ts => ts) [] file.

(** What the sweep does to one socket, given the tokens in force. *)
Definition swept (store : list DeviceToken) (now : Z) (s s' : Socket) : Prop :=
  match (if live s then data s else None) with
  | Some d =>
      match validateAgainst store (authToken d) now with
      | Invalid reason =>
          transcript s' =
            transcript s ++
              [Emit (AuthRevoked reason "Your device token has been revoked");
               Disconnect] /\
          live s' = false /\ sid s' = sid s /\ data s' = data s
      | Valid _ => s' = s
      end
  | None => s' = s
  end.

End Revocation.

(** ** The rendition cache ([compressImage] in src/server.js) *)

Module Cache.
Import Wire.

(** A promise that resolves with a value or rejects with an error
    message. *)
Inductive Result (A : Type) : Type :=
| Ok (value : A)
| Err (message : string).
Arguments Ok {A} value.
Arguments Err {A} message.

(** What one call sees of the outside world.  [sharp p q d] is the
    resize of the file [p] to at most [d] pixels a side re-encoded as
    JPEG of quality [q]; [diskWritable f] is the [mkdir] of the cache
    directory followed by the [writeFile] of [f]; [sourceExists] and
    [readSource] are [fs.existsSync] and [readFile] on source photos;
    [extname p] is [path.extname(p).toLowerCase()]. *)
Record Env : Type := mkEnv {
  cacheDirectory : string;
  sharp : string -> Z -> Z -> Result bytes;
  diskWritable : string -> Result unit;
  sourceExists : string -> bool;
  readSource : string -> Result bytes;
  extname : string -> string
}.

(** The reads and writes of the two tiers, in program order. *)
Inductive CacheOp : Type :=
| MemHit (key : string)
| DiskRead (file : string)
| Resample (source : string)
| MemSet (key : string)
| DiskWrite (file : string).

(** [compressionCache], the files of the cache directory and the
    history of operations on both. *)
Record CacheState : Type := mkCache {
  mem : gmap string bytes;
  disk : gmap string bytes;
  ops : list CacheOp
}.

Definition getCacheKey (id : string) (quality maxDimension : Z) : string :=
  id +:+ "_" +:+ pretty quality +:+ "_" +:+ pretty maxDimension.

(** [path.join(CACHE_DIRECTORY, `${cacheKey}.jpg`)] *)
Definition cacheFilePathOf (env : Env) (cacheKey : string) : string :=
  cacheDirectory env +:+ "/" +:+ cacheKey +:+ ".jpg".

Definition compressImage (env : Env) (c : CacheState)
  (filePath : string) (quality maxDimension : Z) (id : string)
  : Result bytes * CacheState :=
  let cacheKey := getCacheKey id quality maxDimension in
  match mem c !! cacheKey with
  | Some buffer =>
      (Ok buffer, mkCache (mem c) (disk c) (ops c ++ [MemHit cacheKey]))
  | None =>
      let cacheFilePath := cacheFilePathOf env cacheKey in
      match disk c !! cacheFilePath with
      | Some buffer =>
          (Ok buffer,
           mkCache (<[cacheKey := buffer]> (mem c)) (disk c)
                   (ops c ++ [DiskRead cacheFilePath; MemSet cacheKey]))
      | None =>
          match sharp env filePath quality maxDimension with
          | Err e =>
              (Err e, mkCache (mem c) (disk c) (ops c ++ [Resample filePath]))
          | Ok buffer =>
              let mem' := <[cacheKey := buffer]> (mem c) in
              match diskWritable env cacheFilePath with
              | Err e =>
                  (Err e,
                   mkCache mem' (disk c)
                           (ops c ++ [Resample filePath; MemSet cacheKey]))
              | Ok _ =>
                  (Ok buffer,
                   mkCache mem' (<[cacheFilePath := buffer]> (disk c))
                           (ops c ++ [Resample filePath; MemSet cacheKey;
                                      DiskWrite cacheFilePath]))
              end
          end
      end
  end.

(** [a] happens before [b] in a history. *)
Definition before (a b : CacheOp) (history : list CacheOp) : Prop :=
  exists l1 l2 l3, history = l1 ++ a :: l2 ++ b :: l3.

(** Cache states reached by further calls of [compressImage], with any
    arguments and any state of the outside world. *)
Inductive evolves : CacheState -> CacheState -> Prop :=
| evolves_refl c : evolves c c
| evolves_step c env filePath quality maxDimension id c' :
    evolves (compressImage env c filePath quality maxDimension id).2 c' ->
    evolves c c'.

End Cache.

(** ** [compressImage] from one [await] to the next *)

Module Flight.
Import Wire Cache.

(** A call of [compressImage] that is suspended at one of its [await]s,
    with the locals it will use when it goes on, or that has returned:
    [await fsPromises.readFile(cacheFilePath)], [await sharp(...)],
    [await fsPromises.mkdir(...)], [await fsPromises.writeFile(...)]. *)
Inductive Call : Type :=
| AwaitRead (cacheKey cacheFilePath : string)
| AwaitSharp (cacheKey cacheFilePath filePath : string)
             (quality maxDimension : Z)
| AwaitMkdir (cacheFilePath : string) (buffer : bytes)
| AwaitWrite (cacheFilePath : string) (buffer : bytes)
| Returned (r : Result bytes).

(** How an awaited operation settles. *)
Inductive Completion : Type :=
| ReadDone (r : Result bytes)
| SharpDone (r : Result bytes)
| MkdirDone (r : Result unit)
| WriteDone (r : Result unit).

(** The call from its start to its first [await], or to its return on
    a memory hit. *)
Definition compressImage (env : Env) (c : CacheState)
  (filePath : string) (quality maxDimension : Z) (id : string)
  : Call * CacheState :=
  let cacheKey := getCacheKey id quality maxDimension in
  match mem c !! cacheKey with
  | Some buffer =>
      (Returned (Ok buffer),
       mkCache (mem c) (disk c) (ops c ++ [MemHit cacheKey]))
  | None =>
      let cacheFilePath := cacheFilePathOf env cacheKey in
      match disk c !! cacheFilePath with
      | Some _ => (AwaitRead cacheKey cacheFilePath, c)
      | None =>
          (AwaitSharp cacheKey cacheFilePath filePath quality maxDimension, c)
      end
  end.

(** The call goes on when the operation it awaits has settled, up to
    its next [await] or its return.  The cache is the one it finds
    then, which other calls may have changed meanwhile. *)
Definition resume (done : Completion) (call : Call) (c : CacheState)
  : Call * CacheState :=
  match call, done with
  | AwaitRead cacheKey cacheFilePath, ReadDone (Ok buffer) =>
      (Returned (Ok buffer),
       mkCache (<[cacheKey := buffer]> (mem c)) (disk c)
               (ops c ++ [DiskRead cacheFilePath; MemSet cacheKey]))
  | AwaitRead _ cacheFilePath, ReadDone (Err e) =>
      (Returned (Err e),
       mkCache (mem c) (disk c) (ops c ++ [DiskRead cacheFilePath]))
  | AwaitSharp cacheKey cacheFilePath filePath _ _, SharpDone (Ok buffer) =>
      (AwaitMkdir cacheFilePath buffer,
       mkCache (<[cacheKey := buffer]> (mem c)) (disk c)
               (ops c ++ [Resample filePath; MemSet cacheKey]))
  | AwaitSharp _ _ filePath _ _, SharpDone (Err e) =>
      (Returned (Err e),
       mkCache (mem c) (disk c) (ops c ++ [Resample filePath]))
  | AwaitMkdir cacheFilePath buffer, MkdirDone (Ok _) =>
      (AwaitWrite cacheFilePath buffer, c)
  | AwaitMkdir _ _, MkdirDone (Err e) => (Returned (Err e), c)
  | AwaitWrite cacheFilePath buffer, WriteDone (Ok _) =>
      (Returned (Ok buffer),
       mkCache (mem c) (<[cacheFilePath := buffer]> (disk c))
               (ops c ++ [DiskWrite cacheFilePath]))
  | AwaitWrite _ _, WriteDone (Err e) => (Returned (Err e), c)
  | _, _ => (call, c)
  end.

(** How the operation that [call] awaits settles when the outside world
    is [env] and the cache files are those of [c]; a failure of
    [diskWritable] is taken to be one of the [mkdir]. *)
Definition answer (env : Env) (call : Call) (c : CacheState) : Completion :=
  match call with
  | AwaitRead _ cacheFilePath =>
      ReadDone match disk c !! cacheFilePath with
               | Some buffer => Ok buffer
               | None => Err "ENOENT"
               end
  | AwaitSharp _ _ filePath quality maxDimension =>
      SharpDone (sharp env filePath quality maxDimension)
  | AwaitMkdir cacheFilePath _ => MkdirDone (diskWritable env cacheFilePath)
  | AwaitWrite cacheFilePath _ => WriteDone (diskWritable env cacheFilePath)
  | Returned _ => MkdirDone (Ok tt)
  end.

(** A call that runs with no other call in between, every operation
    settling as [env] has it. *)
Fixpoint alone (env : Env) (fuel : nat) (st : Call * CacheState)
  : Call * CacheState :=
  match fuel with
  | O => st
  | S fuel =>
      match st.1 with
      | Returned _ => st
      | call => alone env fuel (resume (answer env call st.2) call st.2)
      end
  end.

(** The calls that have been made, in the order of their start, and the
    cache they share. *)
Record Pool : Type := mkPool {
  calls : list Call;
  cache : CacheState
}.

(** What can happen: a request starts a call, or the operation that the
    [i]-th call awaits settles. *)
Inductive Event : Type :=
| Begin (env : Env) (filePath : string) (quality maxDimension : Z)
        (id : string)
| Settle (i : nat) (done : Completion).

Definition step (e : Event) (p : Pool) : Pool :=
  match e with
  | Begin env filePath quality maxDimension id =>
      let '(call, c) :=
        compressImage env (cache p) filePath quality maxDimension id in
      mkPool (calls p ++ [call]) c
  | Settle i done =>
      match calls p !! i with
      | Some call =>
          let '(call', c) := resume done call (cache p) in
          mkPool (<[i := call']> (calls p)) c
      | None => p
      end
  end.

Definition run (events : list Event) (p : Pool) : Pool :=
  foldl (fun p e => step e p) p events.

End Flight.

(** ** The transfer worker ([PhotoWorker]) and the batch handlers *)

Module Worker.
Import Js Catalog Wire Cache.

(** A queued job: the object given to [queueJob]; [socket] is the id of
    the target socket. *)
Record Job : Type := mkJob {
  jobType : string;
  photoId : string;
  quality : Z;
  maxDimension : Z;
  socket : string
}.

(** ** The queue *)

(** [queue] and [busy] are the fields of the class.  [loops] lists the
    activations of [processQueue] that are suspended in their [while]
    loop, each with the job it awaits.  [enqueued], [started] and
    [settled] are histories: every job pushed, every job shifted off
    the queue, and every promise resolved ([Ok]) or rejected with an
    error ([Err]), oldest first. *)
Record WorkerState : Type := mkWorker {
  queue : list Job;
  busy : bool;
  loops : list Job;
  enqueued : list Job;
  started : list Job;
  settled : list (Job * Result unit)
}.

Definition idle : WorkerState := mkWorker [] false [] [] [] [].

(** A call of [processQueue] up to its first [await]. *)
Definition processQueue (w : WorkerState) : WorkerState :=
  if busy w || Nat.eqb (length (queue w)) 0 then w
  else
    match queue w with
    | [] => mkWorker [] false (loops w) (enqueued w) (started w) (settled w)
    | job :: rest =>
        mkWorker rest true (loops w ++ [job]) (enqueued w)
                 (started w ++ [job]) (settled w)
    end.

Definition queueJob (job : Job) (w : WorkerState) : WorkerState :=
  let w :=
    mkWorker (queue w ++ [job]) (busy w) (loops w) (enqueued w ++ [job])
             (started w) (settled w) in
  if negb (busy w) then processQueue w else w.

(** The [i]-th suspended activation resumes: the job it awaited has
    finished or thrown; the promise is settled accordingly and the loop
    goes round, taking the next job or leaving with [busy = false]. *)
Definition resume (i : nat) (outcome : Result unit) (w : WorkerState)
  : WorkerState :=
  match loops w !! i with
  | None => w
  | Some job =>
      let settled' := settled w ++ [(job, outcome)] in
      match queue w with
      | next :: rest =>
          mkWorker rest (busy w) (<[i := next]> (loops w)) (enqueued w)
                   (started w ++ [next]) settled'
      | [] =>
          mkWorker [] false (delete i (loops w)) (enqueued w) (started w)
                   settled'
      end
  end.

(** The invariant behind the [busy] flag. *)
Definition queue_inv (w : WorkerState) : Prop :=
  (busy w = false -> loops w = [] /\ queue w = []) /\
  (busy w = true -> exists job, loops w = [job]) /\
  enqueued w = started w ++ queue w /\
  started w = map fst (settled w) ++ loops w.

(** What can happen to the worker: a request enqueues a job, or the
    job awaited by an activation finishes. *)
Inductive Label : Type :=
| Enqueue (job : Job)
| Finish (i : nat) (outcome : Result unit).

Definition step (l : Label) (w : WorkerState) : WorkerState :=
  match l with
  | Enqueue job => queueJob job w
  | Finish i outcome => resume i outcome w
  end.

Definition run (ls : list Label) (w : WorkerState) : WorkerState :=
  foldl (fun w l => step l w) w ls.

Definition enqueuedBy (ls : list Label) : list Job :=
  omap (fun l => match l with Enqueue j => Some j | Finish _ _ => None end) ls.

(** ** The jobs *)

(** The shared state a job works on: catalog, rendition cache and the
    events emitted so far, each with the id of its socket. *)
Record World : Type := mkWorld {
  database : list PhotoRecord;
  cacheState : CacheState;
  emitted : list (string * Event)
}.

Definition emitTo (socketId : string) (e : Event) (w : World) : World :=
  mkWorld (database w) (cacheState w) (emitted w ++ [(socketId, e)]).

Section WithHash.
Variable md5 : bytes -> string.

Definition processCompressedPhoto (env : Env) (w : World) (job : Job)
  : Result unit * World :=
  match getPhoto (database w) (photoId job) with
  | None => (Err ("Photo not found in database: " +:+ photoId job), w)
  | Some photo =>
      if negb (sourceExists env (path photo)) then
        (Err ("Photo file not found on disk: " +:+ path photo), w)
      else
        let '(compressed, cache') :=
          compressImage env (cacheState w) (path photo) (quality job)
                        (maxDimension job) (photoId job) in
        let w := mkWorld (database w) cache' (emitted w) in
        match compressed with
        | Err e => (Err e, w)
        | Ok compressedBuffer =>
            let checksum := md5 compressedBuffer in
            let w :=
              emitTo (socket job)
                (PhotoData (photoId job) compressedBuffer
                           (length compressedBuffer) checksum "image/jpeg") w in
            let w :=
              emitTo (socket job)
                (PhotoComplete (photoId job) (length compressedBuffer)
                               checksum) w in
            (Ok tt, w)
        end
  end.

(** The table of [processOriginalPhoto], [image/jpeg] when the extension
    is not listed. *)
Definition mimeTypeOf (ext : string) : string :=
  if String.eqb ext ".jpg" then "image/jpeg"
  else if String.eqb ext ".jpeg" then "image/jpeg"
  else if String.eqb ext ".png" then "image/png"
  else if String.eqb ext ".gif" then "image/gif"
  else if String.eqb ext ".webp" then "image/webp"
  else if String.eqb ext ".heic" then "image/heic"
  else "image/jpeg".

Definition processOriginalPhoto (env : Env) (w : World) (job : Job)
  : Result unit * World :=
  match getPhoto (database w) (photoId job) with
  | None => (Err ("Photo not found in database: " +:+ photoId job), w)
  | Some photo =>
      if negb (sourceExists env (path photo)) then
        (Err ("Photo file not found on disk: " +:+ path photo), w)
      else
        match readSource env (path photo) with
        | Err e => (Err e, w)
        | Ok fullBuffer =>
            let checksum := md5 fullBuffer in
            let mimeType := mimeTypeOf (extname env (path photo)) in
            let w :=
              emitTo (socket job)
                (PhotoData (photoId job) fullBuffer (length fullBuffer)
                           checksum mimeType) w in
            let w :=
              emitTo (socket job)
                (PhotoComplete (photoId job) (length fullBuffer) checksum) w in
            (Ok tt, w)
        end
  end.

(** The body of the [try] in [processQueue]. *)
Definition processJob (env : Env) (w : World) (job : Job)
  : Result unit * World :=
  if String.eqb (jobType job) "compressed" then
    processCompressedPhoto env w job
  else if String.eqb (jobType job) "original" then
    processOriginalPhoto env w job
  else (Ok tt, w).

(** The worker runs until nothing is left: each awaited job is carried
    out and its activation resumed.  [fuel] bounds the number of jobs. *)
Fixpoint drain (env : Env) (fuel : nat) (st : WorkerState * World)
  : WorkerState * World :=
  match fuel with
  | O => st
  | S fuel =>
      match loops st.1 with
      | [] => st
      | job :: _ =>
          let '(outcome, w) := processJob env st.2 job in
          drain env fuel (resume 0 outcome st.1, w)
      end
  end.

(** [await this.photoWorker.queueJob(job)] when no other request
    arrives meanwhile: the job is pushed, the worker runs dry, and the
    promise of the job, the last one settled, decides between the
    continuation and the [catch]. *)
Definition awaitJob (env : Env) (job : Job) (st : WorkerState * World)
  : Result unit * (WorkerState * World) :=
  let ws := queueJob job st.1 in
  let st := drain env (length (loops ws) + length (queue ws)) (ws, st.2) in
  (from_option snd (Ok tt) (last (settled st.1)), st).

(** The world after the given jobs have been carried out in order, and
    the outcome of each of them. *)
Definition runJobs (env : Env) (w : World) (jobs : list Job) : World :=
  foldl (fun w job => (processJob env w job).2) w jobs.

Fixpoint jobOutcomes (env : Env) (w : World) (jobs : list Job)
  : list (Job * Result unit) :=
  match jobs with
  | [] => []
  | job :: rest =>
      (job, (processJob env w job).1)
        :: jobOutcomes env (processJob env w job).2 rest
  end.

Definition MAX_BATCH_SIZE : nat := 500.

(** The argument of the acknowledgment callback. *)
Inductive Ack : Type :=
| AckError (code : string) (message : string)
| AckSuccess.

(** The [for] loop of [handleBatchRequest]. *)
Fixpoint batchLoop (env : Env) (socketId : string) (quality maxDimension : Z)
  (photoIds : list string) (st : WorkerState * World) : WorkerState * World :=
  match photoIds with
  | [] => st
  | pid :: rest =>
      let '(outcome, st) :=
        awaitJob env (mkJob "compressed" pid quality maxDimension socketId)
                 st in
      let st :=
        match outcome with
        | Ok _ => st
        | Err message =>
            (st.1,
             emitTo socketId (PhotoError pid "PROCESSING_FAILED" message) st.2)
        end in
      batchLoop env socketId quality maxDimension rest st
  end.

(** [photoIds] is [None] when the request's field is not an array;
    [quality] and [maxDimension] are [None] when left out.  The result
    is what [ack] receives, [None] when the client passed no [ack]. *)
Definition handleBatchRequest (env : Env) (socketId : string)
  (photoIds : option (list string)) (quality maxDimension : option Z)
  (ack : bool) (st : WorkerState * World)
  : option Ack * (WorkerState * World) :=
  let quality := from_option (fun q => q) 50 quality in
  let maxDimension := from_option (fun d => d) 1920 maxDimension in
  let answer (a : Ack) := if ack then Some a else None in
  match photoIds with
  | None | Some [] =>
      (answer (AckError "INVALID_REQUEST" "photoIds must be non-empty array"),
       st)
  | Some photoIds =>
      if Nat.ltb MAX_BATCH_SIZE (length photoIds) then
        (answer (AckError "BATCH_TOO_LARGE"
                   ("Maximum batch size is " +:+ pretty MAX_BATCH_SIZE)), st)
      else if (quality <? 1) || (100 <? quality) then
        (answer (AckError "INVALID_QUALITY" "Quality must be 1-100"), st)
      else if (maxDimension <? 1) || (10000 <? maxDimension) then
        (answer (AckError "INVALID_DIMENSION" "maxDimension must be 1-10000"),
         st)
      else
        let st := (st.1, emitTo socketId (BatchStarted (length photoIds)) st.2) in
        let st := batchLoop env socketId quality maxDimension photoIds st in
        (answer AckSuccess, st)
  end.

(** The events a socket received, oldest first. *)
Definition eventsOf (socketId : string) (w : World) : list Event :=
  omap (fun p => if String.eqb p.1 socketId then Some p.2 else None)
       (emitted w).

(** The events that one photo id of a compressed batch gives rise to: an
    error for an id the catalog does not have, the payload followed by
    the completion marker otherwise. *)
Definition batchGroup (database : list PhotoRecord) (pid : string)
  (group : list Event) : Prop :=
  match getPhoto database pid with
  | None =>
      group = [PhotoError pid "PROCESSING_FAILED"
                 ("Photo not found in database: " +:+ pid)]
  | Some _ =>
      exists b,
        group = [PhotoData pid b (length b) (md5 b) "image/jpeg";
                 PhotoComplete pid (length b) (md5 b)]
  end.

End WithHash.

Definition absent (database : list PhotoRecord) (pid : string) : bool :=
  match getPhoto database pid with
  | None => true
  | Some _ => false
  end.

(** An id of the catalog whose source file exists and whose rendition
    can be produced: resampling succeeds and the cache file can be
    written. *)
Definition servable (env : Env) (database : list PhotoRecord)
  (quality maxDimension : Z) (pid : string) : Prop :=
  match getPhoto database pid with
  | None => True
  | Some photo =>
      sourceExists env (path photo) = true /\
      (exists b, sharp env (path photo) quality maxDimension = Ok b) /\
      diskWritable env (cacheFilePathOf env
                          (getCacheKey pid quality maxDimension)) = Ok tt
  end.

Definition is_error (e : Event) : bool :=
  match e with
  | PhotoError _ _ _ => true
  | _ => false
  end.

End Worker.

(** ** Photo transfer over a peer link ([WebRTCManager.sendPhoto]) *)

Module P2P.
Import Js Catalog Wire Cache.

(** What goes over the data channel: a JSON control message or a raw
    binary chunk. *)
Inductive WireMsg : Type :=
| Json (message : JsValue)
| Binary (chunk : bytes).

(** The peer as the transfer finds it each time it uses the link: the
    [k]-th use finds it present, not destroyed and connected when
    [up k], and [peer.send] then succeeds when [sendOk k]. *)
Record Link : Type := mkLink {
  up : nat -> bool;
  sendOk : nat -> bool
}.

(** The image pipeline and file reads of [sendPhoto]: the resize to JPEG
    (with the PNG flag that adds the white background), [fs.statSync],
    [fs.readFileSync] and [path.extname(p).toLowerCase()]. *)
Record PeerEnv : Type := mkPeerEnv {
  sharpJpeg : string -> Z -> Z -> bool -> Result bytes;
  statSync : string -> Result Z;
  readFileSync : string -> Result bytes;
  extnameLower : string -> string
}.

Definition sendToPeer (link : Link) (k : nat) (message : JsValue)
  : list WireMsg :=
  if up link k then (if sendOk link k then [Json message] else []) else [].

(** The chunk loop from the [k]-th use of the link on, over the bytes
    not yet sent; the second component is the index of the next use
    when the loop ran to its end and [None] when it returned early.
    Every round sends at least one byte, so [fuel] is the number of
    bytes left. *)
Fixpoint sendChunks (chunkSize : nat) (link : Link) (fuel k : nat)
  (rest : bytes) : list WireMsg * option nat :=
  match fuel, rest with
  | O, _ | _, [] => ([], Some k)
  | S fuel, _ :: _ =>
      if up link k && sendOk link k then
        let r := sendChunks chunkSize link fuel (S k) (drop chunkSize rest) in
        (Binary (take chunkSize rest) :: r.1, r.2)
      else ([], None)
  end.

Definition chunkSize : nat := 64 * 1024.

Definition errorMessage (photoId : JsValue) (error : string) : JsValue :=
  JObj [ ("type", JStr "error"); ("photoId", photoId);
         ("error", JStr error) ]%string.

(** [photoId] is whatever the peer put in the request; [quality] and
    [maxDimension] are [None] when the request left them out. *)
Definition sendPhoto (env : PeerEnv) (link : Link)
  (database : list PhotoRecord) (photoId : string)
  (quality maxDimension : option Z) : list WireMsg :=
  let quality := from_option (fun q => q) 60 quality in
  let maxDimension := from_option (fun d => d) 1920 maxDimension in
  match getPhotoById database photoId with
  | None => sendToPeer link 0 (errorMessage (JStr photoId) "Photo not found")
  | Some photo =>
      let isPNG := String.eqb (extnameLower env (path photo)) ".png" in
      let processed :=
        match sharpJpeg env (path photo) maxDimension quality isPNG with
        | Ok buffer =>
            match statSync env (path photo) with
            | Ok _ => Ok buffer
            | Err e => Err e
            end
        | Err e => Err e
        end in
      let photoBuffer :=
        match processed with
        | Ok buffer => Ok buffer
        | Err _ => readFileSync env (path photo)
        end in
      match photoBuffer with
      | Err e => sendToPeer link 0 (errorMessage (JStr photoId) e)
      | Ok photoBuffer =>
          let start :=
            sendToPeer link 0
              (JObj [ ("type", JStr "photo-start");
                      ("photoId", JStr photoId);
                      ("name", JUndefined);
                      ("size", JNum (Z.of_nat (length photoBuffer)));
                      ("mimeType", JStr "image/jpeg") ]%string) in
          let '(chunks, next) :=
            sendChunks chunkSize link (length photoBuffer) 1 photoBuffer in
          start ++ chunks ++
            match next with
            | Some k =>
                sendToPeer link k
                  (JObj [ ("type", JStr "photo-complete");
                          ("photoId", JStr photoId);
                          ("totalBytes",
                           JNum (Z.of_nat (length photoBuffer))) ]%string)
            | None => []
            end
      end
  end.

(** The binary payload of a transcript. *)
Definition payload (out : list WireMsg) : bytes :=
  concat (omap (fun m => match m with Binary c => Some c | Json _ => None end)
               out).

Definition controlMessages (out : list WireMsg) : list JsValue :=
  omap (fun m => match m with Json v => Some v | Binary _ => None end) out.

Definition alwaysUp : Link := mkLink (fun _ => true) (fun _ => true).

End P2P.

(** ** The folder hierarchy ([buildFolderStructure]) *)

Module Folders.
Import Catalog.

(** [s.split(sep)] for a one character separator. *)
Fixpoint splitOn (sep : Ascii.ascii) (s : string) : list string :=
  match s with
  | EmptyString => [EmptyString]
  | String c rest =>
      if Ascii.eqb c sep then EmptyString :: splitOn sep rest
      else
        match splitOn sep rest with
        | [] => [String c EmptyString]
        | part :: parts => String c part :: parts
        end
  end.

(** [parts.join(sep)] *)
Fixpoint joinWith (sep : string) (parts : list string) : string :=
  match parts with
  | [] => EmptyString
  | part :: rest =>
      match rest with
      | [] => part
      | _ :: _ => part +:+ sep +:+ joinWith sep rest
      end
  end.

(** The character [/]. *)
Definition slash : Ascii.ascii := Ascii.ascii_of_N 47.

(** A folder object of [folderMap].  [subfolders] holds references to
    other folder objects, written as their keys in the map. *)
Record FolderObj : Type := mkFolderObj {
  fid : string;
  fRootPath : string;
  fFolderPath : string;
  displayName : string;
  fullPath : string;
  photoCount : nat;
  subfolders : list string
}.

(** [folderMap]: a [Map] from key to folder object, in insertion
    order. *)
Definition FolderMap : Type := list (string * FolderObj).

Definition mapGet (m : FolderMap) (key : string) : option FolderObj :=
  snd <$> List.find (fun kv => String.eqb kv.1 key) m.

Definition mapHas (m : FolderMap) (key : string) : bool :=
  match mapGet m key with
  | Some _ => true
  | None => false
  end.

(** A mutation of the object stored under [key]. *)
Definition mapUpdate (m : FolderMap) (key : string)
  (f : FolderObj -> FolderObj) : FolderMap :=
  map (fun kv => if String.eqb kv.1 key then (kv.1, f kv.2) else kv) m.

Definition keyOf (rootPath folderPath : string) : string :=
  rootPath +:+ "::" +:+ folderPath.

Definition photoKey (photo : PhotoRecord) : string :=
  keyOf (rootPath photo) (folderPath photo).

(** The nodes of the structure that is returned. *)
#[warnings="-register-all"]
Inductive FolderTree : Type :=
| Node (folder : FolderObj) (totalPhotoCount : nat) (subs : list FolderTree).

Definition folderOf (t : FolderTree) : FolderObj :=
  match t with Node folder _ _ => folder end.

Definition totalOf (t : FolderTree) : nat :=
  match t with Node _ total _ => total end.

Definition subsOf (t : FolderTree) : list FolderTree :=
  match t with Node _ _ subs => subs end.

(** [node] occurs in the tree [t]. *)
Inductive nodeOf (node : FolderTree) : FolderTree -> Prop :=
| nodeOf_here : nodeOf node node
| nodeOf_sub folder total subs sub :
    sub ∈ subs -> nodeOf node sub -> nodeOf node (Node folder total subs).

Section WithPaths.
Variable md5 : string -> string.
Variable basename : string -> string.
Variable pathJoin : string -> string -> string.
Variable pathSep : string.

Definition ensureFolderExists (m : FolderMap) (rootPath folderPath : string)
  : FolderMap :=
  let key := keyOf rootPath folderPath in
  if mapHas m key then m
  else
    m ++ [(key,
           mkFolderObj
             (String.substring 0 16 (md5 key)) rootPath folderPath
             (if String.eqb folderPath "" then basename rootPath
              else basename folderPath)
             (if String.eqb folderPath "" then rootPath
              else pathJoin rootPath
                     (joinWith pathSep (splitOn slash folderPath)))
             0 [])].

(** The folder paths of the ancestors of a folder, outermost first, the
    folder itself last. *)
Definition ancestorPaths (folderPath : string) : list string :=
  let pathParts := splitOn slash folderPath in
  map (fun i => joinWith "/" (take (S i) pathParts))
      (seq 0 (length pathParts)).

(** The body of [photosDatabase.forEach(photo => ...)]. *)
Definition collectPhoto (m : FolderMap) (photo : PhotoRecord) : FolderMap :=
  let m := ensureFolderExists m (rootPath photo) "" in
  let m :=
    if negb (String.eqb (folderPath photo) "") then
      foldl (fun m ancestorPath =>
               ensureFolderExists m (rootPath photo) ancestorPath)
            m (ancestorPaths (folderPath photo))
    else m in
  mapUpdate m (photoKey photo)
    (fun folder =>
       mkFolderObj (fid folder) (fRootPath folder) (fFolderPath folder)
                   (displayName folder) (fullPath folder)
                   (S (photoCount folder)) (subfolders folder)).

Definition collectFolders (database : list PhotoRecord) : FolderMap :=
  foldl collectPhoto [] database.

Definition parentKeyOf (folder : FolderObj) : string :=
  keyOf (fRootPath folder)
        (joinWith "/" (removelast (splitOn slash (fFolderPath folder)))).

(** The body of [folders.forEach(folder => ...)] for the folder stored
    under [key]: a folder below a root is pushed onto its parent's
    [subfolders] unless a subfolder with the same id is there. *)
Definition attach (m : FolderMap) (entry : string * FolderObj) : FolderMap :=
  let '(key, folder) := entry in
  if String.eqb (fFolderPath folder) "" then m
  else
    match mapGet m (parentKeyOf folder) with
    | Some parent =>
        if existsb
             (fun ref =>
                match mapGet m ref with
                | Some sf => String.eqb (fid sf) (fid folder)
                | None => false
                end)
             (subfolders parent)
        then m
        else
          mapUpdate m (parentKeyOf folder)
            (fun parent =>
               mkFolderObj (fid parent) (fRootPath parent) (fFolderPath parent)
                           (displayName parent) (fullPath parent)
                           (photoCount parent)
                           (subfolders parent ++ [key]))
    | None => m
    end.

Definition buildHierarchy (m : FolderMap) : FolderMap := foldl attach m m.

(** [rootFolders], in the order of the map. *)
Definition rootFolders (m : FolderMap) : list FolderObj :=
  filter (fun folder => fFolderPath folder = EmptyString) (map snd m).

(** [calculateRecursiveCount]: the total is the direct count plus the
    totals of all subfolders, and only subfolders with a positive total
    are kept.  [fuel] bounds the depth of the recursion. *)
Fixpoint calculateRecursiveCount (fuel : nat) (m : FolderMap)
  (folder : FolderObj) : FolderTree :=
  let counted :=
    match fuel with
    | O => []
    | S fuel =>
        map (calculateRecursiveCount fuel m) (omap (mapGet m) (subfolders folder))
    end in
  Node folder
       (photoCount folder + sum_list (map totalOf counted))
       (filter (fun sub => 0 < totalOf sub)%nat counted).

(** Every subfolder has a longer key than its parent, so the depth is
    bounded by the longest key. *)
Definition depthBound (m : FolderMap) : nat :=
  S (max_list (map (fun kv => String.length kv.1) m)).

Definition structureWith (fuel : nat) (database : list PhotoRecord)
  : list FolderTree * nat :=
  let m := buildHierarchy (collectFolders database) in
  (filter (fun t => 0 < totalOf t)%nat
          (map (calculateRecursiveCount fuel m) (rootFolders m)),
   length database).

(** The result [{ folders, totalPhotos }]. *)
Definition buildFolderStructure (database : list PhotoRecord)
  : list FolderTree * nat :=
  structureWith (depthBound (buildHierarchy (collectFolders database)))
                database.

(** [PhotoDatabase.getFolderStructure] is the same code over the same
    array. *)
Definition getFolderStructure := buildFolderStructure.

End WithPaths.

(** The photos that lie directly in the folder with the given key. *)
Definition directCount (database : list PhotoRecord) (key : string) : nat :=
  length (filter (fun photo => photoKey photo = key) database).

(** Keys are unique and every object sits under the key of its own
    root and folder path. *)
Definition wellKeyed (m : FolderMap) : Prop :=
  NoDup (map fst m) /\
  forall k x, (k, x) ∈ m -> k = keyOf (fRootPath x) (fFolderPath x).

(** The map holds the folder of every photo, and each object counts
    the photos that lie directly in it. *)
Definition counted (database : list PhotoRecord) (m : FolderMap) : Prop :=
  (forall k x, mapGet m k = Some x -> photoCount x = directCount database k) /\
  (forall photo, photo ∈ database -> mapHas m (photoKey photo) = true).

(** [m'] has every object of [m] unchanged, and its other objects are
    fresh: no photos, no subfolders. *)
Definition extends (m m' : FolderMap) : Prop :=
  (forall k x, mapGet m k = Some x -> mapGet m' k = Some x) /\
  (forall k x, mapGet m k = None -> mapGet m' k = Some x ->
               photoCount x = 0%nat /\ subfolders x = []).

(** Every reference in a [subfolders] list is a longer key than the key
    of the object that holds it. *)
Definition refsDeeper (m : FolderMap) : Prop :=
  forall k x, mapGet m k = Some x ->
    forall ref, ref ∈ subfolders x ->
      (String.length k < String.length ref)%nat.

(** The object without its [subfolders]. *)
Definition stripped (x : FolderObj) : FolderObj :=
  mkFolderObj (fid x) (fRootPath x) (fFolderPath x) (displayName x)
              (fullPath x) (photoCount x) [].

(** Two maps with the same keys in the same order and the same objects
    up to their [subfolders]. *)
Definition sameFolders (m h : FolderMap) : Prop :=
  Forall2 (fun a b => a.1 = b.1 /\ stripped a.2 = stripped b.2) m h.

(** The folder paths that [collectPhoto] ensures for a photo: the root,
    then every ancestor down to the photo's own folder. *)
Definition ensuredPaths (photo : PhotoRecord) : list string :=
  EmptyString ::
    (if negb (String.eqb (folderPath photo) "") then
       ancestorPaths (folderPath photo)
     else []).

(** No object has subfolders yet. *)
Definition noRefs (m : FolderMap) : Prop :=
  forall k x, mapGet m k = Some x -> subfolders x = [].

(** The folders above a photo in the words of the specification: [a]
    is the folder [s] itself or a folder that [s] lies below, so that
    [s] continues [a] with a slash. *)
Definition ancestorOrSelf (a s : string) : Prop :=
  a = s \/ exists rest, s = a +:+ "/" +:+ rest.

(** The folders that the specification wants in the tree for a photo:
    the root folder of its library and every ancestor of its own
    folder, that folder included. *)
Definition folderAbove (photo : PhotoRecord) (a : string) : Prop :=
  a = EmptyString \/ ancestorOrSelf a (folderPath photo).

(** No two folders of the catalog share an id. *)
Definition distinctIds (md5 : string -> string) (database : list PhotoRecord)
  : Prop :=
  forall p1 a1 p2 a2,
    p1 ∈ database -> folderAbove p1 a1 ->
    p2 ∈ database -> folderAbove p2 a2 ->
    String.substring 0 16 (md5 (keyOf (rootPath p1) a1))
      = String.substring 0 16 (md5 (keyOf (rootPath p2) a2)) ->
    rootPath p1 = rootPath p2 /\ a1 = a2.

(** Every object of the map carries the id made of its key and is a
    folder that [collectPhoto] ensured for some photo of the catalog. *)
Definition fromPhotos (md5 : string -> string) (database : list PhotoRecord)
  (m : FolderMap) : Prop :=
  forall k x, (k, x) ∈ m ->
    fid x = String.substring 0 16 (md5 k) /\
    exists photo,
      photo ∈ database /\ fRootPath x = rootPath photo /\
      fFolderPath x ∈ ensuredPaths photo.

(** Every reference of the hierarchy [h] is the key of a folder of the
    collected map [m] that lies directly below the object that holds
    the reference. *)
Definition refsBelow (m h : FolderMap) : Prop :=
  forall k x ref, mapGet h k = Some x -> ref ∈ subfolders x ->
    exists y, (ref, y) ∈ m /\ fFolderPath y <> EmptyString /\
              keyOf (fRootPath y)
                    (joinWith "/" (removelast (splitOn slash (fFolderPath y))))
                = k.

(** The state of the hierarchy when the folders [done] of the collected
    map [m] have been visited: every visited folder whose parent exists
    is referred to by its parent. *)
Definition attached (m h : FolderMap) (done : list (string * FolderObj))
  : Prop :=
  forall ck c, (ck, c) ∈ done -> fFolderPath c <> EmptyString ->
    forall k, k = keyOf (fRootPath c)
                    (joinWith "/" (removelast (splitOn slash (fFolderPath c)))) ->
    is_Some (mapGet m k) ->
    exists parent, mapGet h k = Some parent /\ ck ∈ subfolders parent.

End Folders.

(** ** Sample data *)

Module Samples.
Import Js Tokens Wire Auth.

Definition photoA : Catalog.PhotoRecord :=
  Catalog.mkPhoto "b1" "a.jpg" "/lib/a.jpg" 10 1000 4 3 "/lib" "".

Definition photoB : Catalog.PhotoRecord :=
  Catalog.mkPhoto "a7" "b.png" "/lib/trip/b.png" 20 2000 8 6 "/lib" "trip".

Definition hex16 : string := "0123456789abcdef".

Definition tokenValue : string := hex16 +:+ hex16 +:+ hex16 +:+ hex16.

Definition revokedToken : DeviceToken :=
  mkToken tokenValue "dev-1" "Phone" "user-1" "u@example.org" 9000000 false.

Definition activeToken : DeviceToken :=
  mkToken tokenValue "dev-1" "Phone" "user-1" "u@example.org" 9000000 true.

Definition handshake : Handshake :=
  mkHandshake "10.0.0.7" (JStr "Mozilla/5.0 (iPhone)") (JStr tokenValue)
              JUndefined JUndefined.

Definition emptyServer : Server := mkServer ∅ (mkManager None 0) [].

Definition freshSocket : Socket := mkSocket "s1" None [] [] [].

Definition liveSocket : Socket :=
  mkSocket "s1" (Some (sessionFor handshake activeToken 6000))
           ["authenticated"]%string ["manifest:request"]%string [].

Definition sampleEnv : Cache.Env :=
  Cache.mkEnv "/app/.cache"
    (fun _ _ _ => Cache.Ok [Byte.xff; Byte.xd8; Byte.x01])
    (fun _ => Cache.Ok tt) (fun _ => true)
    (fun _ => Cache.Ok [Byte.x89; Byte.x50]) (fun _ => ".png"%string).

(** The same, with a cache directory that cannot be written. *)
Definition readOnlyEnv : Cache.Env :=
  Cache.mkEnv "/app/.cache"
    (fun _ _ _ => Cache.Ok [Byte.xff; Byte.xd8; Byte.x01])
    (fun _ => Cache.Err "EACCES") (fun _ => true)
    (fun _ => Cache.Ok [Byte.x89; Byte.x50]) (fun _ => ".png"%string).

Definition emptyCache : Cache.CacheState := Cache.mkCache ∅ ∅ [].

Definition jobFor (pid socketId : string) : Worker.Job :=
  Worker.mkJob "compressed" pid 50 1920 socketId.

(** An image library that answers with other bytes than [sampleEnv]. *)
Definition otherEnv : Cache.Env :=
  Cache.mkEnv "/app/.cache" (fun _ _ _ => Cache.Ok [Byte.x00])
    (fun _ => Cache.Ok tt) (fun _ => true)
    (fun _ => Cache.Ok [Byte.x89; Byte.x50]) (fun _ => ".png"%string).

Definition lengthHash (b : Wire.bytes) : string := pretty (length b).

(** A peer environment whose image pipeline rejects every file. *)
Definition brokenSharp : P2P.PeerEnv :=
  P2P.mkPeerEnv
    (fun _ _ _ _ => Cache.Err "Input file contains unsupported image format")
    (fun _ => Cache.Ok 2) (fun _ => Cache.Ok [Byte.x89; Byte.x50])
    (fun _ => ".png"%string).

Definition sampleWorld : Worker.World :=
  Worker.mkWorld [photoA; photoB] emptyCache [].

(** An image library that cannot decode the file of [photoB]; every
    source file exists. *)
Definition undecodableEnv : Cache.Env :=
  Cache.mkEnv "/app/.cache"
    (fun filePath _ _ =>
       if String.eqb filePath "/lib/trip/b.png"
       then Cache.Err "Input file contains unsupported image format"
       else Cache.Ok [Byte.xff; Byte.xd8; Byte.x01])
    (fun _ => Cache.Ok tt) (fun _ => true)
    (fun _ => Cache.Ok [Byte.x89; Byte.x50]) (fun _ => ".png"%string).

End Samples.

(** ** Further reads of the token store ([DeviceTokenManagerServer]) *)

Module TokenStore.
Import Js Tokens.

Definition getAllTokens (file : TokenFile) (now : Z) (m : Manager)
  : list DeviceToken * Manager :=
  readTokens file now m.

(** [tokens.filter(t => t.active && t.expiresAt > now).length] *)
Definition getActiveTokenCount (file : TokenFile) (now : Z) (m : Manager)
  : nat * Manager :=
  let '(tokens, m') := readTokens file now m in
  (length (List.filter (fun t => active t && (now <? expiresAt t)) tokens), m').

End TokenStore.

(** ** Token administration in the main process ([DeviceTokenManager] in
    src/device-token-manager.js) *)

Module Admin.
Import Js Wire.

(** A stored token with all the properties of the typedef; [null] is
    [None]. *)
Record ManagedToken : Type := mkManaged {
  token : string;
  deviceName : string;
  deviceId : string;
  userId : string;
  userEmail : string;
  createdAt : Z;
  lastUsed : option Z;
  expiresAt : Z;
  active : bool;
  connectionCount : Z;
  lastConnectedIp : option string;
  revokedAt : option Z
}.

(** The content of [device-tokens.json] as [syncToJsonFile] writes it:
    the stored tokens with all their properties and the time of the
    write. *)
Record JsonData : Type := mkJsonData {
  dataTokens : list ManagedToken;
  lastSync : Z
}.

(** The [tokens] entry of the electron store and the JSON file, [None]
    when the file is not there or does not parse. *)
Record State : Type := mkState {
  tokens : list ManagedToken;
  file : option JsonData
}.

(** A token of the file as the server process uses it: of the
    properties that [JSON.parse] gives it, the server reads these seven
    and no others. *)
Definition exported (t : ManagedToken) : Tokens.DeviceToken :=
  Tokens.mkToken (token t) (deviceId t) (deviceName t) (userId t)
                 (userEmail t) (expiresAt t) (active t).

(** The file as a read of the server process finds it: [data.tokens]. *)
Definition jsonFile (s : State) : Tokens.TokenFile :=
  match file s with
  | Some data => Some (map exported (dataTokens data))
  | None => None
  end.

(** [now] is the clock of the call; [writable] tells whether
    [fs.writeFileSync] succeeds; an error is caught and logged, and the
    file keeps what it had. *)
Definition syncToJsonFile (now : Z) (writable : bool) (s : State) : State :=
  if writable then mkState (tokens s) (Some (mkJsonData (tokens s) now))
  else s.

(** One digit of [Buffer.toString('hex')]. *)
Definition hexDigit (n : N) : Ascii.ascii :=
  Ascii.ascii_of_N (if (n <? 10)%N then 48 + n else 87 + n).

Definition hexOfByte (b : Byte.byte) : string :=
  let n := Byte.to_N b in
  String (hexDigit (n / 16)) (String (hexDigit (n mod 16)) EmptyString).

(** [buffer.toString('hex')] *)
Fixpoint toHex (buffer : bytes) : string :=
  match buffer with
  | [] => EmptyString
  | b :: rest => hexOfByte b +:+ toHex rest
  end.

(** [random n] is what [crypto.randomBytes(n)] returns in this call. *)
Definition generateToken (random : nat -> bytes) : string :=
  toHex (random 32%nat).

(** The [metadata] argument of [createToken]; a property that was left
    out is [None]. *)
Record Metadata : Type := mkMetadata {
  metaDeviceName : option string;
  metaDeviceId : option string;
  metaUserId : option string;
  metaUserEmail : option string
}.

(** [v || fallback] for a string or missing [v]. *)
Definition orElse (v : option string) (fallback : string) : string :=
  match v with
  | Some s => if String.eqb s EmptyString then fallback else s
  | None => fallback
  end.

Definition NINETY_DAYS : Z := 90 * 24 * 60 * 60 * 1000.

Definition createToken (random : nat -> bytes) (now : Z) (writable : bool)
  (metadata : Metadata) (s : State) : ManagedToken * State :=
  let t :=
    mkManaged (generateToken random)
      (orElse (metaDeviceName metadata) "Unknown Device")
      (orElse (metaDeviceId metadata) (toHex (random 16%nat)))
      (orElse (metaUserId metadata) "local")
      (orElse (metaUserEmail metadata) "local@device")
      now None (now + NINETY_DAYS) true 0 None None in
  (t, syncToJsonFile now writable (mkState (tokens s ++ [t]) (file s))).

Definition getAllTokens (s : State) : list ManagedToken := tokens s.

Definition getActiveTokens (now : Z) (s : State) : list ManagedToken :=
  List.filter (fun t => active t && (now <? expiresAt t)) (getAllTokens s).

(** [tokens.find(t => t.token === tokenValue)] *)
Definition findToken (ts : list ManagedToken) (tokenValue : string)
  : option ManagedToken :=
  List.find (fun t => String.eqb (token t) tokenValue) ts.

(** A mutation of the object that [find] returned: the first element
    that satisfies [p] is replaced by its image. *)
Fixpoint updateFirst {A} (p : A -> bool) (f : A -> A) (l : list A) : list A :=
  match l with
  | [] => []
  | x :: rest => if p x then f x :: rest else x :: updateFirst p f rest
  end.

Definition revoked (now : Z) (t : ManagedToken) : ManagedToken :=
  mkManaged (token t) (deviceName t) (deviceId t) (userId t) (userEmail t)
            (createdAt t) (lastUsed t) (expiresAt t) false
            (connectionCount t) (lastConnectedIp t) (Some now).

Definition revokeToken (now : Z) (writable : bool) (tokenValue : string)
  (s : State) : option ManagedToken * State :=
  match findToken (tokens s) tokenValue with
  | Some t =>
      (Some (revoked now t),
       syncToJsonFile now writable
         (mkState (updateFirst (fun t => String.eqb (token t) tokenValue)
                               (revoked now) (tokens s))
                  (file s)))
  | None => (None, s)
  end.

Definition deleteToken (now : Z) (writable : bool) (tokenValue : string)
  (s : State) : bool * State :=
  let filtered :=
    List.filter (fun t => negb (String.eqb (token t) tokenValue)) (tokens s) in
  if Nat.ltb (length filtered) (length (tokens s)) then
    (true, syncToJsonFile now writable (mkState filtered (file s)))
  else (false, s).

Definition used (now : Z) (ipAddress : option string) (t : ManagedToken)
  : ManagedToken :=
  mkManaged (token t) (deviceName t) (deviceId t) (userId t) (userEmail t)
            (createdAt t) (Some now) (expiresAt t) (active t)
            (connectionCount t + 1)
            (match ipAddress with
             | Some ip =>
                 if String.eqb ip EmptyString then lastConnectedIp t
                 else Some ip
             | None => lastConnectedIp t
             end)
            (revokedAt t).

Definition updateLastUsed (now : Z) (writable : bool) (tokenValue : string)
  (ipAddress : option string) (s : State) : bool * State :=
  match findToken (tokens s) tokenValue with
  | Some _ =>
      (true,
       syncToJsonFile now writable
         (mkState (updateFirst (fun t => String.eqb (token t) tokenValue)
                               (used now ipAddress) (tokens s))
                  (file s)))
  | None => (false, s)
  end.

(** Expired tokens are dropped unless they were revoked. *)
Definition cleanExpiredTokens (now : Z) (writable : bool) (s : State)
  : nat * State :=
  let filtered :=
    List.filter (fun t => (now <? expiresAt t) || negb (active t)) (tokens s) in
  let removedCount := (length (tokens s) - length filtered)%nat in
  if Nat.ltb 0 removedCount then
    (removedCount,
     syncToJsonFile now writable (mkState filtered (file s)))
  else (removedCount, s).

Record Stats : Type := mkStats {
  total : nat;
  activeCount : nat;
  revokedCount : nat;
  expiredCount : nat
}.

Definition getStats (now : Z) (s : State) : Stats :=
  let ts := getAllTokens s in
  mkStats (length ts)
    (length (List.filter (fun t => active t && (now <? expiresAt t)) ts))
    (length (List.filter (fun t => negb (active t)) ts))
    (length (List.filter (fun t => active t && (expiresAt t <=? now)) ts)).

(** The calls that change the store, for runs of several of them. *)
Inductive Call : Type :=
| Create (random : nat -> bytes) (now : Z) (metadata : Metadata)
| Revoke (now : Z) (tokenValue : string)
| Delete (now : Z) (tokenValue : string)
| Touch (now : Z) (tokenValue : string) (ipAddress : option string)
| Clean (now : Z).

Definition call (writable : bool) (c : Call) (s : State) : State :=
  match c with
  | Create random now metadata => (createToken random now writable metadata s).2
  | Revoke now v => (revokeToken now writable v s).2
  | Delete now v => (deleteToken now writable v s).2
  | Touch now v ip => (updateLastUsed now writable v ip s).2
  | Clean now => (cleanExpiredTokens now writable s).2
  end.

(** The state the constructor leaves: the store as found, written out
    once. *)
Definition start (now : Z) (writable : bool) (stored : list ManagedToken)
  (found : option JsonData) : State :=
  syncToJsonFile now writable (mkState stored found).

(** The server process reads the tokens of the store from the file. *)
Definition synced (s : State) : Prop :=
  jsonFile s = Some (map exported (tokens s)).

(** The file holds the store as it is, written at [lastSync]. *)
Definition mirrored (s : State) : Prop :=
  exists t, file s = Some (mkJsonData (tokens s) t).

End Admin.

(** ** The configured photo directories ([PhotoPathsManager] in
    photo-paths-manager-server.js) *)

Module Paths.

Record PhotoPath : Type := mkPath {
  id : string;
  path : string;
  enabled : bool;
  addedAt : Z
}.

(** The store file as one read finds it: [Some paths] when it parses,
    [paths] being [store.paths || []], and [None] when reading or
    parsing throws. *)
Definition StoreFile : Type := option (list PhotoPath).

(** [readStore] followed by [store.paths || []]; a file that cannot be
    read counts as [{ paths: [] }]. *)
Definition getAllPaths (file : StoreFile) : list PhotoPath :=
  from_option (fun paths => paths) [] file.

Definition getEnabledPaths (file : StoreFile) : list PhotoPath :=
  List.filter enabled (getAllPaths file).

(** [writable] tells whether [fs.writeFileSync] succeeds; an error is
    caught and logged. *)
Definition writeStore (writable : bool) (paths : list PhotoPath)
  (file : StoreFile) : StoreFile :=
  if writable then Some paths else file.

Record Answer : Type := mkAnswer {
  success : bool;
  message : string;
  answerPath : option PhotoPath
}.

(** What [addPath] sees of the file system: [path.resolve] and, for a
    resolved path, [None] when nothing is there and otherwise whether it
    is a directory. *)
Record Disk : Type := mkDisk {
  resolve : string -> string;
  isDirectory : string -> option bool
}.

(** [suffix] is [Math.random().toString(36).substring(2, 9)]. *)
Definition generateId (now : Z) (suffix : string) : string :=
  "path_" +:+ pretty now +:+ "_" +:+ suffix.

Definition addPath (fs : Disk) (now : Z) (suffix : string) (writable : bool)
  (dirPath : string) (file : StoreFile) : Answer * StoreFile :=
  let absolutePath := resolve fs dirPath in
  match isDirectory fs absolutePath with
  | None => (mkAnswer false "Directory does not exist" None, file)
  | Some false => (mkAnswer false "Path is not a directory" None, file)
  | Some true =>
      let paths := getAllPaths file in
      match List.find (fun p => String.eqb (path p) absolutePath) paths with
      | Some existing =>
          (mkAnswer false "Path already exists" (Some existing), file)
      | None =>
          let newPath := mkPath (generateId now suffix) absolutePath true now in
          (mkAnswer true "Path added successfully" (Some newPath),
           writeStore writable (paths ++ [newPath]) file)
      end
  end.

(** [paths.splice(paths.findIndex(p), 1)] for an index that was found. *)
Fixpoint removeFirst {A} (p : A -> bool) (l : list A) : list A :=
  match l with
  | [] => []
  | x :: rest => if p x then rest else x :: removeFirst p rest
  end.

Definition removePath (writable : bool) (i : string) (file : StoreFile)
  : Answer * StoreFile :=
  let paths := getAllPaths file in
  match List.find (fun p => String.eqb (id p) i) paths with
  | None => (mkAnswer false "Path not found" None, file)
  | Some _ =>
      (mkAnswer true "Path removed successfully" None,
       writeStore writable (removeFirst (fun p => String.eqb (id p) i) paths)
                  file)
  end.

Definition withEnabled (e : bool) (p : PhotoPath) : PhotoPath :=
  mkPath (id p) (path p) e (addedAt p).

(** A mutation of the object that [find] returned. *)
Fixpoint setFirst {A} (p : A -> bool) (f : A -> A) (l : list A) : list A :=
  match l with
  | [] => []
  | x :: rest => if p x then f x :: rest else x :: setFirst p f rest
  end.

Definition togglePath (writable : bool) (i : string) (e : bool)
  (file : StoreFile) : Answer * StoreFile :=
  let paths := getAllPaths file in
  match List.find (fun p => String.eqb (id p) i) paths with
  | None => (mkAnswer false "Path not found" None, file)
  | Some pathObj =>
      (mkAnswer true
         ("Path " +:+ (if e then "enabled" else "disabled") +:+ " successfully")
         (Some (withEnabled e pathObj)),
       writeStore writable
         (setFirst (fun p => String.eqb (id p) i) (withEnabled e) paths) file)
  end.

Definition clearAllPaths (writable : bool) (file : StoreFile)
  : Answer * StoreFile :=
  (mkAnswer true "All paths cleared" None, writeStore writable [] file).

Record Stats : Type := mkStats {
  total : nat;
  enabledCount : nat;
  disabledCount : nat
}.

Definition getStats (file : StoreFile) : Stats :=
  let paths := getAllPaths file in
  mkStats (length paths) (length (List.filter enabled paths))
          (length (List.filter (fun p => negb (enabled p)) paths)).

(** The calls that write the store, for runs of several of them. *)
Inductive Call : Type :=
| Add (fs : Disk) (now : Z) (suffix : string) (dirPath : string)
| Remove (i : string)
| Toggle (i : string) (e : bool)
| Clear.

Definition call (writable : bool) (c : Call) (file : StoreFile)
  : Answer * StoreFile :=
  match c with
  | Add fs now suffix dirPath => addPath fs now suffix writable dirPath file
  | Remove i => removePath writable i file
  | Toggle i e => togglePath writable i e file
  | Clear => clearAllPaths writable file
  end.

End Paths.

(** ** Scanning the configured directories ([scanDirectoryRecursive] and
    [scanPhotos] in src/server.js) *)

Module Scan.
Import Catalog Cache.

(** A directory entry as [readdir] with [withFileTypes] lists it,
    together with what the scan would find behind it: for a file the
    answers of [stat] (size and modification time) and of the image
    library's [metadata] (width and height), for a directory the answer
    of its own [readdir].  [OtherNode] is an entry that is neither. *)
#[warnings="-register-all"]
Inductive FsNode : Type :=
| FileNode (name : string) (stat : Result (Z * Z)) (metadata : Result (Z * Z))
| DirNode (name : string) (listing : Result (list FsNode))
| OtherNode (name : string).

Definition imageExtensions : list string :=
  [".jpg"; ".jpeg"; ".png"; ".gif"; ".bmp"; ".webp"; ".heic"; ".heif"]%string.

Section WithPaths.
Variable md5 : string -> string.
(** [path.extname(p).toLowerCase()], [path.join], [path.relative] and
    [path.sep]. *)
Variable extnameLower : string -> string.
Variable pathJoin : string -> string -> string.
Variable relative : string -> string -> string.
Variable pathSep : Ascii.ascii.

Definition generatePhotoId (filePath : string) (modified : Z) : string :=
  String.substring 0 16 (md5 (filePath +:+ ":" +:+ pretty modified)).

Definition isImageFile (filename : string) : bool :=
  existsb (String.eqb (extnameLower filename)) imageExtensions.

(** [{ width: 0, height: 0 }] when the image cannot be read. *)
Definition getImageDimensions (metadata : Result (Z * Z)) : Z * Z :=
  match metadata with
  | Ok dimensions => dimensions
  | Err _ => (0, 0)
  end.

(** The [for] loop over the entries of one directory: the counts add
    up and [results] is threaded through. *)
Definition scanEntries
  (scanOne : FsNode -> list PhotoRecord -> nat * list PhotoRecord)
  (entries : list FsNode) (results : list PhotoRecord)
  : nat * list PhotoRecord :=
  fold_left (fun acc entry =>
               let r := scanOne entry acc.2 in ((acc.1 + r.1)%nat, r.2))
            entries (0%nat, results).

(** The body of the loop for one entry of the directory [dirPath]; a
    subdirectory is the recursive call
    [scanDirectoryRecursive(fullPath, results, rootPath)]. *)
Fixpoint scanEntry (rootPath dirPath : string) (entry : FsNode)
  (results : list PhotoRecord) {struct entry} : nat * list PhotoRecord :=
  match entry with
  | DirNode name listing =>
      let fullPath := pathJoin dirPath name in
      let rootPath :=
        if String.eqb rootPath EmptyString then fullPath else rootPath in
      match listing with
      | Ok entries => scanEntries (scanEntry rootPath fullPath) entries results
      | Err _ => (0%nat, results)
      end
  | FileNode name stat metadata =>
      let fullPath := pathJoin dirPath name in
      if isImageFile name then
        match stat with
        | Ok (size, mtimeMs) =>
            let id := generatePhotoId fullPath mtimeMs in
            let dimensions := getImageDimensions metadata in
            let relativePath := relative rootPath dirPath in
            let folderPath :=
              if String.eqb relativePath EmptyString then EmptyString
              else Folders.joinWith "/" (Folders.splitOn pathSep relativePath) in
            (1%nat,
             results ++
               [mkPhoto id name fullPath size mtimeMs dimensions.1 dimensions.2
                        rootPath folderPath])
        | Err _ => (0%nat, results)
        end
      else (0%nat, results)
  | OtherNode _ => (0%nat, results)
  end.

(** [listing] is the answer of [readdir(dirPath)]; [rootPath] is [None]
    when the argument is left out. *)
Definition scanDirectoryRecursive (dirPath : string)
  (listing : Result (list FsNode)) (results : list PhotoRecord)
  (rootPath : option string) : nat * list PhotoRecord :=
  let rootPath :=
    match rootPath with
    | Some r => if String.eqb r EmptyString then dirPath else r
    | None => dirPath
    end in
  match listing with
  | Ok entries => scanEntries (scanEntry rootPath dirPath) entries results
  | Err _ => (0%nat, results)
  end.

(** What the scan records of a file: an image file name and the id
    made of its path and modification time; its root is the directory
    the scan started from. *)
Definition scanned (root : string) (photo : PhotoRecord) : Prop :=
  isImageFile (filename photo) = true /\
  id photo = generatePhotoId (path photo) (modified photo) /\
  (root <> EmptyString -> rootPath photo = root).

(** The ['manifest:updated'] broadcast ([reason] is always
    [PHOTO_SCAN_COMPLETE]). *)
Record ManifestUpdated : Type := mkUpdated {
  previousCount : nat;
  currentCount : nat
}.

(** [photosDatabase], [previousPhotoCount] and the broadcasts made so
    far. *)
Record ScanState : Type := mkScanState {
  photosDatabase : list PhotoRecord;
  previousPhotoCount : nat;
  broadcasts : list ManifestUpdated
}.

(** [tree p] is [None] when [fs.existsSync(p)] is false and the answer
    of [readdir(p)] otherwise; [wsReady] tells whether [wsServerInstance]
    is set. *)
Definition scanPhotos (storeFile : Paths.StoreFile)
  (tree : string -> option (Result (list FsNode))) (wsReady : bool)
  (st : ScanState) : ScanState :=
  let enabledPaths := Paths.getEnabledPaths storeFile in
  if Nat.eqb (length enabledPaths) 0 then
    mkScanState [] (previousPhotoCount st) (broadcasts st)
  else
    let database :=
      fold_left
        (fun database pathConfig =>
           match tree (Paths.path pathConfig) with
           | None => database
           | Some listing =>
               (scanDirectoryRecursive (Paths.path pathConfig) listing database
                                       None).2
           end)
        enabledPaths [] in
    let currentPhotoCount := length database in
    let manifestChanged :=
      negb (Nat.eqb currentPhotoCount (previousPhotoCount st)) in
    mkScanState database currentPhotoCount
      (broadcasts st ++
         if manifestChanged && wsReady then
           [mkUpdated (previousPhotoCount st) currentPhotoCount]
         else []).

End WithPaths.

End Scan.

(** ** Further methods of [PhotoDatabase] (src/server.js) *)

Module Library.
Import Catalog.

Definition getCount (database : list PhotoRecord) : nat := length database.

(** [this.database.some(p => p.id === id)] *)
Definition hasPhoto (database : list PhotoRecord) (pid : string) : bool :=
  existsb (fun p => String.eqb (id p) pid) database.

Section WithHash.
Variable md5 : string -> string.

(** The folder id of a photo, as [getPhotosInFolder] computes it. *)
Definition photoFolderId (photo : PhotoRecord) : string :=
  String.substring 0 16 (md5 (Folders.photoKey photo)).

(** [getPhotosInFolder(folderId, recursive)]; the route
    [GET /api/folders/:folderId] runs the same code with
    [recursive = (req.query.recursive === 'true')]. *)
Definition getPhotosInFolder (database : list PhotoRecord) (folderId : string)
  (recursive : bool) : list PhotoRecord :=
  if String.eqb folderId "all" then database
  else
    List.filter
      (fun photo =>
         if recursive then
           String.eqb (photoFolderId photo) folderId
           || String.prefix folderId (photoFolderId photo)
         else String.eqb (photoFolderId photo) folderId)
      database.

(** Every folder object carries the id made of its key. *)
Definition idKeyed (m : Folders.FolderMap) : Prop :=
  forall k x, (k, x) ∈ m -> Folders.fid x = String.substring 0 16 (md5 k).

End WithHash.

End Library.

(** ** The HTTP routes of src/server.js *)

Module Http.
Import Js Catalog Wire Cache Worker.

Inductive Body : Type :=
| JsonBody (value : JsValue)
| BytesBody (buffer : bytes)
| FileStream (path : string).

(** A response: the status, the headers that the route sets itself and
    the body. *)
Record Response : Type := mkResponse {
  status : nat;
  headers : list (string * string);
  body : Body
}.

Definition jsonError (code : nat) (message : string) : Response :=
  mkResponse code [] (JsonBody (JObj [("error", JStr message)]%string)).

(** The double quote character. *)
Definition quote : string := String (Ascii.ascii_of_N 34) EmptyString.

(** [parseInt(text) || fallback]; [parsed] is what [parseInt] gives,
    [None] for [NaN]. *)
Definition orDefault (parsed : option Z) (fallback : Z) : Z :=
  match parsed with
  | Some z => if Z.eqb z 0 then fallback else z
  | None => fallback
  end.

(** [Math.max(...photosDatabase.map(p => p.modified))], or the clock
    for an empty catalog. *)
Definition lastModifiedOf (now : Z) (database : list PhotoRecord) : Z :=
  match map modified database with
  | [] => now
  | first :: rest => fold_left Z.max rest first
  end.

(** [GET /health] *)
Definition health (now : Z) (database : list PhotoRecord) : Response :=
  mkResponse 200 []
    (JsonBody (JObj [ ("status", JStr "ok");
                      ("photoCount", JNum (Z.of_nat (length database)));
                      ("timestamp", JNum (lastModifiedOf now database)) ]%string)).

Definition noCache : list (string * string) :=
  [ ("Cache-Control", "no-cache, no-store, must-revalidate");
    ("Pragma", "no-cache"); ("Expires", "0") ]%string.

(** The content type of [GET /api/photo/:id/original]. *)
Definition originalContentType (ext : string) : string :=
  if String.eqb ext ".png" then "image/png"
  else if String.eqb ext ".gif" then "image/gif"
  else if String.eqb ext ".webp" then "image/webp"
  else "image/jpeg".

(** [fs.readdir], then [fs.unlink] file by file; the first failure ends
    the loop. *)
Fixpoint unlinkAll (directory : string) (unlinkOk : string -> bool)
  (files : list string) (disk : gmap string bytes) : gmap string bytes :=
  match files with
  | [] => disk
  | file :: rest =>
      let filePath := directory +:+ "/" +:+ file in
      if unlinkOk filePath then
        unlinkAll directory unlinkOk rest (delete filePath disk)
      else disk
  end.

(** What [clearDiskCache] finds: whether the cache directory exists, the
    answer of [readdir] and whether a file can be unlinked. *)
Record CacheDir : Type := mkCacheDir {
  present : bool;
  listing : Result (list string);
  unlinkOk : string -> bool
}.

Definition clearDiskCache (env : Env) (dir : CacheDir) (c : CacheState)
  : CacheState :=
  if present dir then
    match listing dir with
    | Ok files =>
        mkCache (mem c)
                (unlinkAll (cacheDirectory env) (unlinkOk dir) files (disk c))
                (ops c)
    | Err _ => c
    end
  else c.

Section WithHash.
(** [md5] hashes a buffer, [md5Text] a string. *)
Variable md5 : bytes -> string.
Variable md5Text : string -> string.

Definition calculateDirectoryHash (database : list PhotoRecord) : string :=
  md5Text (Manifest.join_empty (Manifest.js_sort (map id database))).

(** [GET /api/sync-status] *)
Definition syncStatus (now : Z) (database : list PhotoRecord) : Response :=
  mkResponse 200 []
    (JsonBody
       (JObj [ ("photoCount", JNum (Z.of_nat (length database)));
               ("lastModified", JNum (lastModifiedOf now database));
               ("directoryHash", JStr (calculateDirectoryHash database)) ]%string)).

(** [GET /api/photo/:id]; [quality] and [maxDimension] are what
    [parseInt] makes of the query parameters. *)
Definition getCompressedPhoto (env : Env) (pid : string)
  (quality maxDimension : option Z) (w : World) : Response * World :=
  let quality := orDefault quality 50 in
  let maxDimension := orDefault maxDimension 1920 in
  if (quality <? 1) || (100 <? quality) then
    (jsonError 400 "Quality must be between 1 and 100", w)
  else if (maxDimension <? 1) || (10000 <? maxDimension) then
    (jsonError 400 "maxDimension must be between 1 and 10000", w)
  else
    match List.find (fun p => String.eqb (id p) pid) (database w) with
    | None => (jsonError 404 "Photo not found", w)
    | Some photo =>
        if negb (sourceExists env (path photo)) then
          (jsonError 404 "Photo file not found on disk", w)
        else
          let '(compressed, cache') :=
            compressImage env (cacheState w) (path photo) quality maxDimension
                          pid in
          let w := mkWorld (database w) cache' (emitted w) in
          match compressed with
          | Err _ => (jsonError 500 "Compression failed", w)
          | Ok buffer =>
              let etag := md5 buffer in
              (mkResponse 200
                 ([ ("Content-Type", "image/jpeg");
                    ("ETag", quote +:+ etag +:+ quote) ]%string
                  ++ noCache
                  ++ [ ("Content-Length", pretty (length buffer)) ]%string)
                 (BytesBody buffer),
               w)
          end
    end.

(** [GET /api/photo/:id/original]; [statSize] is the [size] that
    [fs.stat] reports. *)
Definition getOriginalPhoto (env : Env) (statSize : string -> Result Z)
  (pid : string) (database : list PhotoRecord) : Response :=
  match List.find (fun p => String.eqb (id p) pid) database with
  | None => jsonError 404 "Photo not found"
  | Some photo =>
      if negb (sourceExists env (path photo)) then
        jsonError 404 "Photo file not found on disk"
      else
        match statSize (path photo) with
        | Err _ => jsonError 500 "Failed to read photo"
        | Ok size =>
            mkResponse 200
              ([ ("Content-Type", originalContentType (extname env (path photo)));
                 ("Content-Length", pretty size) ]%string ++ noCache)
              (FileStream (path photo))
        end
  end.

End WithHash.

Section WithPaths.
Variable md5Text : string -> string.
Variable extnameLower : string -> string.
Variable pathJoin : string -> string -> string.
Variable relative : string -> string -> string.
Variable pathSep : Ascii.ascii.

(** [POST /api/rescan]: both tiers of the rendition cache are cleared,
    then the directories are scanned again. *)
Definition rescan (env : Env) (dir : CacheDir) (storeFile : Paths.StoreFile)
  (tree : string -> option (Result (list Scan.FsNode))) (wsReady : bool)
  (w : World) (st : Scan.ScanState) : Response * World * Scan.ScanState :=
  let c := mkCache ∅ (disk (cacheState w)) (ops (cacheState w)) in
  let c := clearDiskCache env dir c in
  let st :=
    Scan.scanPhotos md5Text extnameLower pathJoin relative pathSep storeFile
                    tree wsReady st in
  (mkResponse 200 []
     (JsonBody
        (JObj [ ("success", JBool true);
                ("photoCount",
                 JNum (Z.of_nat (length (Scan.photosDatabase st))));
                ("message", JStr "Photos rescanned successfully") ]%string)),
   mkWorld (Scan.photosDatabase st) c (emitted w), st).

End WithPaths.

End Http.

(** ** Original photos over the Streaming transport
    ([SocketIOServer.handleOriginalBatchRequest]) *)

Module Originals.
Import Js Catalog Wire Cache Worker.

(** What a socket receives during a batch of originals: the photo
    events of [Wire.Event] and the two events that only this handler
    emits. *)
Inductive SocketEvent : Type :=
| Photo (e : Event)
| OriginalsStarted (found notFound : nat) (totalSize : Z) (estimatedTime : Z)
| BatchProgress (completed total : nat).

(** The first loop of the handler: ids of the catalog, the other ids,
    and the sizes added up. *)
Definition partitionIds (database : list PhotoRecord) (photoIds : list string)
  : list string * list string * Z :=
  fold_left
    (fun acc photoId =>
       let '(foundIds, notFoundIds, totalSize) := acc in
       match getPhoto database photoId with
       | Some photo => (foundIds ++ [photoId], notFoundIds, totalSize + size photo)
       | None => (foundIds, notFoundIds ++ [photoId], totalSize)
       end)
    photoIds ([], [], 0).

(** The photo events that the worker sent to the socket between two
    states of the world. *)
Definition received (socketId : string) (before after : World)
  : list SocketEvent :=
  map Photo (drop (length (eventsOf socketId before)) (eventsOf socketId after)).

(** [if (completedCount % 10 === 0 || completedCount === foundIds.length)] *)
Definition progressAt (completedCount total : nat) : list SocketEvent :=
  if Nat.eqb (completedCount mod 10) 0 || Nat.eqb completedCount total then
    [BatchProgress completedCount total]
  else [].

Definition notFoundError (photoId : string) : Event :=
  PhotoError photoId "PHOTO_NOT_FOUND" "Photo not found in database".

Section WithHash.
Variable md5 : bytes -> string.

(** The job object of an original has no [quality] and no
    [maxDimension]; [processOriginalPhoto] reads neither. *)
Definition originalJob (photoId socketId : string) : Job :=
  mkJob "original" photoId 0 0 socketId.

(** The second loop, over [foundIds]; [log] is what the socket has
    received since the request. *)
Fixpoint originalsLoop (env : Env) (socketId : string) (total : nat)
  (foundIds : list string) (completedCount : nat)
  (st : WorkerState * World) (log : list SocketEvent)
  : (WorkerState * World) * list SocketEvent :=
  match foundIds with
  | [] => (st, log)
  | photoId :: rest =>
      let r := awaitJob md5 env (originalJob photoId socketId) st in
      let log := log ++ received socketId st.2 r.2.2 in
      match r.1 with
      | Ok _ =>
          let completedCount := S completedCount in
          originalsLoop env socketId total rest completedCount r.2
                        (log ++ progressAt completedCount total)
      | Err message =>
          let e := PhotoError photoId "PROCESSING_FAILED" message in
          originalsLoop env socketId total rest completedCount
                        (r.2.1, emitTo socketId e r.2.2) (log ++ [Photo e])
      end
  end.

(** [photoIds] is [None] when the request's field is not an array.  The
    result is what [ack] receives ([None] when the client passed no
    [ack]), the state left behind and what the socket received. *)
Definition handleOriginalBatchRequest (env : Env) (socketId : string)
  (photoIds : option (list string)) (ack : bool) (st : WorkerState * World)
  : option Ack * (WorkerState * World) * list SocketEvent :=
  let answer (a : Ack) := if ack then Some a else None in
  match photoIds with
  | None | Some [] =>
      (answer (AckError "INVALID_REQUEST" "photoIds must be non-empty array"),
       st, [])
  | Some photoIds =>
      if Nat.ltb MAX_BATCH_SIZE (length photoIds) then
        (answer (AckError "BATCH_TOO_LARGE"
                   ("Maximum batch size is " +:+ pretty MAX_BATCH_SIZE)),
         st, [])
      else
        let '(foundIds, notFoundIds, totalSize) :=
          partitionIds (database st.2) photoIds in
        let log :=
          [OriginalsStarted (length foundIds) (length notFoundIds) totalSize
                            (Auth.ceil_div totalSize (1024 * 1024))] in
        let r := originalsLoop env socketId (length foundIds) foundIds 0 st log in
        let w :=
          fold_left (fun w photoId => emitTo socketId (notFoundError photoId) w)
                    notFoundIds r.1.2 in
        (answer AckSuccess, (r.1.1, w),
         r.2 ++ map (fun photoId => Photo (notFoundError photoId)) notFoundIds)
  end.

(** What [processOriginalPhoto] makes of an id: the catalog record and
    the bytes of its file, or the message of the error it throws. *)
Definition originalOutcome (env : Env) (database : list PhotoRecord)
  (photoId : string) : Result (PhotoRecord * bytes) :=
  match getPhoto database photoId with
  | None => Err ("Photo not found in database: " +:+ photoId)
  | Some photo =>
      if negb (sourceExists env (path photo)) then
        Err ("Photo file not found on disk: " +:+ path photo)
      else
        match readSource env (path photo) with
        | Ok fullBuffer => Ok (photo, fullBuffer)
        | Err e => Err e
        end
  end.

(** The two events of a delivered original. *)
Definition delivery (env : Env) (photoId : string) (photo : PhotoRecord)
  (fullBuffer : bytes) : list Event :=
  [PhotoData photoId fullBuffer (length fullBuffer) (md5 fullBuffer)
             (mimeTypeOf (extname env (path photo)));
   PhotoComplete photoId (length fullBuffer) (md5 fullBuffer)].

(** What the second loop sends for the ids it is given, from a count of
    [completed] photos on, and the count it ends with. *)
Inductive loopTrace (env : Env) (database : list PhotoRecord) (total : nat)
  : nat -> list string -> list SocketEvent -> nat -> Prop :=
| trace_done completed : loopTrace env database total completed [] [] completed
| trace_sent completed photoId rest photo fullBuffer tail final :
    originalOutcome env database photoId = Ok (photo, fullBuffer) ->
    loopTrace env database total (S completed) rest tail final ->
    loopTrace env database total completed (photoId :: rest)
      (map Photo (delivery env photoId photo fullBuffer)
       ++ progressAt (S completed) total ++ tail) final
| trace_failed completed photoId rest message tail final :
    originalOutcome env database photoId = Err message ->
    loopTrace env database total completed rest tail final ->
    loopTrace env database total completed (photoId :: rest)
      (Photo (PhotoError photoId "PROCESSING_FAILED" message) :: tail) final.

End WithHash.

Definition isProcessingFailed (e : SocketEvent) : bool :=
  match e with
  | Photo (PhotoError _ code _) => String.eqb code "PROCESSING_FAILED"
  | _ => false
  end.

End Originals.

(** ** Messages from a peer ([WebRTCManager.handlePeerMessage]) *)

Module Peer.
Import Js Catalog Wire Cache P2P.

(** What the handler does with a message. *)
Inductive Reaction : Type :=
| SendManifest
| SendPhoto (photoId quality maxDimension : JsValue)
| Reply (message : JsValue)
| Ignore.

(** [data] is what [JSON.parse(data.toString())] gives, [None] when it
    throws.  Reading [type] of [null] throws as well; both errors are
    caught and logged.  A [pong] is only measured. *)
Definition handlePeerMessage (data : option JsValue) : Reaction :=
  match data with
  | None | Some JNull => Ignore
  | Some message =>
      match get message "type" with
      | JStr type =>
          if String.eqb type "request-manifest" then SendManifest
          else if String.eqb type "request-photo" then
            SendPhoto (get message "photoId") (get message "quality")
                      (get message "maxDimension")
          else if String.eqb type "ping" then
            Reply (JObj [ ("type", JStr "pong");
                          ("timestamp", get message "timestamp") ]%string)
          else Ignore
      | _ => Ignore
      end
  end.

(** The heartbeat ping of [startPeerHeartbeat]. *)
Definition ping (now : Z) : JsValue :=
  JObj [ ("type", JStr "ping"); ("timestamp", JNum now) ]%string.

(** [getMimeType], on the lower case extension of the path. *)
Definition getMimeType (ext : string) : string :=
  if String.eqb ext ".jpg" then "image/jpeg"
  else if String.eqb ext ".jpeg" then "image/jpeg"
  else if String.eqb ext ".png" then "image/png"
  else if String.eqb ext ".gif" then "image/gif"
  else if String.eqb ext ".webp" then "image/webp"
  else if String.eqb ext ".bmp" then "image/bmp"
  else if String.eqb ext ".heic" then "image/heic"
  else if String.eqb ext ".heif" then "image/heif"
  else "application/octet-stream".

(** The binary chunks of a transcript. *)
Definition chunksOf (out : list WireMsg) : list bytes :=
  omap (fun m => match m with Binary c => Some c | Json _ => None end) out.

(** The buffer that [sendPhoto] sets out to send: the JPEG of the image
    pipeline, or the file as it is when the pipeline fails. *)
Definition photoBufferOf (env : PeerEnv) (photo : PhotoRecord)
  (quality maxDimension : option Z) : Result bytes :=
  let quality := from_option (fun q => q) 60 quality in
  let maxDimension := from_option (fun d => d) 1920 maxDimension in
  match sharpJpeg env (path photo) maxDimension quality
                  (String.eqb (extnameLower env (path photo)) ".png") with
  | Ok buffer =>
      match statSync env (path photo) with
      | Ok _ => Ok buffer
      | Err _ => readFileSync env (path photo)
      end
  | Err _ => readFileSync env (path photo)
  end.

End Peer.

(** ** The status of the worker ([PhotoWorker.getStatus]) *)

Module Status.

Record Status : Type := mkStatus {
  busy : bool;
  queueLength : nat
}.

Definition getStatus (w : Worker.WorkerState) : Status :=
  mkStatus (Worker.busy w) (length (Worker.queue w)).

End Status.

(** ** Handshakes from several addresses *)

Module Limiter.
Import Auth.

(** The outcomes of a run of handshakes, each with its source address
    and clock reading. *)
Fixpoint runChecks (attempts : list (string * Z))
  (authAttempts : gmap string Attempts) : list (string * RateCheck) :=
  match attempts with
  | [] => []
  | (addr, now) :: rest =>
      let '(r, authAttempts') := checkRateLimit addr now authAttempts in
      (addr, r) :: runChecks rest authAttempts'
  end.

(** What concerns one address in a list tagged with addresses. *)
Definition forAddress {A} (addr : string) (l : list (string * A)) : list A :=
  omap (fun p => if String.eqb p.1 addr then Some p.2 else None) l.

End Limiter.

(** ** Further sample data *)

Module Fixtures.
Import Js Wire.

(** A source of randomness that answers with zero bytes. *)
Definition zeros (n : nat) : bytes := replicate n Byte.x00.

Definition noMetadata : Admin.Metadata := Admin.mkMetadata None None None None.

Definition phoneToken : Admin.ManagedToken :=
  Admin.mkManaged Samples.tokenValue "Phone" "dev-1" "user-1" "u@example.org"
                  1000 None 9000000 true 0 None None.

(** An active token that expired at time 5000. *)
Definition staleToken : Admin.ManagedToken :=
  Admin.mkManaged (Samples.hex16 +:+ Samples.hex16 +:+ Samples.hex16
                   +:+ "0123456789abcdee")
                  "Tablet" "dev-2" "user-1" "u@example.org"
                  1000 None 5000 true 0 None None.

Definition phoneStore : Admin.State :=
  Admin.start 1000 true [staleToken; phoneToken] None.

(** A file system where every path is a directory. *)
Definition anyDir : Paths.Disk := Paths.mkDisk (fun p => p) (fun _ => Some true).

Definition photosDir : Paths.PhotoPath := Paths.mkPath "path_1_a" "/photos" true 1.

Definition tripDir : Paths.PhotoPath := Paths.mkPath "path_2_b" "/trip" false 2.

Definition pathStore : Paths.StoreFile := Some [photosDir; tripDir].

(** The last four characters of a name, for names with a three letter
    extension. *)
Definition extOf (name : string) : string :=
  String.substring (String.length name - 4) 4 name.

Definition joinPath (a b : string) : string := a +:+ "/" +:+ b.

(** The part of [dir] below [root], for a [dir] below [root]. *)
Definition below (root dir : string) : string :=
  String.substring (S (String.length root))
                   (String.length dir - S (String.length root)) dir.

(** A directory with a photo, a subdirectory and a symbolic link; in
    the subdirectory one photo that the image library cannot read, one
    that cannot be examined and a text file. *)
Definition photoTree : Cache.Result (list Scan.FsNode) :=
  Cache.Ok
    [Scan.FileNode "a.jpg" (Cache.Ok (10, 1000)) (Cache.Ok (4, 3));
     Scan.DirNode "trip"
       (Cache.Ok
          [Scan.FileNode "b.png" (Cache.Ok (20, 2000)) (Cache.Err "corrupt");
           Scan.FileNode "c.jpg" (Cache.Err "EACCES") (Cache.Ok (1, 1));
           Scan.FileNode "notes.txt" (Cache.Ok (5, 3000)) (Cache.Err "no image")]);
     Scan.OtherNode "link"].

Definition photosOnly (p : string) : option (Cache.Result (list Scan.FsNode)) :=
  if String.eqb p "/photos" then Some photoTree else None.

(** A cache directory with one file that can be unlinked. *)
Definition oneFileDir : Http.CacheDir :=
  Http.mkCacheDir true (Cache.Ok ["b1_50_1920.jpg"%string]) (fun _ => true).

(** A world whose disk tier holds one rendition, of a single byte. *)
Definition staleWorld : Worker.World :=
  Worker.mkWorld [Samples.photoA; Samples.photoB]
    (Cache.mkCache {[ "b1_50_1920"%string := [Byte.x07] ]}
                   {[ "/app/.cache/b1_50_1920.jpg"%string := [Byte.x07] ]} [])
    [].

(** A hash that answers thirty-two characters whatever it is given. *)
Definition flatHash (s : string) : string := Samples.hex16 +:+ Samples.hex16.

(** An environment where only the file of [photoA] is on the disk. *)
Definition oneFileEnv : Cache.Env :=
  Cache.mkEnv "/app/.cache"
    (fun _ _ _ => Cache.Ok [Byte.xff; Byte.xd8; Byte.x01])
    (fun _ => Cache.Ok tt) (fun p => String.eqb p "/lib/a.jpg")
    (fun _ => Cache.Ok [Byte.x89; Byte.x50]) (fun _ => ".png"%string).

End Fixtures.

(** * Properties *)

(** ** Manifests *)

Section ManifestFacts.
Import Js Catalog Manifest.

Lemma ascii_compare_refl (c : Ascii.ascii) : Ascii.compare c c = Eq.
Proof. unfold Ascii.compare. apply N.compare_refl. Qed.

Lemma ascii_compare_lt_trans (a b c : Ascii.ascii) :
  Ascii.compare a b = Lt -> Ascii.compare b c = Lt -> Ascii.compare a c = Lt.
Proof.
  unfold Ascii.compare. rewrite !N.compare_lt_iff. apply N.lt_trans.
Qed.

Lemma string_compare_lt_trans (a : string) :
  forall b c, String.compare a b = Lt -> String.compare b c = Lt ->
              String.compare a c = Lt.
Proof.
  induction a as [|x a IH]; intros [|y b] [|z c]; simpl; try congruence.
  destruct (Ascii.compare x y) eqn:Hxy; try discriminate;
    destruct (Ascii.compare y z) eqn:Hyz; try discriminate; intros Hab Hbc.
  - apply Ascii.compare_eq_iff in Hxy, Hyz. subst.
    rewrite ascii_compare_refl. eauto.
  - apply Ascii.compare_eq_iff in Hxy. subst. now rewrite Hyz.
  - apply Ascii.compare_eq_iff in Hyz. subst. now rewrite Hxy.
  - now rewrite (ascii_compare_lt_trans _ _ _ Hxy Hyz).
Qed.

Lemma string_compare_refl (a : string) : String.compare a a = Eq.
Proof.
  induction a as [|x a IH]; simpl; [easy|]. now rewrite ascii_compare_refl.
Qed.

#[local] Instance str_le_trans : Transitive str_le.
Proof.
  intros a b c. unfold str_le, String.leb.
  destruct (String.compare a b) eqn:Hab; try discriminate;
    destruct (String.compare b c) eqn:Hbc; try discriminate; intros _ _.
  - apply String.compare_eq_iff in Hab, Hbc. subst.
    now rewrite string_compare_refl.
  - apply String.compare_eq_iff in Hab. subst. now rewrite Hbc.
  - apply String.compare_eq_iff in Hbc. subst. now rewrite Hab.
  - now rewrite (string_compare_lt_trans _ _ _ Hab Hbc).
Qed.

#[local] Instance str_le_total : Total str_le.
Proof. intros a b. apply String.leb_total. Qed.

#[local] Instance str_le_antisym : AntiSymm (=) str_le.
Proof. intros a b. apply String.leb_antisym. Qed.

Lemma js_sort_sorted (l : list string) : Sorted str_le (js_sort l).
Proof. apply Sorted_merge_sort, _. Qed.

Lemma js_sort_perm (l : list string) : js_sort l ≡ₚ l.
Proof. apply merge_sort_Permutation. Qed.

(** Sorting forgets the order in which the catalog lists its photos. *)
Lemma js_sort_stable (l1 l2 : list string) :
  l1 ≡ₚ l2 -> js_sort l1 = js_sort l2.
Proof.
  intros Hp. apply (Sorted_unique str_le); try apply js_sort_sorted.
  now rewrite !js_sort_perm.
Qed.

End ManifestFacts.

Section ManifestContract.
Import Js Catalog Manifest.
Variable md5 : string -> string.

Lemma streamEntry_fields (photo : PhotoRecord) :
  carries_exactly (streamEntry photo) publicFields.
Proof.
  intros k. unfold has_field, streamEntry, publicFields. simpl.
  repeat match goal with
         | |- context [String.eqb k ?s] =>
             destruct (String.eqb_spec k s) as [->|?];
             [split; [intros _; set_solver | reflexivity]|]
         end.
  split; [discriminate|]. rewrite !elem_of_cons, elem_of_nil. tauto.
Qed.

Lemma streamEntry_reports (photo : PhotoRecord) :
  reports (streamEntry photo) photo /\
  get (streamEntry photo) "filename" = JStr (filename photo).
Proof. now repeat split. Qed.

Lemma p2pEntry_reports (photo : PhotoRecord) :
  reports (p2pEntry photo) photo.
Proof. now repeat split. Qed.

Lemma Forall2_map_self {A B} (P : B -> A -> Prop) (f : A -> B) (l : list A) :
  (forall x, P (f x) x) -> Forall2 P (map f l) l.
Proof. intros H. induction l; simpl; constructor; auto. Qed.

Lemma manifestHash_stable (db db' : list PhotoRecord) :
  db ≡ₚ db' -> manifestHash md5 db' = manifestHash md5 db.
Proof.
  intros Hp. unfold manifestHash. f_equal. f_equal.
  apply js_sort_stable. now rewrite Hp.
Qed.

(** C1 (as amended).  The Streaming acknowledgment lists one entry per
    catalog record, in catalog order, each carrying exactly
    id, filename, size, modified, width, height with the record's values
    and no path, and its hash is the MD5 of the catalog ids sorted
    ascending and concatenated, whatever the order of the catalog.  The
    P2P manifest message also lists one entry per record, reporting id,
    size, modified, width and height and no path, but it carries no
    content hash at all. *)
Theorem manifest_contract (db : list PhotoRecord) :
  (exists ack entries sorted,
      handleManifestRequest md5 db true = Some ack /\
      delivered_as_specified md5 db ack /\
      get ack "photos" = JArr entries /\
      Forall2 (fun e p => reports e p /\
                          get e "filename" = JStr (filename p)) entries db /\
      get ack "count" = JNum (Z.of_nat (length db)) /\
      get ack "hash" = JStr (md5 (join_empty sorted)) /\
      Sorted str_le sorted /\ sorted ≡ₚ map id db /\
      forall db', db ≡ₚ db' -> manifestHash md5 db' = manifestHash md5 db) /\
  (exists entries,
      get (sendManifest db) "photos" = JArr entries /\
      Forall2 reports entries db /\
      get (sendManifest db) "count" = JNum (Z.of_nat (length db)) /\
      has_field (sendManifest db) "hash" = false).
Proof.
  split.
  - exists (JObj [ ("count", JNum (Z.of_nat (length (map streamEntry db))));
                   ("hash", JStr (manifestHash md5 db));
                   ("photos", JArr (map streamEntry db)) ]%string),
      (map streamEntry db), (js_sort (map id db)).
    repeat split.
    + exists (map streamEntry db). repeat split.
      apply Forall2_map_self. intros p. apply streamEntry_fields.
    + apply Forall2_map_self. intros p. apply streamEntry_reports.
    + simpl. now rewrite length_map.
    + apply js_sort_sorted.
    + apply js_sort_perm.
    + apply manifestHash_stable.
  - exists (map p2pEntry db). repeat split.
    + apply Forall2_map_self. intros p. apply p2pEntry_reports.
    + simpl. now rewrite length_map.
Qed.

End ManifestContract.

(** C1, counterexample: on a one-photo catalog the P2P manifest is not
    what the claim describes (its entry has no filename and the message
    has no hash). *)
Lemma manifest_p2p_counterexample :
  ~ Manifest.delivered_as_specified (fun s => s) [Samples.photoA]
      (Manifest.sendManifest [Samples.photoA]).
Proof.
  intros (entries & Hphotos & Hall & Hhash). simpl in Hhash. discriminate.
Qed.

Lemma manifest_contract_witness :
  Manifest.manifestHash (fun s => s) [Samples.photoB; Samples.photoA]
    = "a7b1"%string /\
  Manifest.manifestHash (fun s => s) [Samples.photoA; Samples.photoB]
    = "a7b1"%string.
Proof.
  destruct (manifest_contract (fun s => s) [Samples.photoA; Samples.photoB])
    as [(ack & entries & sorted & _ & _ & _ & _ & _ & _ & _ & _ & Hstable) _].
  split.
  - rewrite (Hstable [Samples.photoB; Samples.photoA]); [reflexivity|].
    apply Permutation_swap.
  - reflexivity.
Defined.

(** ** Authentication *)

Section Handshake.
Import Js Tokens Wire Auth.

(** The middleware's two format tests accept exactly the well formed
    credentials, and those pass the format tests of [validateToken]. *)
Lemma format_gate (tok : JsValue) :
  falsy tok || negb (is_string tok)
  || negb (Nat.eqb (String.length (str_of tok)) 64)
  || negb (isHexWord (str_of tok)) = negb (well_formed tok).
Proof.
  destruct tok as [| | b | z | s | l | f]; try reflexivity; simpl.
  - now destruct b.
  - now destruct (Z.eqb z 0).
  - unfold isHexWord. destruct s as [|c s]; [reflexivity|]. simpl.
    now destruct (Nat.eqb _ _), (isHexChar c && allHex s).
Qed.

Lemma gate_split (a b : bool) {A} (x y : A) :
  (if a then x else if b then x else y) = if a || b then x else y.
Proof. now destruct a, b. Qed.

(** With the rate limiter out of the way the middleware is the format
    gate followed by [validateToken]. *)
Lemma middleware_allowed hs file now srv socket attempts' :
  checkRateLimit (address hs) now (authAttempts srv) = (Allowed, attempts') ->
  authMiddleware hs file now srv socket =
    if negb (well_formed (authTokenField hs)) then
      (socket, Some "INVALID_TOKEN"%string, attempts', manager srv)
    else
      match validateToken (authTokenField hs) file now (manager srv) with
      | (Invalid reason, manager') => (socket, Some reason, attempts', manager')
      | (Valid t, manager') =>
          (mkSocket (sid socket) (Some (sessionFor hs t now)) (rooms socket)
                    (handlers socket) (transcript socket),
           None, attempts', manager')
      end.
Proof.
  intros Hrate. unfold authMiddleware. rewrite Hrate.
  rewrite gate_split, format_gate.
  destruct (negb (well_formed (authTokenField hs))); [reflexivity|].
  now destruct (validateToken _ _ _ _) as [[reason|t] m'].
Qed.

(** On a well formed credential [validateToken] ranks the remaining
    reasons as the specification does. *)
Lemma validate_ranked tok file now m :
  well_formed tok = true ->
  validateToken tok file now m =
    (match spec_rejection tok (readTokens file now m).1 now with
     | Some r => Invalid (reasonCode r)
     | None =>
         match findToken (readTokens file now m).1 (str_of tok) with
         | Some t => Valid t
         | None => Invalid "TOKEN_NOT_FOUND"
         end
     end, (readTokens file now m).2).
Proof.
  intros Hwf. unfold validateToken, spec_rejection. rewrite Hwf. simpl.
  pose proof (format_gate tok) as Hgate. rewrite Hwf in Hgate. simpl in Hgate.
  apply orb_false_iff in Hgate as [Hgate _].
  apply orb_false_iff in Hgate as [Hgate _]. rewrite Hgate.
  assert (isHex64 (str_of tok) = true) as ->.
  { destruct tok; try discriminate. exact Hwf. }
  simpl. destruct (readTokens file now m) as [tokens m']. simpl.
  destruct (findToken tokens (str_of tok)) as [t|]; [|reflexivity].
  destruct (active t); simpl; [|reflexivity].
  now destruct (expiresAt t <? now).
Qed.

(** C2.  A handshake that the rate limiter lets through is rejected for
    the first applicable reason in the order InvalidFormat,
    TokenNotFound, TokenRevoked, TokenExpired; a malformed credential is
    rejected without reading the token store; and a rejected handshake
    (for any reason, rate limiting included) leaves the socket without
    session data and out of the server's connected sockets, so no
    handler is ever registered for it. *)
Theorem handshake_rejection_priority :
  (forall hs file now srv socket attempts',
      checkRateLimit (address hs) now (authAttempts srv)
        = (Allowed, attempts') ->
      let verdict :=
        spec_rejection (authTokenField hs)
                       (readTokens file now (manager srv)).1 now in
      let r := authMiddleware hs file now srv socket in
      r.1.1.2 = reasonCode <$> verdict /\
      (verdict = Some InvalidFormat ->
         r.2 = manager srv /\
         forall file', authMiddleware hs file' now srv socket = r)) /\
  (forall hs file now newId srv msg,
      (connect hs file now newId srv).2 = Some msg ->
      sockets (connect hs file now newId srv).1 = sockets srv /\
      forall socket,
        (authMiddleware hs file now srv socket).1.1.1 = socket).
Proof.
  split.
  - intros hs file now srv socket attempts' Hrate verdict r.
    subst verdict r. rewrite (middleware_allowed _ _ _ _ _ _ Hrate).
    destruct (well_formed (authTokenField hs)) eqn:Hwf; simpl.
    + rewrite (validate_ranked _ _ _ _ Hwf).
      unfold spec_rejection at 2 3. rewrite Hwf. simpl.
      split.
      * unfold spec_rejection. rewrite Hwf. simpl.
        destruct (findToken _ _) as [t|]; [|reflexivity].
        destruct (active t); simpl; [|reflexivity].
        now destruct (expiresAt t <? now).
      * destruct (findToken _ _) as [t|]; [|discriminate].
        destruct (active t); simpl; [|discriminate].
        now destruct (expiresAt t <? now).
    + unfold spec_rejection. rewrite Hwf. simpl. split; [reflexivity|].
      intros _. split; [reflexivity|]. intros file'.
      rewrite (middleware_allowed _ _ _ _ _ _ Hrate). now rewrite Hwf.
  - intros hs file now newId srv msg. unfold connect.
    assert (forall socket,
               (authMiddleware hs file now srv socket).1.1.2 <> None ->
               (authMiddleware hs file now srv socket).1.1.1 = socket)
      as Hkeep.
    { intros socket. unfold authMiddleware.
      destruct (checkRateLimit _ _ _) as [[|retry] attempts']; [|reflexivity].
      rewrite gate_split.
      destruct (_ || _); [reflexivity|].
      destruct (validateToken _ _ _ _) as [[reason|t] m']; [reflexivity|].
      simpl. congruence. }
    destruct (authMiddleware hs file now srv (mkSocket newId None [] [] []))
      as [[[socket' err] attempts'] manager'] eqn:Hmw.
    destruct err as [e|]; simpl; [|discriminate].
    intros _. split; [reflexivity|].
    intros socket. apply Hkeep.
    (* the outcome of the middleware does not depend on the socket *)
    revert Hmw. unfold authMiddleware.
    destruct (checkRateLimit _ _ _) as [[|retry] a']; [|discriminate].
    rewrite !gate_split.
    destruct (_ || _); [discriminate|].
    destruct (validateToken _ _ _ _) as [[reason|t] m']; [discriminate|].
    simpl. congruence.
Qed.

End Handshake.

Lemma handshake_rejection_priority_witness :
  (Auth.authMiddleware Samples.handshake (Some [Samples.revokedToken]) 6000
     Samples.emptyServer Samples.freshSocket).1.1.2 = Some "TOKEN_REVOKED"%string.
Proof.
  assert (Auth.checkRateLimit (Auth.address Samples.handshake) 6000
            (Auth.authAttempts Samples.emptyServer)
          = (Auth.Allowed, (Auth.checkRateLimit "10.0.0.7" 6000 ∅).2))
    as Hrate by reflexivity.
  destruct (proj1 handshake_rejection_priority Samples.handshake
              (Some [Samples.revokedToken]) 6000 Samples.emptyServer
              Samples.freshSocket _ Hrate)
    as [Herr _].
  rewrite Herr. reflexivity.
Defined.

(** ** Rate limiting *)

Section RateLimit.
Import Js Tokens Wire Auth.

Lemma ceil_div_pos (a : Z) : 0 < a -> 0 < ceil_div a 1000.
Proof.
  intros Ha. unfold ceil_div.
  assert (- a / 1000 < 0) by (apply Z.div_lt_upper_bound; lia). lia.
Qed.

(** [ceil_div a 1000] is the least number of whole thousands that
    covers [a]. *)
Lemma ceil_div_bounds (a : Z) :
  1000 * (ceil_div a 1000 - 1) < a <= 1000 * ceil_div a 1000.
Proof.
  unfold ceil_div.
  pose proof (Z.div_mod (- a) 1000 ltac:(lia)) as Hdiv.
  pose proof (Z.mod_pos_bound (- a) 1000 ltac:(lia)) as Hmod. lia.
Qed.

(** An attempt made while the address still has an open window. *)
Lemma checkRateLimit_open addr now st a :
  st !! addr = Some a -> now <= resetAt a ->
  checkRateLimit addr now st =
    (if MAX_AUTH_ATTEMPTS <? count a + 1
     then Limited (ceil_div (resetAt a - now) 1000) else Allowed,
     <[addr := mkAttempts (count a + 1) (resetAt a)]> st).
Proof.
  intros Hst Hnow. unfold checkRateLimit. rewrite Hst.
  destruct (Z.ltb_spec (resetAt a) now); [lia|]. simpl.
  now destruct (MAX_AUTH_ATTEMPTS <? count a + 1).
Qed.

(** An attempt that opens a new window. *)
Lemma checkRateLimit_fresh addr now st :
  match st !! addr with Some a => resetAt a < now | None => True end ->
  checkRateLimit addr now st =
    (Allowed, <[addr := mkAttempts 1 (now + AUTH_WINDOW)]> st).
Proof.
  intros Hst. unfold checkRateLimit.
  destruct (st !! addr) as [a|]; [|reflexivity].
  now destruct (Z.ltb_spec (resetAt a) now); [|lia].
Qed.

(** Attempts from one address leave the window of another alone. *)
Lemma checkRateLimit_other addr addr' now (st : gmap string Attempts) :
  addr <> addr' -> (checkRateLimit addr' now st).2 !! addr = st !! addr.
Proof.
  intros Hne. unfold checkRateLimit.
  destruct (MAX_AUTH_ATTEMPTS <? _); simpl; now rewrite lookup_insert_ne.
Qed.

Lemma rateChecks_open addr (times : list Z) :
  forall st a (i : nat) r,
    st !! addr = Some a ->
    Forall (fun now => now < resetAt a) times ->
    rateChecks addr times st !! i = Some r ->
    (count a + 1 + Z.of_nat i <= MAX_AUTH_ATTEMPTS -> r = Allowed) /\
    (MAX_AUTH_ATTEMPTS < count a + 1 + Z.of_nat i ->
       exists k now, times !! i = Some now /\ r = Limited k /\ 0 < k /\
                     k = ceil_div (resetAt a - now) 1000).
Proof.
  induction times as [|now rest IH]; intros st a i r Hst Hall Hi;
    [discriminate|].
  apply Forall_cons in Hall as [Hnow Hrest]. simpl in Hi.
  rewrite (checkRateLimit_open _ _ _ _ Hst) in Hi by lia.
  destruct i as [|i]; simpl in Hi.
  - injection Hi as <-. split; intros Hc.
    + destruct (Z.ltb_spec MAX_AUTH_ATTEMPTS (count a + 1)); [lia|easy].
    + destruct (Z.ltb_spec MAX_AUTH_ATTEMPTS (count a + 1)); [|lia].
      exists (ceil_div (resetAt a - now) 1000), now.
      repeat split. apply ceil_div_pos. lia.
  - destruct (IH (<[addr := mkAttempts (count a + 1) (resetAt a)]> st)
                (mkAttempts (count a + 1) (resetAt a)) i r) as [H1 H2];
      [apply lookup_insert_eq | exact Hrest | exact Hi |].
    simpl in H1, H2. split; intros Hc; [apply H1; lia | apply H2; lia].
Qed.

(** C3 (as amended).  The limiter counts attempts per source address in
    a fixed window that the first attempt opens and that lasts 15
    minutes: of the attempts made before the window's reset time the
    first 10 pass and every later one is rejected with a retry-after
    in seconds that is strictly positive and is the time that remains
    until the reset, in milliseconds, divided by 1000 and rounded up;
    the middleware turns such a rejection into RATE_LIMIT_EXCEEDED with
    that value whatever the credential and without touching the token
    store. *)
Theorem rate_limit_fixed_window :
  (forall addr t0 (times : list Z) st,
      match st !! addr with Some a => resetAt a < t0 | None => True end ->
      Forall (fun now => now < t0 + AUTH_WINDOW) times ->
      forall (i : nat) r,
        rateChecks addr (t0 :: times) st !! i = Some r ->
        ((i < 10)%nat -> r = Allowed) /\
        ((10 <= i)%nat ->
           exists k now,
             (t0 :: times) !! i = Some now /\ r = Limited k /\ 0 < k /\
             k = ceil_div (t0 + AUTH_WINDOW - now) 1000 /\
             1000 * (k - 1) < t0 + AUTH_WINDOW - now <= 1000 * k)) /\
  (forall hs file now srv socket k attempts',
      checkRateLimit (address hs) now (authAttempts srv)
        = (Limited k, attempts') ->
      authMiddleware hs file now srv socket =
        (socket, Some ("RATE_LIMIT_EXCEEDED:" +:+ pretty k), attempts',
         manager srv)).
Proof.
  split.
  - intros addr t0 times st Hfresh Hall i r Hi. simpl in Hi.
    rewrite (checkRateLimit_fresh _ _ _ Hfresh) in Hi.
    destruct i as [|i]; simpl in Hi.
    + injection Hi as <-. split; [easy | lia].
    + destruct (rateChecks_open addr times
                  (<[addr := mkAttempts 1 (t0 + AUTH_WINDOW)]> st)
                  (mkAttempts 1 (t0 + AUTH_WINDOW)) i r) as [H1 H2];
        [apply lookup_insert_eq | exact Hall | exact Hi |].
      unfold MAX_AUTH_ATTEMPTS in *. simpl in H1, H2.
      split; intros Hc; [apply H1; lia|].
      destruct H2 as (k & now & Hnow & Hr & Hk & Hceil); [lia|].
      exists k, now. split; [exact Hnow|]. split; [exact Hr|].
      split; [exact Hk|]. split; [exact Hceil|].
      rewrite Hceil. apply ceil_div_bounds.
  - intros hs file now srv socket k attempts' Hrate.
    unfold authMiddleware. now rewrite Hrate.
Qed.

End RateLimit.

(** C3, counterexample.  The window is not sliding: an attempt at time 0
    opens a window, nine attempts follow at its reset time 900000, and
    ten more one millisecond later start a new window, so nineteen
    attempts within one millisecond all pass.  And the retry-after is
    not always positive: after eleven attempts at time 0, the attempt
    made exactly at the reset time 900000 still counts in that window
    and is rejected with a retry-after of 0. *)
Lemma rate_limit_counterexample :
  Auth.rateChecks "10.0.0.7"
    (0 :: replicate 9 900000 ++ replicate 10 900001) ∅
  = replicate 20 Auth.Allowed /\
  exists r,
    Auth.rateChecks "10.0.0.7" (replicate 11 0 ++ [900000]) ∅ !! 11%nat
      = Some r /\
    r = Auth.Limited 0 /\
    ~ (exists k, r = Auth.Limited k /\ 0 < k).
Proof.
  split; [reflexivity|].
  exists (Auth.Limited 0). split; [reflexivity|]. split; [reflexivity|].
  intros (k & Hk & Hpos). injection Hk as <-. lia.
Qed.

Lemma rate_limit_fixed_window_witness :
  exists k,
    Auth.rateChecks "10.0.0.7" (0 :: replicate 11 5000) ∅ !! 10%nat
      = Some (Auth.Limited k) /\ 0 < k /\ k = 895.
Proof.
  pose proof (proj1 rate_limit_fixed_window "10.0.0.7"%string 0
                (replicate 11 5000) ∅) as Hthm.
  rewrite lookup_empty in Hthm.
  assert (Forall (fun now => now < 0 + Auth.AUTH_WINDOW) (replicate 11 5000))
    as Hall by (repeat constructor).
  assert (Auth.rateChecks "10.0.0.7" (0 :: replicate 11 5000) ∅ !! 10%nat
          = Some (Auth.Limited 895)) as Hr by (vm_compute; reflexivity).
  destruct (Hthm I Hall 10%nat _ Hr) as [_ Hlim].
  destruct (Hlim (le_n 10)) as (k & now & Hnow & Hk & Hpos & Hceil & _).
  exists k. split; [now rewrite Hr, Hk|]. split; [exact Hpos|].
  injection Hnow as <-. rewrite Hceil. reflexivity.
Defined.

(** ** Live revocation *)

Section RevocationSweep.
Import Js Tokens Wire Auth Revocation.

(** The verdict of [validateToken] is a function of the list that
    [readTokens] hands it. *)
Lemma validate_verdict tok file now m store m' :
  readTokens file now m = (store, m') ->
  (validateToken tok file now m).1 = validateAgainst store tok now /\
  ((validateToken tok file now m).2 = m \/
   (validateToken tok file now m).2 = m').
Proof.
  intros Hread. unfold validateAgainst, validateToken.
  destruct (falsy tok || negb (is_string tok)); [now split; [|left]|].
  destruct (negb (isHex64 (str_of tok))); [now split; [|left]|].
  rewrite Hread. unfold readTokens at 1. simpl.
  destruct (findToken store (str_of tok)) as [t|]; [|now split; [|right]].
  destruct (negb (active t)); [now split; [|right]|].
  destruct (expiresAt t <? now); now split; [|right].
Qed.

(** Forcing a refresh makes the manager serve the file, never the stale
    cache, for every later read at the same clock reading. *)
Lemma refresh_settles file now m :
  CACHE_TTL <= now ->
  (refreshCache file now m).1 = storeOf file /\
  readTokens file now (refreshCache file now m).2
    = (storeOf file, (refreshCache file now m).2).
Proof.
  intros Hnow. unfold refreshCache, readTokens, CACHE_TTL in *. simpl.
  assert ((now - 0 <? 5000) = false) as Hstale by (apply Z.ltb_ge; lia).
  assert ((now - now <? 5000) = true) as Hfresh by (apply Z.ltb_lt; lia).
  destruct (cache m) as [c|], file as [ts|]; simpl;
    rewrite ?Hstale, ?Hfresh; simpl; rewrite ?Hstale, ?Hfresh; now split.
Qed.

Lemma live_after_disconnect s : live (disconnect s) = false.
Proof.
  unfold live, disconnect. simpl. rewrite existsb_app. simpl.
  now rewrite orb_true_r.
Qed.

Lemma sweep_settled file now m store (ss : list Socket) :
  readTokens file now m = (store, m) ->
  (sweep file now m ss).2 = m /\
  Forall2 (swept store now) ss (sweep file now m ss).1.
Proof.
  intros Hread. induction ss as [|s rest [IHm IHss]]; simpl.
  - now split.
  - destruct (if live s then data s else None) as [d|] eqn:Hd.
    + destruct (validate_verdict (authToken d) _ _ _ _ _ Hread) as [Hv Hm].
      assert ((validateToken (authToken d) file now m).2 = m) as Hm'
          by now destruct Hm.
      destruct (validateToken (authToken d) file now m) as [v m1].
      simpl in Hv, Hm'. subst m1.
      destruct (sweep file now m rest) as [rest' m2]. simpl in *.
      destruct v as [reason|t]; simpl; (split; [exact IHm|]);
        (constructor; [|exact IHss]); unfold swept; rewrite Hd, <- Hv;
        [|reflexivity].
      split; [simpl; now rewrite <- app_assoc|].
      split; [apply live_after_disconnect | now split].
    + destruct (sweep file now m rest) as [rest' m2]. simpl in *.
      split; [exact IHm|]. constructor; [|exact IHss].
      unfold swept. now rewrite Hd.
Qed.

(** C8.  When the watcher reports a change of the token file, the cache
    is dropped and every live authenticated socket is validated against
    the file's current tokens: a socket whose token fails is sent
    [auth:revoked] with the reason and then disconnected, in that
    order and within the same callback; every other socket is left
    exactly as it was. *)
Theorem revocation_sweep file now srv :
  CACHE_TTL <= now ->
  let srv' := onTokenFileEvent "change" file now srv in
  Forall2 (swept (storeOf file) now) (sockets srv) (sockets srv') /\
  (readTokens file now (manager srv')).1 = storeOf file.
Proof.
  intros Hnow. simpl. unfold onTokenFileEvent. simpl.
  destruct (refresh_settles file now (manager srv) Hnow) as [_ Hsettled].
  destruct (refreshCache file now (manager srv)) as [ts m1]. simpl in *.
  unfold checkAuthenticatedConnections. simpl.
  destruct (sweep_settled file now m1 _ (sockets srv) Hsettled) as [Hm Hss].
  destruct (sweep file now m1 (sockets srv)) as [ss m2]. simpl in *.
  subst m2. rewrite Hsettled. now split.
Qed.

End RevocationSweep.

Lemma revocation_sweep_witness :
  Forall2 (Revocation.swept [Samples.revokedToken] 7000)
    [Samples.liveSocket]
    (Auth.sockets
       (Revocation.onTokenFileEvent "change" (Some [Samples.revokedToken])
          7000 (Auth.mkServer ∅ (Tokens.mkManager
                                   (Some [Samples.activeToken]) 6000)
                              [Samples.liveSocket]))) /\
  map Wire.transcript
      (Auth.sockets
         (Revocation.onTokenFileEvent "change" (Some [Samples.revokedToken])
            7000 (Auth.mkServer ∅ (Tokens.mkManager
                                     (Some [Samples.activeToken]) 6000)
                                [Samples.liveSocket])))
  = [[Wire.Emit (Wire.AuthRevoked "TOKEN_REVOKED"
                   "Your device token has been revoked");
      Wire.Disconnect]].
Proof.
  assert (Tokens.CACHE_TTL <= 7000) as Hnow by (unfold Tokens.CACHE_TTL; lia).
  split.
  - exact (proj1 (revocation_sweep (Some [Samples.revokedToken]) 7000
                    (Auth.mkServer ∅ (Tokens.mkManager
                                        (Some [Samples.activeToken]) 6000)
                                   [Samples.liveSocket]) Hnow)).
  - reflexivity.
Defined.

(** ** The transfer worker *)

Section WorkerQueue.
Import Cache Worker.

Lemma queue_inv_idle : queue_inv idle.
Proof. repeat split; simpl; easy. Qed.

Ltac close_inv :=
  repeat split; simpl; try easy; try (eexists; reflexivity); subst;
  rewrite ?map_app, ?app_nil_r, <- ?app_assoc; simpl; try easy.

Lemma queue_inv_queueJob job w : queue_inv w -> queue_inv (queueJob job w).
Proof.
  destruct w as [q b l e s t]. unfold queue_inv, queueJob, processQueue.
  simpl. intros (Hidle & Hbusy & Henq & Hst).
  destruct b; simpl.
  - destruct (Hbusy eq_refl) as [j ->]. close_inv.
  - destruct (Hidle eq_refl) as [-> ->]. close_inv.
Qed.

Lemma queue_inv_resume i outcome w :
  queue_inv w -> queue_inv (resume i outcome w).
Proof.
  destruct w as [q b l e s t]. unfold queue_inv, resume. simpl.
  intros (Hidle & Hbusy & Henq & Hst).
  destruct (l !! i) as [job|] eqn:Hi; [|easy].
  destruct b.
  - destruct (Hbusy eq_refl) as [j ->].
    destruct i as [|i]; [|discriminate]. injection Hi as <-.
    destruct q as [|next rest]; close_inv.
  - destruct (Hidle eq_refl) as [-> ->]. discriminate.
Qed.

Lemma queue_inv_run ls : forall w, queue_inv w -> queue_inv (run ls w).
Proof.
  induction ls as [|l ls IH]; intros w Hw; [exact Hw|].
  apply IH. destruct l; [now apply queue_inv_queueJob|].
  now apply queue_inv_resume.
Qed.

Lemma enqueued_queueJob job w :
  enqueued (queueJob job w) = enqueued w ++ [job].
Proof.
  unfold queueJob, processQueue. simpl.
  destruct (negb (busy w)); [|reflexivity].
  destruct (busy w || _); [reflexivity|].
  now destruct (queue w ++ [job]).
Qed.

Lemma enqueued_resume i outcome w : enqueued (resume i outcome w) = enqueued w.
Proof.
  unfold resume. destruct (loops w !! i); [|reflexivity].
  now destruct (queue w).
Qed.

Lemma enqueued_run ls :
  forall w, enqueued (run ls w) = enqueued w ++ enqueuedBy ls.
Proof.
  induction ls as [|l ls IH]; intros w; simpl; [now rewrite app_nil_r|].
  unfold run in *. simpl. rewrite IH. destruct l as [job|i outcome]; simpl.
  - now rewrite enqueued_queueJob, <- app_assoc.
  - now rewrite enqueued_resume.
Qed.

(** Once nothing more is enqueued, one resumption per outstanding job
    empties the worker, whatever the outcomes. *)
Lemma worker_drains (outcomes : list (Result unit)) :
  forall w,
    queue_inv w ->
    length outcomes = (length (loops w) + length (queue w))%nat ->
    let w' := run (map (Finish 0) outcomes) w in
    busy w' = false /\ queue w' = [] /\ loops w' = [] /\
    settled w' = settled w ++ zip (loops w ++ queue w) outcomes.
Proof.
  induction outcomes as [|o os IH]; intros w Hinv Hlen; simpl in *.
  - destruct Hinv as (Hidle & Hbusy & _). destruct (busy w) eqn:Hb.
    + destruct (Hbusy eq_refl) as [job Hjob]. rewrite Hjob in Hlen.
      discriminate.
    + destruct (Hidle eq_refl) as [Hl Hq]. rewrite Hl, Hq. simpl.
      now rewrite app_nil_r.
  - pose proof (queue_inv_resume 0 o w Hinv) as Hinv'.
    destruct Hinv as (Hidle & Hbusy & _).
    destruct (busy w) eqn:Hb.
    + destruct (Hbusy eq_refl) as [job Hjob].
      specialize (IH (resume 0 o w) Hinv').
      unfold run in *. simpl. revert IH Hlen. unfold resume.
      rewrite Hjob. simpl.
      destruct (queue w) as [|next rest]; simpl; intros IH Hlen.
      * destruct IH as (H1 & H2 & H3 & H4); [lia|].
        repeat split; try easy. rewrite H4. simpl.
        rewrite <- app_assoc. simpl. now destruct os.
      * destruct IH as (H1 & H2 & H3 & H4); [lia|].
        repeat split; try easy. rewrite H4. now rewrite <- app_assoc.
    + destruct (Hidle eq_refl) as [Hl Hq]. rewrite Hl, Hq in Hlen.
      discriminate.
Qed.

(** C6.  In every state the worker can reach, at most one activation of
    the processing loop exists, so at most one job is being executed;
    jobs are taken off the queue in the order they were enqueued; and,
    whatever the outcome of each job (failures included), resuming the
    loop once per outstanding job runs and settles every one of them in
    that order and leaves the worker idle. *)
Theorem worker_single_flight_fifo (ls : list Label) :
  let w := run ls idle in
  (length (loops w) <= 1)%nat /\
  started w ++ queue w = enqueuedBy ls /\
  map fst (settled w) ++ loops w = started w /\
  (forall outcomes : list (Result unit),
      length outcomes = (length (loops w) + length (queue w))%nat ->
      let w' := run (map (Finish 0) outcomes) w in
      busy w' = false /\ queue w' = [] /\ loops w' = [] /\
      settled w' = settled w ++ zip (loops w ++ queue w) outcomes /\
      map fst (settled w') = enqueuedBy ls).
Proof.
  simpl. pose proof (queue_inv_run ls idle queue_inv_idle) as Hinv.
  pose proof (enqueued_run ls idle) as Henq. simpl in Henq.
  pose proof Hinv as (Hidle & Hbusy & Hfifo & Hst).
  repeat split.
  - destruct (busy (run ls idle)).
    + destruct (Hbusy eq_refl) as [j ->]. simpl. lia.
    + destruct (Hidle eq_refl) as [-> _]. simpl. lia.
  - now rewrite <- Hfifo.
  - now rewrite Hst.
  - now apply worker_drains.
  - now apply worker_drains.
  - now apply worker_drains.
  - now apply worker_drains.
  - destruct (worker_drains outcomes _ Hinv H) as (_ & _ & _ & ->).
    rewrite map_app, fst_zip by (rewrite length_app; lia).
    rewrite app_assoc, <- Hst. now rewrite <- Hfifo.
Qed.

End WorkerQueue.

(** ** The rendition cache *)

Section RenditionCache.
Import Wire Cache.

Lemma compressImage_keeps_mem env c fp q d id k b :
  mem c !! k = Some b ->
  mem (compressImage env c fp q d id).2 !! k = Some b.
Proof.
  intros Hk. unfold compressImage.
  destruct (mem c !! getCacheKey id q d) eqn:Hmem; [exact Hk|].
  assert (getCacheKey id q d <> k) as Hne by congruence.
  destruct (disk c !! _); simpl; [now rewrite lookup_insert_ne|].
  destruct (sharp env fp q d); [|exact Hk].
  destruct (diskWritable env _); simpl; now rewrite lookup_insert_ne.
Qed.

Lemma compressImage_keeps_disk env c fp q d id f b :
  disk c !! f = Some b ->
  disk (compressImage env c fp q d id).2 !! f = Some b.
Proof.
  intros Hf. unfold compressImage.
  destruct (mem c !! getCacheKey id q d); [exact Hf|].
  destruct (disk c !! cacheFilePathOf env _) eqn:Hdisk; [exact Hf|].
  assert (cacheFilePathOf env (getCacheKey id q d) <> f) as Hne by congruence.
  destruct (sharp env fp q d); [|exact Hf].
  destruct (diskWritable env _); simpl; [|exact Hf].
  now rewrite lookup_insert_ne.
Qed.

(** A call that returns a buffer leaves it in the memory map. *)
Lemma compressImage_ok_cached env c fp q d id b c' :
  compressImage env c fp q d id = (Ok b, c') ->
  mem c' !! getCacheKey id q d = Some b.
Proof.
  unfold compressImage.
  destruct (mem c !! getCacheKey id q d) eqn:Hmem.
  { intros [= <- <-]. exact Hmem. }
  destruct (disk c !! _).
  { intros [= <- <-]. simpl. apply lookup_insert_eq. }
  destruct (sharp env fp q d); [|discriminate].
  destruct (diskWritable env _); [|discriminate].
  intros [= <- <-]. simpl. apply lookup_insert_eq.
Qed.

Lemma compressImage_hit env c fp q d id b :
  mem c !! getCacheKey id q d = Some b ->
  compressImage env c fp q d id =
    (Ok b, mkCache (mem c) (disk c) (ops c ++ [MemHit (getCacheKey id q d)])).
Proof. intros Hmem. unfold compressImage. now rewrite Hmem. Qed.

Lemma evolves_keeps_mem c c' :
  evolves c c' -> forall k b, mem c !! k = Some b -> mem c' !! k = Some b.
Proof.
  induction 1 as [c | c env fp q d id c' _ IH]; intros k b Hk; [exact Hk|].
  apply IH. now apply compressImage_keeps_mem.
Qed.

Lemma evolves_trans c1 c2 c3 : evolves c1 c2 -> evolves c2 c3 -> evolves c1 c3.
Proof.
  induction 1 as [c | c env fp q d id c' _ IH]; intros H23; [exact H23|].
  eapply evolves_step. now apply IH.
Qed.

(** Within one generation of the cache a rendition never changes. *)
Lemma compressImage_deterministic env c fp q d id b c1 c2 env' fp' :
  compressImage env c fp q d id = (Ok b, c1) ->
  evolves c1 c2 ->
  (compressImage env' c2 fp' q d id).1 = Ok b.
Proof.
  intros Hfirst Hev.
  apply compressImage_ok_cached in Hfirst.
  apply (evolves_keeps_mem _ _ Hev) in Hfirst.
  now rewrite (compressImage_hit _ _ _ _ _ _ _ Hfirst).
Qed.

Lemma alone_is_compressImage env c fp q d id :
  Flight.alone env 3 (Flight.compressImage env c fp q d id) =
    (Flight.Returned (compressImage env c fp q d id).1,
     (compressImage env c fp q d id).2).
Proof.
  unfold Flight.compressImage, compressImage.
  destruct (mem c !! getCacheKey id q d) as [b|]; [reflexivity|].
  destruct (disk c !! cacheFilePathOf env (getCacheKey id q d)) as [b|]
    eqn:Hdisk.
  - cbn [Flight.alone fst snd Flight.answer]. rewrite Hdisk. reflexivity.
  - cbn [Flight.alone fst snd Flight.answer].
    destruct (sharp env fp q d) as [b|e]; [|reflexivity].
    cbn [Flight.resume Flight.alone fst snd Flight.answer].
    destruct (diskWritable env (cacheFilePathOf env (getCacheKey id q d)))
      as [[]|e] eqn:Hwrite; [|reflexivity].
    cbn [Flight.resume Flight.alone fst snd Flight.answer mem disk ops].
    rewrite Hwrite. now rewrite <- app_assoc.
Qed.

Lemma resume_keeps done call c :
  (forall k, is_Some (mem c !! k) ->
             is_Some (mem (Flight.resume done call c).2 !! k)) /\
  (forall f, is_Some (disk c !! f) ->
             is_Some (disk (Flight.resume done call c).2 !! f)).
Proof.
  split.
  - intros k Hk.
    destruct call, done as [[b|e]|[b|e]|[[]|e]|[[]|e]]; simpl; try exact Hk;
      (destruct (decide (cacheKey = k)) as [->|Hne];
       [rewrite lookup_insert_eq; eauto | now rewrite lookup_insert_ne]).
  - intros f Hf.
    destruct call, done as [[b|e]|[b|e]|[[]|e]|[[]|e]]; simpl; try exact Hf;
      (destruct (decide (cacheFilePath = f)) as [->|Hne];
       [rewrite lookup_insert_eq; eauto | now rewrite lookup_insert_ne]).
Qed.

Lemma run_keeps (events : list Flight.Event) :
  forall p,
    (forall k, is_Some (mem (Flight.cache p) !! k) ->
               is_Some (mem (Flight.cache (Flight.run events p)) !! k)) /\
    (forall f, is_Some (disk (Flight.cache p) !! f) ->
               is_Some (disk (Flight.cache (Flight.run events p)) !! f)).
Proof.
  induction events as [|e events IH]; intros p; [easy|].
  assert ((forall k, is_Some (mem (Flight.cache p) !! k) ->
                     is_Some (mem (Flight.cache (Flight.step e p)) !! k)) /\
          (forall f, is_Some (disk (Flight.cache p) !! f) ->
                     is_Some (disk (Flight.cache (Flight.step e p)) !! f)))
    as [Hmem Hdisk].
  { destruct e as [env fp q d id|i done]; simpl.
    - unfold Flight.compressImage.
      destruct (mem (Flight.cache p) !! _); [easy|].
      now destruct (disk (Flight.cache p) !! _).
    - destruct (Flight.calls p !! i) as [call|]; [|easy].
      pose proof (resume_keeps done call (Flight.cache p)) as Hkeeps.
      now destruct (Flight.resume done call (Flight.cache p)). }
  destruct (IH (Flight.step e p)) as [IHmem IHdisk].
  split; intros x Hx; [apply IHmem, Hmem, Hx | apply IHdisk, Hdisk, Hx].
Qed.

(** C7 (as amended).  [compressImage] computes the key and looks in the
    memory map first, returning a hit at once; on a memory miss it
    looks for the disk file at the path derived from the key and, when
    the file is there, reads it: what a successful read gives is put
    into the memory map and returned, and a failed read fails the call
    with both tiers as they were; it resamples only when both miss.  A
    freshly computed rendition is put into the memory map first and
    written to disk after that, and a failure of the write leaves it in
    memory only.  A call that runs with no other call in between is the
    single step [Cache.compressImage] and replaces no entry that either
    tier already holds, and no run of calls ever removes an entry.  But
    entries are not immutable: both insertions are unconditional, so of
    two calls in flight for one key that both missed, the one whose
    resampling settles later replaces the memory entry and the file of
    the other. *)
Theorem cache_lookup_order env c fp q d id :
  let key := getCacheKey id q d in
  let file := cacheFilePathOf env key in
  let start := Flight.compressImage env c fp q d id in
  let r := compressImage env c fp q d id in
  (forall b, mem c !! key = Some b ->
     start = (Flight.Returned (Ok b),
              mkCache (mem c) (disk c) (ops c ++ [MemHit key]))) /\
  (forall b, mem c !! key = None -> disk c !! file = Some b ->
     start = (Flight.AwaitRead key file, c) /\
     (forall c1 b1,
        Flight.resume (Flight.ReadDone (Ok b1)) start.1 c1 =
          (Flight.Returned (Ok b1),
           mkCache (<[key := b1]> (mem c1)) (disk c1)
                   (ops c1 ++ [DiskRead file; MemSet key]))) /\
     (forall c1 e,
        let failed := Flight.resume (Flight.ReadDone (Err e)) start.1 c1 in
        failed.1 = Flight.Returned (Err e) /\
        mem failed.2 = mem c1 /\ disk failed.2 = disk c1)) /\
  (start.1 = Flight.AwaitSharp key file fp q d <->
     mem c !! key = None /\ disk c !! file = None) /\
  (mem c !! key = None -> disk c !! file = None ->
     start.2 = c /\
     (forall c1 b,
        Flight.resume (Flight.SharpDone (Ok b)) start.1 c1 =
          (Flight.AwaitMkdir file b,
           mkCache (<[key := b]> (mem c1)) (disk c1)
                   (ops c1 ++ [Resample fp; MemSet key])) /\
        Flight.resume (Flight.MkdirDone (Ok tt)) (Flight.AwaitMkdir file b) c1 =
          (Flight.AwaitWrite file b, c1) /\
        Flight.resume (Flight.WriteDone (Ok tt)) (Flight.AwaitWrite file b) c1 =
          (Flight.Returned (Ok b),
           mkCache (mem c1) (<[file := b]> (disk c1))
                   (ops c1 ++ [DiskWrite file])) /\
        forall e,
          Flight.resume (Flight.SharpDone (Err e)) start.1 c1 =
            (Flight.Returned (Err e),
             mkCache (mem c1) (disk c1) (ops c1 ++ [Resample fp])) /\
          Flight.resume (Flight.MkdirDone (Err e)) (Flight.AwaitMkdir file b) c1
            = (Flight.Returned (Err e), c1) /\
          Flight.resume (Flight.WriteDone (Err e)) (Flight.AwaitWrite file b) c1
            = (Flight.Returned (Err e), c1))) /\
  (Flight.alone env 3 start = (Flight.Returned r.1, r.2) /\
   (forall k b, mem c !! k = Some b -> mem r.2 !! k = Some b) /\
   (forall f b, disk c !! f = Some b -> disk r.2 !! f = Some b) /\
   (forall rest, ops r.2 = ops c ++ Resample fp :: rest ->
      mem c !! key = None /\ disk c !! file = None)) /\
  (forall events p,
     (forall k, is_Some (mem (Flight.cache p) !! k) ->
                is_Some (mem (Flight.cache (Flight.run events p)) !! k)) /\
     (forall f, is_Some (disk (Flight.cache p) !! f) ->
                is_Some (disk (Flight.cache (Flight.run events p)) !! f))) /\
  (mem c !! key = None -> disk c !! file = None ->
   forall fp' b1 b2,
     let p1 :=
       Flight.run [Flight.Begin env fp q d id; Flight.Begin env fp' q d id;
                   Flight.Settle 0 (Flight.SharpDone (Ok b1));
                   Flight.Settle 0 (Flight.MkdirDone (Ok tt));
                   Flight.Settle 0 (Flight.WriteDone (Ok tt))]
                  (Flight.mkPool [] c) in
     let p2 :=
       Flight.run [Flight.Settle 1 (Flight.SharpDone (Ok b2));
                   Flight.Settle 1 (Flight.MkdirDone (Ok tt));
                   Flight.Settle 1 (Flight.WriteDone (Ok tt))] p1 in
     Flight.calls p1 =
       [Flight.Returned (Ok b1); Flight.AwaitSharp key file fp' q d] /\
     mem (Flight.cache p1) !! key = Some b1 /\
     disk (Flight.cache p1) !! file = Some b1 /\
     Flight.calls p2 = [Flight.Returned (Ok b1); Flight.Returned (Ok b2)] /\
     mem (Flight.cache p2) !! key = Some b2 /\
     disk (Flight.cache p2) !! file = Some b2).
Proof.
  cbv zeta. split; [|split; [|split; [|split; [|split; [|split]]]]].
  - intros b Hmem. unfold Flight.compressImage. now rewrite Hmem.
  - intros b Hmem Hdisk. unfold Flight.compressImage. rewrite Hmem, Hdisk.
    now repeat split.
  - unfold Flight.compressImage.
    destruct (mem c !! getCacheKey id q d); [now split; [|intros []]|].
    destruct (disk c !! cacheFilePathOf env (getCacheKey id q d));
      [now split; [|intros []] | now split].
  - intros Hmem Hdisk. unfold Flight.compressImage. rewrite Hmem, Hdisk.
    split; [reflexivity|]. intros c1 b. now repeat split.
  - split; [apply alone_is_compressImage|].
    split; [intros k b; apply compressImage_keeps_mem|].
    split; [intros f b; apply compressImage_keeps_disk|].
    intros rest. unfold compressImage.
    destruct (mem c !! getCacheKey id q d).
    { simpl. intros H. apply app_inv_head in H. discriminate. }
    destruct (disk c !! _); [|easy].
    simpl. intros H. apply app_inv_head in H. discriminate.
  - intros events p. apply run_keeps.
  - intros Hmem Hdisk fp' b1 b2.
    unfold Flight.run. cbn [foldl Flight.step Flight.cache Flight.calls].
    unfold Flight.compressImage. rewrite Hmem, Hdisk.
    cbn [app Flight.cache Flight.calls]. rewrite Hmem, Hdisk.
    cbn [app Flight.cache Flight.calls lookup list_lookup Flight.resume
         list_insert insert mem disk].
    rewrite !lookup_insert_eq. now repeat split.
Qed.

End RenditionCache.

(** C7, counterexample: on an empty cache the first call inserts the
    memory entry and only then writes the disk file; when the write
    fails the memory entry is there and the disk file is not. *)
Lemma cache_write_order_counterexample :
  let r := Cache.compressImage Samples.sampleEnv Samples.emptyCache
             "/lib/a.jpg" 50 1920 "b1" in
  let r' := Cache.compressImage Samples.readOnlyEnv Samples.emptyCache
              "/lib/a.jpg" 50 1920 "b1" in
  ~ Cache.before (Cache.DiskWrite "/app/.cache/b1_50_1920.jpg")
                 (Cache.MemSet "b1_50_1920") (Cache.ops r.2) /\
  Cache.before (Cache.MemSet "b1_50_1920")
               (Cache.DiskWrite "/app/.cache/b1_50_1920.jpg") (Cache.ops r.2) /\
  Cache.mem r'.2 !! "b1_50_1920"%string = Some [Byte.xff; Byte.xd8; Byte.x01] /\
  Cache.disk r'.2 !! "/app/.cache/b1_50_1920.jpg"%string = None.
Proof.
  assert (Cache.ops
            (Cache.compressImage Samples.sampleEnv Samples.emptyCache
               "/lib/a.jpg" 50 1920 "b1").2
          = [Cache.Resample "/lib/a.jpg"; Cache.MemSet "b1_50_1920";
             Cache.DiskWrite "/app/.cache/b1_50_1920.jpg"])
    as Hops by (vm_compute; reflexivity).
  simpl. rewrite Hops. split; [|split; [|split]].
  - intros (l1 & l2 & l3 & H).
    destruct l1 as [|a1 [|a2 [|a3 l1]]]; simpl in H; try discriminate.
    + injection H as _ _ H. destruct l2; discriminate.
    + injection H as _ _ _ H. destruct l1; discriminate.
  - now exists [Cache.Resample "/lib/a.jpg"], [], [].
  - vm_compute. reflexivity.
  - vm_compute. reflexivity.
Qed.

Lemma cache_lookup_order_witness :
  let events :=
    [Flight.Begin Samples.sampleEnv "/lib/a.jpg" 50 1920 "b1";
     Flight.Begin Samples.otherEnv "/lib/a.jpg" 50 1920 "b1";
     Flight.Settle 0 (Flight.SharpDone (Cache.Ok [Byte.x07]));
     Flight.Settle 0 (Flight.MkdirDone (Cache.Ok tt));
     Flight.Settle 0 (Flight.WriteDone (Cache.Ok tt))] in
  let p1 := Flight.run events (Flight.mkPool [] Samples.emptyCache) in
  let p2 :=
    Flight.run [Flight.Settle 1 (Flight.SharpDone (Cache.Ok [Byte.x00]));
                Flight.Settle 1 (Flight.MkdirDone (Cache.Ok tt));
                Flight.Settle 1 (Flight.WriteDone (Cache.Ok tt))] p1 in
  Cache.mem (Flight.cache p1) !! "b1_50_1920"%string = Some [Byte.x07] /\
  Cache.mem (Flight.cache p2) !! "b1_50_1920"%string = Some [Byte.x00] /\
  Cache.disk (Flight.cache p2) !! "/app/.cache/b1_50_1920.jpg"%string
    = Some [Byte.x00].
Proof.
  cbv zeta.
  pose proof (cache_lookup_order Samples.sampleEnv Samples.emptyCache
                "/lib/a.jpg" 50 1920 "b1") as (_ & _ & _ & _ & _ & _ & Hboth).
  destruct (Hboth (lookup_empty _) (lookup_empty _) "/lib/a.jpg"%string
                  [Byte.x07] [Byte.x00])
    as (_ & Hmem1 & _ & _ & Hmem2 & Hdisk2).
  split; [exact Hmem1|]. split; [exact Hmem2 | exact Hdisk2].
Defined.

(** ** Compressed deliveries *)

Section CompressedDelivery.
Import Catalog Wire Cache Worker.
Variable md5 : bytes -> string.

(** A compressed job that succeeds emits the rendition, its length and
    its MD5, then the completion marker with the same length and MD5. *)
Lemma processCompressedPhoto_ok env w job w' :
  processCompressedPhoto md5 env w job = (Ok tt, w') ->
  exists photo b c',
    getPhoto (database w) (photoId job) = Some photo /\
    compressImage env (cacheState w) (path photo) (quality job)
                  (maxDimension job) (photoId job) = (Ok b, c') /\
    w' = mkWorld (database w) c'
           (emitted w ++
              [(socket job,
                PhotoData (photoId job) b (length b) (md5 b) "image/jpeg");
               (socket job, PhotoComplete (photoId job) (length b) (md5 b))]).
Proof.
  unfold processCompressedPhoto.
  destruct (getPhoto _ _) as [photo|]; [|discriminate].
  destruct (negb _); [discriminate|].
  destruct (compressImage _ _ _ _ _ _) as [[b|e] c'] eqn:Hc; [|discriminate].
  intros [= <-]. exists photo, b, c'. split; [reflexivity|].
  split; [exact Hc|]. unfold emitTo. simpl. now rewrite <- app_assoc.
Qed.

Lemma processJob_evolves env w job :
  evolves (cacheState w) (cacheState (processJob md5 env w job).2) /\
  database (processJob md5 env w job).2 = database w.
Proof.
  unfold processJob, processCompressedPhoto, processOriginalPhoto.
  destruct (String.eqb _ "compressed").
  - destruct (getPhoto _ _) as [photo|]; [|split; [constructor|easy]].
    destruct (negb _); [split; [constructor|easy]|].
    destruct (compressImage _ _ _ _ _ _) as [[b|e] c'] eqn:Hc; simpl;
      (split; [|reflexivity]);
      eapply evolves_step; rewrite Hc; constructor.
  - destruct (String.eqb _ "original"); [|split; [constructor|easy]].
    destruct (getPhoto _ _) as [photo|]; [|split; [constructor|easy]].
    destruct (negb _); [split; [constructor|easy]|].
    destruct (readSource _ _); split; try constructor; easy.
Qed.

(** C4.  Once a compressed request for a photo has been served, every
    later compressed request for the same photo, quality and dimension
    that is served from the same cache generation delivers the very
    same bytes, whatever the image library or the file system would
    answer by then; and in every delivery the checksum sent with the
    payload and with the completion marker is the MD5 of exactly the
    bytes delivered. *)
Theorem compressed_delivery_deterministic env w job w1 env' w2 job' w3 :
  processCompressedPhoto md5 env w job = (Ok tt, w1) ->
  evolves (cacheState w1) (cacheState w2) ->
  photoId job' = photoId job ->
  quality job' = quality job ->
  maxDimension job' = maxDimension job ->
  processCompressedPhoto md5 env' w2 job' = (Ok tt, w3) ->
  exists b,
    emitted w1 =
      emitted w ++
        [(socket job,
          PhotoData (photoId job) b (length b) (md5 b) "image/jpeg");
         (socket job, PhotoComplete (photoId job) (length b) (md5 b))] /\
    emitted w3 =
      emitted w2 ++
        [(socket job',
          PhotoData (photoId job) b (length b) (md5 b) "image/jpeg");
         (socket job', PhotoComplete (photoId job) (length b) (md5 b))].
Proof.
  intros H1 Hev Hid Hq Hd H2.
  apply processCompressedPhoto_ok in H1 as (p1 & b1 & c1 & _ & Hc1 & ->).
  apply processCompressedPhoto_ok in H2 as (p2 & b2 & c2 & _ & Hc2 & ->).
  rewrite Hid, Hq, Hd in Hc2. simpl in Hev.
  pose proof (compressImage_deterministic _ _ _ _ _ _ _ _ _ env' (path p2)
                Hc1 Hev) as Hsame.
  rewrite Hc2 in Hsame. simpl in Hsame. injection Hsame as ->.
  exists b1. rewrite Hid. now split.
Qed.

End CompressedDelivery.

(** ** Compressed batches *)

Section CompressedBatch.
Import Catalog Wire Cache Worker.
Variable md5 : bytes -> string.

(** A busy worker left alone carries out the awaited job and then the
    queue, in order, and ends idle. *)
Lemma drain_pending env (q : list Job) :
  forall ws w job,
    queue_inv ws -> loops ws = [job] -> queue ws = q ->
    drain md5 env (S (length q)) (ws, w) =
      (mkWorker [] false [] (enqueued ws) (started ws ++ q)
                (settled ws ++ jobOutcomes md5 env w (job :: q)),
       runJobs md5 env w (job :: q)).
Proof.
  induction q as [|next rest IH]; intros ws w job Hinv Hloops Hqueue.
  - simpl. rewrite Hloops. unfold resume. rewrite Hloops, Hqueue. simpl.
    destruct (processJob md5 env w job) as [outcome w']. simpl.
    now rewrite app_nil_r.
  - pose proof (queue_inv_resume 0 (processJob md5 env w job).1 ws Hinv)
      as Hinv'.
    change (drain md5 env (S (length (next :: rest))) (ws, w))
      with (match loops ws with
            | [] => (ws, w)
            | job :: _ =>
                let '(outcome, w') := processJob md5 env w job in
                drain md5 env (S (length rest)) (resume 0 outcome ws, w')
            end).
    rewrite Hloops.
    destruct (processJob md5 env w job) as [outcome w'] eqn:Hjob.
    simpl in Hinv'.
    assert (resume 0 outcome ws =
            mkWorker rest (busy ws) [next] (enqueued ws) (started ws ++ [next])
                     (settled ws ++ [(job, outcome)])) as Hres.
    { unfold resume. now rewrite Hloops, Hqueue. }
    rewrite Hres in *. rewrite (IH _ w' next Hinv' eq_refl eq_refl). simpl.
    rewrite Hjob. simpl. now rewrite <- !app_assoc.
Qed.

Lemma jobOutcomes_jobs env (jobs : list Job) :
  forall w, map fst (jobOutcomes md5 env w jobs) = jobs.
Proof.
  induction jobs as [|job jobs IH]; intros w; [reflexivity|].
  simpl. now rewrite IH.
Qed.

Lemma runJobs_snoc env w jobs job :
  runJobs md5 env w (jobs ++ [job]) =
    (processJob md5 env (runJobs md5 env w jobs) job).2.
Proof. unfold runJobs. now rewrite foldl_snoc. Qed.

Lemma jobOutcomes_last env jobs :
  forall w job,
    last (jobOutcomes md5 env w (jobs ++ [job])) =
      Some (job, (processJob md5 env (runJobs md5 env w jobs) job).1).
Proof.
  induction jobs as [|j jobs IH]; intros w job; [reflexivity|].
  change (jobOutcomes md5 env w ((j :: jobs) ++ [job]))
    with ((j, (processJob md5 env w j).1)
            :: jobOutcomes md5 env (processJob md5 env w j).2 (jobs ++ [job])).
  specialize (IH (processJob md5 env w j).2 job).
  destruct (jobOutcomes md5 env _ (jobs ++ [job])) as [|o os] eqn:Hout;
    [discriminate|].
  rewrite last_cons_cons. exact IH.
Qed.

(** [await queueJob(job)] with no other request arriving meanwhile: the
    jobs that were outstanding are carried out first, then the job, whose
    promise is the one awaited; the worker ends idle. *)
Lemma awaitJob_alone env job ws w :
  queue_inv ws ->
  let pending := loops ws ++ queue ws in
  let w' := runJobs md5 env w pending in
  exists ws',
    awaitJob md5 env job (ws, w)
      = ((processJob md5 env w' job).1, (ws', (processJob md5 env w' job).2)) /\
    queue_inv ws' /\ loops ws' = [] /\ queue ws' = [].
Proof.
  intros Hinv. simpl.
  pose proof (queue_inv_queueJob job ws Hinv) as Hinv1.
  assert (exists first,
             loops (queueJob job ws) = [first] /\
             first :: queue (queueJob job ws) = (loops ws ++ queue ws) ++ [job])
    as (first & Hloops & Hall).
  { destruct Hinv as (Hidle & Hbusy & _).
    unfold queueJob, processQueue. simpl. destruct (busy ws) eqn:Hb; simpl.
    - destruct (Hbusy eq_refl) as [j0 Hj0]. rewrite Hj0. exists j0. now split.
    - destruct (Hidle eq_refl) as [Hl Hq]. rewrite Hl, Hq. simpl.
      exists job. now split. }
  exists (mkWorker [] false [] (enqueued (queueJob job ws))
            (started (queueJob job ws) ++ queue (queueJob job ws))
            (settled (queueJob job ws)
               ++ jobOutcomes md5 env w (first :: queue (queueJob job ws)))).
  split; [|split; [|split; reflexivity]].
  - unfold awaitJob. cbn [fst snd]. rewrite Hloops.
    change (length [first] + length (queue (queueJob job ws)))%nat
      with (S (length (queue (queueJob job ws)))).
    rewrite (drain_pending env _ _ w first Hinv1 Hloops eq_refl).
    cbn [fst snd settled]. rewrite Hall.
    now rewrite last_app, jobOutcomes_last, runJobs_snoc.
  - destruct Hinv1 as (_ & _ & Henq & Hst). rewrite Hloops in Hst.
    unfold queue_inv. cbn [busy loops queue enqueued started settled].
    split; [easy|]. split; [discriminate|].
    rewrite !app_nil_r. split; [exact Henq|].
    now rewrite map_app, jobOutcomes_jobs, Hst, <- app_assoc.
Qed.

Lemma compressImage_servable env c fp q d id :
  (exists b, sharp env fp q d = Ok b) ->
  diskWritable env (cacheFilePathOf env (getCacheKey id q d)) = Ok tt ->
  exists b c', compressImage env c fp q d id = (Ok b, c').
Proof.
  intros [b Hb] Hw. unfold compressImage.
  destruct (mem c !! _); [eauto|]. destruct (disk c !! _); [eauto|].
  rewrite Hb, Hw. eauto.
Qed.

(** One compressed job of the batch. *)
Lemma compressed_job env w q d pid socketId :
  servable env (database w) q d pid ->
  let r := processJob md5 env w (mkJob "compressed" pid q d socketId) in
  database r.2 = database w /\
  match getPhoto (database w) pid with
  | None =>
      r.1 = Err ("Photo not found in database: " +:+ pid) /\
      emitted r.2 = emitted w
  | Some _ =>
      exists b,
        r.1 = Ok tt /\
        emitted r.2 =
          emitted w ++
            [(socketId, PhotoData pid b (length b) (md5 b) "image/jpeg");
             (socketId, PhotoComplete pid (length b) (md5 b))]
  end.
Proof.
  intros Hserv. simpl. split; [apply processJob_evolves|].
  unfold servable in Hserv. unfold processJob, processCompressedPhoto. simpl.
  destruct (getPhoto (database w) pid) as [photo|]; [|now split].
  destruct Hserv as (Hsrc & Hsharp & Hwrite). rewrite Hsrc. simpl.
  destruct (compressImage_servable env (cacheState w) (path photo) q d pid
              Hsharp Hwrite) as (b & c' & ->).
  exists b. split; [reflexivity|]. unfold emitTo. simpl.
  now rewrite <- app_assoc.
Qed.

Lemma batchLoop_cons env socketId q d pid rest st :
  batchLoop md5 env socketId q d (pid :: rest) st =
    batchLoop md5 env socketId q d rest
      (match (awaitJob md5 env (mkJob "compressed" pid q d socketId) st).1 with
       | Ok _ => (awaitJob md5 env (mkJob "compressed" pid q d socketId) st).2
       | Err message =>
           ((awaitJob md5 env (mkJob "compressed" pid q d socketId) st).2.1,
            emitTo socketId (PhotoError pid "PROCESSING_FAILED" message)
              (awaitJob md5 env (mkJob "compressed" pid q d socketId) st).2.2)
       end).
Proof.
  cbn [batchLoop].
  now destruct (awaitJob md5 env (mkJob "compressed" pid q d socketId) st)
    as [[u|e] st1].
Qed.

Lemma eventsOf_emitTo target e w socketId :
  eventsOf socketId (emitTo target e w) =
    eventsOf socketId w ++ (if String.eqb target socketId then [e] else []).
Proof.
  unfold eventsOf, emitTo. simpl. rewrite omap_app. simpl.
  now destruct (String.eqb target socketId).
Qed.

Lemma eventsOf_own socketId w w' (events : list Event) :
  emitted w' = emitted w ++ map (pair socketId) events ->
  eventsOf socketId w' = eventsOf socketId w ++ events.
Proof.
  intros Hem. unfold eventsOf. rewrite Hem, omap_app.
  apply (f_equal (app _)). clear Hem.
  induction events as [|e events IH]; [reflexivity|].
  simpl. rewrite String.eqb_refl. apply (f_equal (cons e)). exact IH.
Qed.

(** A job for another socket emits nothing on this one. *)
Lemma processJob_frame env w job socketId :
  socket job <> socketId ->
  eventsOf socketId (processJob md5 env w job).2 = eventsOf socketId w.
Proof.
  intros Hne. apply String.eqb_neq in Hne.
  unfold processJob, processCompressedPhoto, processOriginalPhoto.
  destruct (String.eqb _ "compressed").
  - destruct (getPhoto _ _) as [photo|]; [|reflexivity].
    destruct (negb _); [reflexivity|].
    destruct (compressImage _ _ _ _ _ _) as [[b|e] c']; [|reflexivity].
    cbn [snd]. rewrite !eventsOf_emitTo, Hne. now rewrite !app_nil_r.
  - destruct (String.eqb _ "original"); [|reflexivity].
    destruct (getPhoto _ _) as [photo|]; [|reflexivity].
    destruct (negb _); [reflexivity|].
    destruct (readSource _ _); [|reflexivity].
    cbn [snd]. rewrite !eventsOf_emitTo, Hne. now rewrite !app_nil_r.
Qed.

Lemma runJobs_frame env socketId (jobs : list Job) :
  forall w,
    Forall (fun job => socket job <> socketId) jobs ->
    eventsOf socketId (runJobs md5 env w jobs) = eventsOf socketId w /\
    database (runJobs md5 env w jobs) = database w.
Proof.
  induction jobs as [|job jobs IH]; intros w Hall; [easy|].
  apply Forall_cons in Hall as [Hjob Hall].
  destruct (IH (processJob md5 env w job).2 Hall) as [Hev Hdb].
  unfold runJobs in *. simpl. rewrite Hev, Hdb.
  split; [now apply processJob_frame | apply processJob_evolves].
Qed.

(** The events of a compressed batch, whatever jobs of other sockets
    were outstanding when it started. *)
Lemma batchLoop_events env socketId q d (photoIds : list string) :
  forall ws w,
    queue_inv ws ->
    Forall (fun job => socket job <> socketId) (loops ws ++ queue ws) ->
    Forall (servable env (database w) q d) photoIds ->
    let st := batchLoop md5 env socketId q d photoIds (ws, w) in
    exists groups,
      eventsOf socketId st.2 = eventsOf socketId w ++ concat groups /\
      Forall2 (batchGroup md5 (database w)) photoIds groups.
Proof.
  induction photoIds as [|pid rest IH]; intros ws w Hinv Hothers Hall.
  - exists []. simpl. now rewrite app_nil_r.
  - apply Forall_cons in Hall as [Hpid Hrest]. cbv zeta.
    rewrite batchLoop_cons.
    destruct (awaitJob_alone env (mkJob "compressed" pid q d socketId) ws w
                Hinv) as (ws' & -> & Hinv' & Hloops' & Hqueue').
    destruct (runJobs_frame env socketId _ w Hothers) as [Hframe Hdb0].
    set (w0 := runJobs md5 env w (loops ws ++ queue ws)) in *.
    rewrite <- Hdb0 in Hpid, Hrest.
    destruct (compressed_job env w0 q d pid socketId Hpid) as [Hdb Hjob].
    simpl in Hdb, Hjob.
    assert (Forall (fun job => socket job <> socketId)
                   (loops ws' ++ queue ws')) as Hnone
        by (rewrite Hloops', Hqueue'; constructor).
    destruct (processJob md5 env w0 (mkJob "compressed" pid q d socketId))
      as [outcome w1]. cbn [fst snd] in *.
    destruct (getPhoto (database w0) pid) as [photo|] eqn:Hphoto.
    + destruct Hjob as (b & -> & Hem). rewrite <- Hdb in Hrest.
      destruct (IH ws' w1 Hinv' Hnone Hrest) as (groups & Hev & Hgroups).
      exists ([PhotoData pid b (length b) (md5 b) "image/jpeg";
               PhotoComplete pid (length b) (md5 b)] :: groups).
      split.
      * rewrite Hev, <- Hframe.
        rewrite (eventsOf_own socketId w0 w1
                   [PhotoData pid b (length b) (md5 b) "image/jpeg";
                    PhotoComplete pid (length b) (md5 b)] Hem).
        simpl. now rewrite <- app_assoc.
      * rewrite <- Hdb0. constructor; [|now rewrite <- Hdb].
        unfold batchGroup. rewrite Hphoto. eauto.
    + destruct Hjob as [-> Hem].
      set (w2 := emitTo socketId _ w1).
      assert (database w2 = database w0) as Hdb2 by exact Hdb.
      rewrite <- Hdb2 in Hrest.
      destruct (IH ws' w2 Hinv' Hnone Hrest) as (groups & Hev & Hgroups).
      exists ([PhotoError pid "PROCESSING_FAILED"
                 ("Photo not found in database: " +:+ pid)] :: groups).
      split.
      * rewrite Hev, <- Hframe. unfold w2.
        rewrite eventsOf_emitTo, String.eqb_refl.
        unfold eventsOf at 1. rewrite Hem. fold (eventsOf socketId w0).
        simpl. now rewrite <- app_assoc.
      * rewrite <- Hdb0. constructor; [|now rewrite <- Hdb2].
        unfold batchGroup. now rewrite Hphoto.
Qed.

Lemma batch_errors (db : list PhotoRecord) photoIds groups :
  Forall2 (batchGroup md5 db) photoIds groups ->
  filter (fun e => is_error e = true) (concat groups) =
    map (fun pid => PhotoError pid "PROCESSING_FAILED"
                      ("Photo not found in database: " +:+ pid))
        (filter (fun pid => absent db pid = true) photoIds).
Proof.
  induction 1 as [|pid g photoIds groups Hg _ IH]; [reflexivity|].
  simpl. rewrite filter_app, IH, filter_cons.
  unfold batchGroup, absent in *.
  destruct (getPhoto db pid).
  - destruct Hg as [b ->]. now rewrite decide_False by discriminate.
  - subst g. now rewrite decide_True by reflexivity.
Qed.


End CompressedBatch.

Lemma worker_single_flight_fifo_witness :
  Worker.settled
    (Worker.run
       (map (Worker.Finish 0) [Cache.Err "socket closed"; Cache.Ok tt; Cache.Ok tt])
       (Worker.run [Worker.Enqueue (Samples.jobFor "b1" "s1");
                    Worker.Enqueue (Samples.jobFor "a7" "s2");
                    Worker.Enqueue (Samples.jobFor "b1" "s2")]
                   Worker.idle))
  = [(Samples.jobFor "b1" "s1", Cache.Err "socket closed");
     (Samples.jobFor "a7" "s2", Cache.Ok tt);
     (Samples.jobFor "b1" "s2", Cache.Ok tt)].
Proof.
  destruct (worker_single_flight_fifo
              [Worker.Enqueue (Samples.jobFor "b1" "s1");
               Worker.Enqueue (Samples.jobFor "a7" "s2");
               Worker.Enqueue (Samples.jobFor "b1" "s2")])
    as (_ & _ & _ & Hdrain).
  destruct (Hdrain [Cache.Err "socket closed"; Cache.Ok tt; Cache.Ok tt]
                   eq_refl) as (_ & _ & _ & Hsettled & _).
  rewrite Hsettled. reflexivity.
Defined.

Lemma compressed_delivery_deterministic_witness :
  exists b,
    Worker.eventsOf "s2"
      (Worker.processCompressedPhoto Samples.lengthHash Samples.otherEnv
         (Worker.processCompressedPhoto Samples.lengthHash Samples.sampleEnv
            Samples.sampleWorld (Samples.jobFor "b1" "s1")).2
         (Samples.jobFor "b1" "s2")).2
    = [Wire.PhotoData "b1" b (length b) (Samples.lengthHash b) "image/jpeg";
       Wire.PhotoComplete "b1" (length b) (Samples.lengthHash b)] /\
    b = [Byte.xff; Byte.xd8; Byte.x01].
Proof.
  set (w1 := (Worker.processCompressedPhoto Samples.lengthHash
                Samples.sampleEnv Samples.sampleWorld
                (Samples.jobFor "b1" "s1")).2).
  set (w3 := (Worker.processCompressedPhoto Samples.lengthHash
                Samples.otherEnv w1 (Samples.jobFor "b1" "s2")).2).
  assert (Worker.processCompressedPhoto Samples.lengthHash Samples.sampleEnv
            Samples.sampleWorld (Samples.jobFor "b1" "s1") = (Cache.Ok tt, w1))
    as H1 by (vm_compute; reflexivity).
  assert (Worker.processCompressedPhoto Samples.lengthHash Samples.otherEnv
            w1 (Samples.jobFor "b1" "s2") = (Cache.Ok tt, w3))
    as H2 by (vm_compute; reflexivity).
  destruct (compressed_delivery_deterministic Samples.lengthHash
              Samples.sampleEnv Samples.sampleWorld (Samples.jobFor "b1" "s1")
              w1 Samples.otherEnv w1 (Samples.jobFor "b1" "s2") w3
              H1 (Cache.evolves_refl _) eq_refl eq_refl eq_refl H2)
    as (b & Hfirst & Hsecond).
  exists b. unfold Worker.eventsOf. rewrite Hsecond.
  assert (b = [Byte.xff; Byte.xd8; Byte.x01]) as ->.
  { assert (Worker.emitted w1 !! 0%nat
            = Some ("s1"%string,
                    Wire.PhotoData "b1" [Byte.xff; Byte.xd8; Byte.x01] 3
                                   "3" "image/jpeg")) as Hw1
        by (vm_compute; reflexivity).
    rewrite Hfirst in Hw1. simpl in Hw1. congruence. }
  split; [|reflexivity]. vm_compute. reflexivity.
Defined.



(** ** Photo transfer over a peer link *)

Section PeerTransfer.
Import Js Catalog Wire Cache P2P.

Lemma payload_binary c out : payload (Binary c :: out) = c ++ payload out.
Proof. reflexivity. Qed.

Lemma controlMessages_binary c out :
  controlMessages (Binary c :: out) = controlMessages out.
Proof. reflexivity. Qed.

(** One round of the chunk loop. *)
Lemma sendChunks_round size link fuel k x rest :
  sendChunks size link (S fuel) k (x :: rest) =
    if up link k && sendOk link k then
      (Binary (take size (x :: rest))
         :: (sendChunks size link fuel (S k) (drop size (x :: rest))).1,
       (sendChunks size link fuel (S k) (drop size (x :: rest))).2)
    else ([], None).
Proof. reflexivity. Qed.

(** The chunk loop sends binary chunks only, and what it sends is an
    initial part of the buffer. *)
Lemma sendChunks_prefix size link (fuel : nat) :
  forall k rest,
    controlMessages (sendChunks size link fuel k rest).1 = [] /\
    exists n, payload (sendChunks size link fuel k rest).1 = take n rest.
Proof.
  induction fuel as [|fuel IH]; intros k rest.
  - simpl. split; [reflexivity|]. exists 0%nat. now destruct rest.
  - destruct rest as [|x rest].
    { split; [reflexivity|]. now exists 0%nat. }
    rewrite sendChunks_round.
    destruct (up link k && sendOk link k).
    + destruct (IH (S k) (drop size (x :: rest))) as [Hc [n Hn]].
      cbn [fst]. rewrite controlMessages_binary, payload_binary, Hn.
      split; [exact Hc|]. exists (size + n)%nat. apply take_take_drop.
    + split; [reflexivity|]. now exists 0%nat.
Qed.

(** On a link that stays up the loop sends the whole buffer and runs to
    its end. *)
Lemma sendChunks_complete size link (fuel : nat) :
  (0 < size)%nat ->
  (forall k, up link k = true /\ sendOk link k = true) ->
  forall k rest,
    (length rest <= fuel)%nat ->
    payload (sendChunks size link fuel k rest).1 = rest /\
    exists k', (sendChunks size link fuel k rest).2 = Some k'.
Proof.
  intros Hsize Hup. induction fuel as [|fuel IH]; intros k rest Hlen.
  - destruct rest; [|simpl in Hlen; lia]. simpl. eauto.
  - destruct rest as [|x rest]; [simpl; eauto|].
    rewrite sendChunks_round.
    destruct (Hup k) as [-> ->]. cbn [andb fst snd].
    destruct (IH (S k) (drop size (x :: rest))) as [Hp Hk].
    { rewrite length_drop. simpl in *. lia. }
    split; [|exact Hk]. rewrite payload_binary, Hp. apply take_drop.
Qed.

Lemma sendToPeer_control link k v :
  forall m, m ∈ controlMessages (sendToPeer link k v) -> m = v.
Proof.
  intros m. unfold sendToPeer.
  destruct (up link k), (sendOk link k); simpl;
    rewrite ?elem_of_cons, ?elem_of_nil; tauto.
Qed.

Lemma sendToPeer_payload link k v : payload (sendToPeer link k v) = [].
Proof. unfold sendToPeer. now destruct (up link k), (sendOk link k). Qed.

Lemma payload_app a b : payload (a ++ b) = payload a ++ payload b.
Proof. unfold payload. now rewrite omap_app, concat_app. Qed.

Lemma controlMessages_app a b :
  controlMessages (a ++ b) = controlMessages a ++ controlMessages b.
Proof. unfold controlMessages. apply omap_app. Qed.

(** C10.  When the photo is in the catalog, its file can be read and the
    resampling fails, [sendPhoto] sends no error message: every
    photo-start it sends declares image/jpeg and the size of the
    original file, the binary chunks are an initial part of the
    original file's bytes, and on a link that stays up they are the
    whole file, framed by photo-start and photo-complete. *)
Theorem p2p_fallback_sends_original env link db photoId q d photo raw e :
  getPhotoById db photoId = Some photo ->
  readFileSync env (path photo) = Ok raw ->
  sharpJpeg env (path photo) (from_option (fun d => d) 1920 d)
            (from_option (fun q => q) 60 q)
            (String.eqb (extnameLower env (path photo)) ".png") = Err e ->
  let out := sendPhoto env link db photoId q d in
  (forall v, v ∈ controlMessages out ->
     get v "type" <> JStr "error" /\
     (get v "type" = JStr "photo-start" ->
        get v "mimeType" = JStr "image/jpeg" /\
        get v "size" = JNum (Z.of_nat (length raw)))) /\
  (exists n, payload out = take n raw) /\
  ((forall k, up link k = true /\ sendOk link k = true) ->
     payload out = raw /\
     exists start complete,
       controlMessages out = [start; complete] /\
       get start "type" = JStr "photo-start" /\
       get complete "type" = JStr "photo-complete" /\
       get complete "totalBytes" = JNum (Z.of_nat (length raw))).
Proof.
  intros Hphoto Hread Hsharp. simpl. unfold sendPhoto.
  rewrite Hphoto, Hsharp, Hread.
  destruct (sendChunks_prefix chunkSize link (length raw) 1 raw)
    as [Hctl [n Hn]].
  pose proof (sendChunks_complete chunkSize link (length raw)) as Hfull.
  destruct (sendChunks chunkSize link (length raw) 1 raw)
    as [chunks next] eqn:Hsc.
  simpl in Hctl, Hn.
  split; [|split].
  - intros v. rewrite !controlMessages_app, Hctl, app_nil_l.
    rewrite elem_of_app. intros [Hv|Hv].
    + apply sendToPeer_control in Hv. subst v. now split.
    + destruct next as [k|]; [|now apply elem_of_nil in Hv].
      apply sendToPeer_control in Hv. subst v. split; [easy|]. discriminate.
  - exists n. rewrite !payload_app, sendToPeer_payload, Hn.
    destruct next; simpl; rewrite ?sendToPeer_payload; now rewrite app_nil_r.
  - intros Hup.
    destruct (Hfull ltac:(unfold chunkSize; lia) Hup 1%nat raw (le_n _))
      as [Hp [k' Hk']]. rewrite Hsc in Hp, Hk'. simpl in Hp, Hk'. subst next.
    rewrite !payload_app, !sendToPeer_payload, Hp, app_nil_r.
    split; [reflexivity|].
    rewrite !controlMessages_app, Hctl. unfold sendToPeer.
    destruct (Hup 0%nat) as [-> ->]. destruct (Hup k') as [-> ->]. simpl.
    eexists _, _. split; [reflexivity|]. now repeat split.
Qed.

End PeerTransfer.

(** ** The folder hierarchy *)

Section FolderStrings.
Import Folders.

Lemma str_app_cons (x : Ascii.ascii) (a b : string) :
  String x a +:+ b = String x (a +:+ b).
Proof. reflexivity. Qed.

Lemma str_length_app (a b : string) :
  String.length (a +:+ b) = (String.length a + String.length b)%nat.
Proof.
  induction a as [|c a IH]; [reflexivity|].
  rewrite str_app_cons. simpl. now rewrite IH.
Qed.

Lemma str_app_assoc (a b c : string) : (a +:+ b) +:+ c = a +:+ b +:+ c.
Proof.
  induction a as [|x a IH]; [reflexivity|].
  rewrite !str_app_cons. now f_equal.
Qed.

Lemma splitOn_nonempty sep s : splitOn sep s <> [].
Proof.
  destruct s as [|c s]; simpl; [easy|].
  destruct (Ascii.eqb c sep); [easy|]. now destruct (splitOn sep s).
Qed.

(** Joining the parts of a split gives the string back. *)
Lemma join_split sep s :
  joinWith (String sep EmptyString) (splitOn sep s) = s.
Proof.
  induction s as [|c s IH]; simpl; [reflexivity|].
  pose proof (splitOn_nonempty sep s) as Hne.
  destruct (Ascii.eqb_spec c sep) as [->|_].
  - destruct (splitOn sep s) as [|part parts]; [easy|].
    cbn [joinWith]. cbn [joinWith] in IH. now rewrite IH.
  - destruct (splitOn sep s) as [|part parts]; [easy|].
    cbn [joinWith] in *. destruct parts as [|part' parts].
    + now subst.
    + rewrite <- IH. reflexivity.
Qed.

Lemma joinWith_snoc sep parts part :
  parts <> [] ->
  joinWith sep (parts ++ [part]) = joinWith sep parts +:+ sep +:+ part.
Proof.
  induction parts as [|x parts IH]; [easy|]. intros _.
  destruct parts as [|y parts]; [reflexivity|].
  change (joinWith sep ((x :: y :: parts) ++ [part]))
    with (x +:+ sep +:+ joinWith sep ((y :: parts) ++ [part])).
  rewrite IH by easy.
  change (joinWith sep (x :: y :: parts))
    with (x +:+ sep +:+ joinWith sep (y :: parts)).
  now rewrite !str_app_assoc.
Qed.

(** Dropping the last segment of a non-empty path shortens it. *)
Lemma parent_path_shorter (s : string) :
  s <> EmptyString ->
  (String.length (joinWith "/" (removelast (splitOn slash s)))
   < String.length s)%nat.
Proof.
  intros Hs. pose proof (join_split slash s) as Hjoin.
  pose proof (splitOn_nonempty slash s) as Hne.
  destruct (exists_last Hne) as (parts & part & Hsplit).
  rewrite Hsplit in *. rewrite removelast_last.
  change (String slash EmptyString) with "/"%string in Hjoin.
  destruct parts as [|x parts].
  - simpl in *. subst part. destruct s; [easy|]. simpl. lia.
  - rewrite joinWith_snoc in Hjoin by easy. rewrite <- Hjoin.
    rewrite !str_length_app. simpl. lia.
Qed.

(** The folder path itself closes the list of its ancestors. *)
Lemma ancestorPaths_self (s : string) : s ∈ ancestorPaths s.
Proof.
  unfold ancestorPaths. pose proof (splitOn_nonempty slash s) as Hne.
  pose proof (join_split slash s) as Hjoin.
  change (String slash EmptyString) with "/"%string in Hjoin.
  apply list_elem_of_fmap.
  exists (pred (length (splitOn slash s))). split.
  - rewrite take_ge; [now rewrite Hjoin|]. lia.
  - apply elem_of_seq. destruct (splitOn slash s); [easy|]. simpl. lia.
Qed.

Lemma keyOf_length r f :
  String.length (keyOf r f) = (String.length r + 2 + String.length f)%nat.
Proof. unfold keyOf. rewrite !str_length_app. simpl. lia. Qed.

End FolderStrings.

Section FolderMapFacts.
Import Catalog Folders.

Lemma mapGet_nil key : mapGet [] key = None.
Proof. reflexivity. Qed.

Lemma mapGet_cons k x (m : FolderMap) key :
  mapGet ((k, x) :: m) key = if String.eqb k key then Some x else mapGet m key.
Proof. unfold mapGet. simpl. now destruct (String.eqb k key). Qed.

Lemma mapGet_app (m m' : FolderMap) key :
  mapGet (m ++ m') key =
    match mapGet m key with
    | Some x => Some x
    | None => mapGet m' key
    end.
Proof.
  induction m as [|[k x] m IH]; [reflexivity|].
  rewrite <- app_comm_cons, !mapGet_cons. now destruct (String.eqb k key).
Qed.

Lemma mapGet_elem (m : FolderMap) key x :
  mapGet m key = Some x -> (key, x) ∈ m.
Proof.
  induction m as [|[k y] m IH]; [discriminate|]. rewrite mapGet_cons.
  destruct (String.eqb_spec k key) as [->|_].
  - intros [= ->]. apply list_elem_of_here.
  - intros H. apply list_elem_of_further. auto.
Qed.

Lemma mapGet_none (m : FolderMap) key :
  mapGet m key = None <-> key ∉ map fst m.
Proof.
  induction m as [|[k y] m IH]; simpl.
  - split; [intros _; apply not_elem_of_nil | reflexivity].
  - rewrite mapGet_cons, not_elem_of_cons.
    destruct (String.eqb_spec k key) as [->|Hne]; [split; [easy|tauto]|].
    rewrite IH. split; [now split | tauto].
Qed.

Lemma mapGet_unique (m : FolderMap) key x :
  NoDup (map fst m) -> (key, x) ∈ m -> mapGet m key = Some x.
Proof.
  induction m as [|[k y] m IH]; simpl; intros Hnd Hin.
  - now apply elem_of_nil in Hin.
  - apply NoDup_cons in Hnd as [Hk Hnd]. rewrite mapGet_cons.
    apply elem_of_cons in Hin as [[= -> ->]|Hin].
    + now rewrite String.eqb_refl.
    + destruct (String.eqb_spec k key) as [->|_]; [|auto].
      exfalso. apply Hk. apply list_elem_of_fmap. now exists (key, x).
Qed.

Lemma mapUpdate_keys (m : FolderMap) key f :
  map fst (mapUpdate m key f) = map fst m.
Proof.
  unfold mapUpdate. rewrite map_map. apply map_ext. intros [k x]. simpl.
  now destruct (String.eqb k key).
Qed.

Lemma mapGet_update (m : FolderMap) key f key' :
  mapGet (mapUpdate m key f) key' =
    (if String.eqb key' key then f else fun x => x) <$> mapGet m key'.
Proof.
  induction m as [|[k x] m IH]; [reflexivity|].
  change (mapUpdate ((k, x) :: m) key f)
    with ((if String.eqb k key then (k, f x) else (k, x)) :: mapUpdate m key f).
  destruct (String.eqb_spec k key) as [Hk|Hk]; rewrite !mapGet_cons;
    destruct (String.eqb_spec k key') as [Hk'|Hk']; try exact IH.
  - replace (String.eqb key' key) with true; [reflexivity|].
    symmetry. apply String.eqb_eq. congruence.
  - replace (String.eqb key' key) with false; [reflexivity|].
    symmetry. apply String.eqb_neq. congruence.
Qed.

End FolderMapFacts.

Section FolderCollection.
Import Catalog Folders.
Variable md5 : string -> string.
Variable basename : string -> string.
Variable pathJoin : string -> string -> string.
Variable pathSep : string.

#[local] Abbreviation ensure :=
  (ensureFolderExists md5 basename pathJoin pathSep).
#[local] Abbreviation collect := (collectPhoto md5 basename pathJoin pathSep).

Lemma mapHas_get (m : FolderMap) key :
  mapHas m key = true <-> exists x, mapGet m key = Some x.
Proof.
  unfold mapHas. destruct (mapGet m key); split; eauto; try easy.
  now intros [x Hx].
Qed.

Lemma mapHas_update (m : FolderMap) key f k :
  mapHas m k = true -> mapHas (mapUpdate m key f) k = true.
Proof.
  intros Hk. apply mapHas_get in Hk as [x Hx]. apply mapHas_get.
  rewrite mapGet_update, Hx. simpl. eauto.
Qed.

Lemma ensure_has m r f : mapHas (ensure m r f) (keyOf r f) = true.
Proof.
  unfold ensureFolderExists.
  destruct (mapHas m (keyOf r f)) eqn:Hhas; [exact Hhas|].
  unfold mapHas in *. rewrite mapGet_app.
  destruct (mapGet m (keyOf r f)); [easy|].
  now rewrite mapGet_cons, String.eqb_refl.
Qed.

Lemma ensure_extends m r f : extends m (ensure m r f).
Proof.
  unfold ensureFolderExists, extends.
  destruct (mapHas m (keyOf r f)) eqn:Hhas.
  - split; [auto | congruence].
  - split; intros k x Hk; rewrite mapGet_app, Hk; [reflexivity|].
    rewrite mapGet_cons, mapGet_nil.
    destruct (String.eqb _ k); [|discriminate]. now intros [= <-].
Qed.

Lemma ensure_wellKeyed m r f : wellKeyed m -> wellKeyed (ensure m r f).
Proof.
  intros [Hnd Hkeys]. unfold ensureFolderExists.
  destruct (mapHas m (keyOf r f)) eqn:Hhas; [now split|].
  split.
  - rewrite map_app. simpl. apply NoDup_app. split; [exact Hnd|].
    split; [|apply NoDup_singleton].
    intros k Hk Hk'. apply list_elem_of_singleton in Hk'. subst k.
    unfold mapHas in Hhas.
    destruct (mapGet m (keyOf r f)) eqn:Hget; [discriminate|].
    now apply mapGet_none in Hget.
  - intros k x Hin. apply elem_of_app in Hin as [Hin|Hin]; [auto|].
    apply list_elem_of_singleton in Hin. now injection Hin as -> ->.
Qed.

Lemma extends_refl m : extends m m.
Proof. split; [auto | congruence]. Qed.

Lemma extends_trans m1 m2 m3 : extends m1 m2 -> extends m2 m3 -> extends m1 m3.
Proof.
  intros [H12 N12] [H23 N23]. split.
  - auto.
  - intros k x Hk1 Hk3. destruct (mapGet m2 k) as [y|] eqn:Hk2.
    + rewrite (H23 _ _ Hk2) in Hk3. injection Hk3 as <-. eauto.
    + eauto.
Qed.

(** The ensuring steps for one photo. *)
Lemma ensure_all m r (paths : list string) :
  wellKeyed m ->
  let m' := foldl (fun m a => ensure m r a) m paths in
  wellKeyed m' /\ extends m m' /\
  (forall a, a ∈ paths -> mapHas m' (keyOf r a) = true).
Proof.
  revert m. induction paths as [|a paths IH]; intros m Hwk; simpl.
  - split; [exact Hwk|]. split; [apply extends_refl|].
    intros a Ha. now apply elem_of_nil in Ha.
  - destruct (IH (ensure m r a) (ensure_wellKeyed _ r a Hwk))
      as (Hwk' & Hext & Hhas).
    split; [exact Hwk'|]. split.
    + eapply extends_trans; [apply ensure_extends | exact Hext].
    + intros b Hb. apply elem_of_cons in Hb as [->|Hb]; [|auto].
      pose proof (ensure_has m r a) as Ha.
      apply mapHas_get in Ha as [x Hx]. apply mapHas_get.
      exists x. now apply Hext.
Qed.

Lemma collect_unfold m photo :
  collect m photo =
    mapUpdate (foldl (fun m a => ensure m (rootPath photo) a) m
                     (ensuredPaths photo))
      (photoKey photo)
      (fun folder =>
         mkFolderObj (fid folder) (fRootPath folder) (fFolderPath folder)
                     (displayName folder) (fullPath folder)
                     (S (photoCount folder)) (subfolders folder)).
Proof.
  unfold collectPhoto, ensuredPaths.
  now destruct (negb (String.eqb (folderPath photo) "")).
Qed.

Lemma ensuredPaths_self photo : folderPath photo ∈ ensuredPaths photo.
Proof.
  unfold ensuredPaths.
  destruct (String.eqb_spec (folderPath photo) "") as [->|_]; simpl.
  - apply list_elem_of_here.
  - apply list_elem_of_further, ancestorPaths_self.
Qed.

Lemma mapUpdate_elem (m : FolderMap) key f k x' :
  (k, x') ∈ mapUpdate m key f ->
  exists x, (k, x) ∈ m /\ (x' = x \/ x' = f x).
Proof.
  unfold mapUpdate. intros Hin. apply list_elem_of_fmap in Hin as ([k0 x] & Heq & Hin).
  simpl in Heq. destruct (String.eqb k0 key); injection Heq as -> ->; eauto.
Qed.

Lemma directCount_snoc db photo key :
  directCount (db ++ [photo]) key =
    (directCount db key + if decide (photoKey photo = key) then 1 else 0)%nat.
Proof.
  unfold directCount. rewrite filter_app, length_app. f_equal.
  rewrite filter_cons, filter_nil. now destruct (decide _).
Qed.

Lemma directCount_absent db (m : FolderMap) key :
  counted db m -> mapGet m key = None -> directCount db key = 0%nat.
Proof.
  intros [_ Hhas] Hnone. unfold directCount.
  destruct (filter _ db) as [|photo l] eqn:Hf; [reflexivity|]. exfalso.
  assert (photo ∈ filter (fun photo => photoKey photo = key) db) as Hin
      by (rewrite Hf; apply list_elem_of_here).
  apply list_elem_of_filter in Hin as [Hkey Hin].
  apply Hhas in Hin. apply mapHas_get in Hin as [x Hx]. congruence.
Qed.

(** One photo: its folders are ensured and the count of its own folder
    goes up by one. *)
Lemma collect_step db m photo :
  wellKeyed m -> counted db m -> noRefs m ->
  let m' := collect m photo in
  wellKeyed m' /\ counted (db ++ [photo]) m' /\ noRefs m' /\
  (forall k, mapHas m k = true -> mapHas m' k = true) /\
  (forall a, a ∈ ensuredPaths photo ->
             mapHas m' (keyOf (rootPath photo) a) = true).
Proof.
  intros Hwk Hcount Hrefs. simpl. rewrite collect_unfold.
  destruct (ensure_all m (rootPath photo) (ensuredPaths photo) Hwk)
    as ([Hnd Hkeys] & [Hold Hnew] & Hhas).
  set (m2 := foldl _ m (ensuredPaths photo)) in *.
  pose proof (fun f k => mapHas_update m2 (photoKey photo) f k) as Hupd.
  assert (forall k, mapHas m k = true -> mapHas m2 k = true) as Hmono.
  { intros k Hk. apply mapHas_get in Hk as [x Hx]. apply mapHas_get. eauto. }
  split; [|split; [|split; [|split]]].
  - split; [now rewrite mapUpdate_keys|].
    intros k x' Hin. apply mapUpdate_elem in Hin as (x & Hin & [->| ->]);
      simpl; now apply Hkeys.
  - split.
    + intros k x'. rewrite mapGet_update, directCount_snoc.
      destruct (mapGet m2 k) as [x|] eqn:Hk2; [|discriminate].
      assert (photoCount x = directCount db k) as Hx.
      { destruct (mapGet m k) as [x0|] eqn:Hk.
        - rewrite (Hold _ _ Hk) in Hk2. injection Hk2 as <-.
          now apply Hcount.
        - destruct (Hnew _ _ Hk Hk2) as [-> _].
          now rewrite (directCount_absent _ _ _ Hcount Hk). }
      simpl. intros [= <-].
      destruct (String.eqb_spec k (photoKey photo)) as [->|Hne]; simpl.
      * rewrite decide_True by reflexivity. lia.
      * rewrite decide_False by congruence. lia.
    + intros q Hq. apply Hupd.
      apply elem_of_app in Hq as [Hq|Hq].
      * apply Hmono. now apply Hcount.
      * apply list_elem_of_singleton in Hq. subst q.
        apply Hhas, ensuredPaths_self.
  - intros k x'. rewrite mapGet_update.
    destruct (mapGet m2 k) as [x|] eqn:Hk2; [|discriminate].
    assert (subfolders x = []) as Hx.
    { destruct (mapGet m k) as [x0|] eqn:Hk.
      - rewrite (Hold _ _ Hk) in Hk2. injection Hk2 as <-. eauto.
      - now destruct (Hnew _ _ Hk Hk2). }
    simpl. intros [= <-]. now destruct (String.eqb k (photoKey photo)).
  - auto.
  - intros a Ha. apply Hupd. auto.
Qed.

(** What holds of the map once every photo has been collected. *)
Lemma collectFolders_inv (db : list PhotoRecord) :
  let m := collectFolders md5 basename pathJoin pathSep db in
  wellKeyed m /\ counted db m /\ noRefs m /\
  (forall photo a, photo ∈ db -> a ∈ ensuredPaths photo ->
                   mapHas m (keyOf (rootPath photo) a) = true).
Proof.
  induction db as [|photo db IH] using rev_ind; simpl.
  - split; [split; [constructor | intros k x H; now apply elem_of_nil in H]|].
    split; [split; [discriminate | intros p H; now apply elem_of_nil in H]|].
    split; [discriminate|]. intros p a H. now apply elem_of_nil in H.
  - unfold collectFolders. rewrite foldl_snoc.
    destruct IH as (Hwk & Hcount & Hrefs & Hanc).
    destruct (collect_step db _ photo Hwk Hcount Hrefs)
      as (Hwk' & Hcount' & Hrefs' & Hmono & Hhas).
    split; [exact Hwk'|]. split; [exact Hcount'|]. split; [exact Hrefs'|].
    intros q a Hq Ha. apply elem_of_app in Hq as [Hq|Hq].
    + apply Hmono. now apply Hanc.
    + apply list_elem_of_singleton in Hq. subst q. now apply Hhas.
Qed.

End FolderCollection.

Section FolderHierarchy.
Import Catalog Folders.

Lemma sameFolders_refl m : sameFolders m m.
Proof. unfold sameFolders. induction m; constructor; auto. Qed.

Lemma sameFolders_update m h key f :
  (forall x, stripped (f x) = stripped x) ->
  sameFolders m h -> sameFolders m (mapUpdate h key f).
Proof.
  intros Hf. unfold sameFolders.
  induction 1 as [|[k x] [k' x'] m h [Hk Hx] _ IH]; [constructor|].
  simpl in *. constructor; [|exact IH].
  destruct (String.eqb k' key); simpl; [|easy]. now rewrite Hf.
Qed.

Lemma sameFolders_keys m h : sameFolders m h -> map fst h = map fst m.
Proof.
  induction 1 as [|a b m h [Hk _] _ IH]; [reflexivity|].
  simpl. now rewrite IH, Hk.
Qed.

Lemma sameFolders_get m h key x :
  sameFolders m h -> mapGet h key = Some x ->
  exists x0, mapGet m key = Some x0 /\ stripped x = stripped x0.
Proof.
  induction 1 as [|[k x0] [k' x'] m h [Hk Hx] _ IH]; [discriminate|].
  simpl in *. subst k'. rewrite !mapGet_cons.
  destruct (String.eqb k key); [|exact IH].
  intros [= <-]. eauto.
Qed.

Lemma sameFolders_elem m h k x :
  sameFolders m h -> (k, x) ∈ h ->
  exists x0, (k, x0) ∈ m /\ stripped x = stripped x0.
Proof.
  induction 1 as [|[k0 x0] [k' x'] m h [Hk Hx] _ IH]; intros Hin.
  - now apply elem_of_nil in Hin.
  - simpl in *. subst k'. apply elem_of_cons in Hin as [[= -> ->]|Hin].
    + exists x0. split; [apply list_elem_of_here | easy].
    + destruct (IH Hin) as (y & Hy & Hs). exists y.
      split; [now apply list_elem_of_further | exact Hs].
Qed.

Lemma stripped_fields x y :
  stripped x = stripped y ->
  photoCount x = photoCount y /\ fRootPath x = fRootPath y /\
  fFolderPath x = fFolderPath y.
Proof. unfold stripped. now intros [= _ -> -> _ _ ->]. Qed.

(** Pushing a folder onto its parent keeps the references deeper. *)
Lemma attach_inv m h key folder :
  key = keyOf (fRootPath folder) (fFolderPath folder) ->
  sameFolders m h -> refsDeeper h ->
  sameFolders m (attach h (key, folder)) /\ refsDeeper (attach h (key, folder)).
Proof.
  intros Hkey Hsame Hdeep. unfold attach.
  destruct (String.eqb_spec (fFolderPath folder) "") as [_|Hpath]; [easy|].
  destruct (mapGet h (parentKeyOf folder)) as [parent|] eqn:Hparent; [|easy].
  destruct (existsb _ _); [easy|]. split.
  - now apply sameFolders_update.
  - intros k x'. rewrite mapGet_update.
    destruct (mapGet h k) as [x|] eqn:Hk; [|discriminate]. simpl.
    intros [= <-] ref Href.
    destruct (String.eqb_spec k (parentKeyOf folder)) as [->|_]; [|eauto].
    simpl in Href. apply elem_of_app in Href as [Href|Href]; [eauto|].
    apply list_elem_of_singleton in Href. subst ref key.
    unfold parentKeyOf. rewrite !keyOf_length.
    pose proof (parent_path_shorter _ Hpath). lia.
Qed.

Lemma attach_all m (entries : list (string * FolderObj)) :
  forall h,
    (forall key folder, (key, folder) ∈ entries ->
                        key = keyOf (fRootPath folder) (fFolderPath folder)) ->
    sameFolders m h -> refsDeeper h ->
    sameFolders m (foldl attach h entries) /\
    refsDeeper (foldl attach h entries).
Proof.
  induction entries as [|[key folder] entries IH]; intros h Hkeys Hsame Hdeep;
    [easy|].
  simpl. destruct (attach_inv m h key folder) as [Hsame' Hdeep']; auto.
  { apply Hkeys, list_elem_of_here. }
  apply IH; auto. intros k f Hin. now apply Hkeys, list_elem_of_further.
Qed.

(** The hierarchy has the collected folders, with references that only
    point to longer keys. *)
Lemma buildHierarchy_inv m :
  wellKeyed m -> noRefs m ->
  sameFolders m (buildHierarchy m) /\ refsDeeper (buildHierarchy m) /\
  wellKeyed (buildHierarchy m).
Proof.
  intros [Hnd Hkeys] Hrefs. unfold buildHierarchy.
  destruct (attach_all m m m Hkeys (sameFolders_refl m)) as [Hsame Hdeep].
  { intros k x Hk ref Href. rewrite (Hrefs _ _ Hk) in Href.
    now apply elem_of_nil in Href. }
  split; [exact Hsame|]. split; [exact Hdeep|]. split.
  - now rewrite (sameFolders_keys _ _ Hsame).
  - intros k x Hin.
    destruct (sameFolders_elem _ _ _ _ Hsame Hin) as (x0 & Hin0 & Hs).
    apply stripped_fields in Hs as (_ & -> & ->). now apply Hkeys.
Qed.

End FolderHierarchy.

Section FolderTrees.
Import Catalog Folders.

Lemma sum_filter_positive (l : list FolderTree) :
  sum_list (map totalOf (filter (fun t => 0 < totalOf t)%nat l))
  = sum_list (map totalOf l).
Proof.
  induction l as [|t l IH]; [reflexivity|].
  rewrite filter_cons. destruct (decide (0 < totalOf t)%nat); simpl; lia.
Qed.

(** The subfolders that [calculateRecursiveCount] has counted. *)
Lemma calculateRecursiveCount_subs fuel m folder sub :
  sub ∈ subsOf (calculateRecursiveCount (S fuel) m folder) ->
  (0 < totalOf sub)%nat /\
  exists ref child,
    ref ∈ subfolders folder /\ mapGet m ref = Some child /\
    sub = calculateRecursiveCount fuel m child.
Proof.
  simpl. intros Hin. apply list_elem_of_filter in Hin as [Hpos Hin].
  split; [exact Hpos|].
  apply list_elem_of_fmap in Hin as (child & -> & Hin).
  apply list_elem_of_omap in Hin as (ref & Href & Hget). eauto.
Qed.

Lemma calculateRecursiveCount_root fuel m folder :
  folderOf (calculateRecursiveCount fuel m folder) = folder /\
  totalOf (calculateRecursiveCount fuel m folder) =
    (photoCount folder +
     sum_list (map totalOf (subsOf (calculateRecursiveCount fuel m folder))))%nat.
Proof.
  destruct fuel; simpl; [easy|]. now rewrite sum_filter_positive.
Qed.

(** Every node of a counted tree satisfies the sum equation, every node
    below the top has a positive total, and every folder below the top
    is an object of the map. *)
Lemma calculateRecursiveCount_nodes m (fuel : nat) :
  forall folder node,
    nodeOf node (calculateRecursiveCount fuel m folder) ->
    (node = calculateRecursiveCount fuel m folder \/ (0 < totalOf node)%nat) /\
    totalOf node =
      (photoCount (folderOf node) + sum_list (map totalOf (subsOf node)))%nat /\
    (folderOf node = folder \/ exists ref, mapGet m ref = Some (folderOf node)).
Proof.
  induction fuel as [|fuel IH]; intros folder node Hnode.
  - inversion Hnode as [|f t subs sub Hsub _ Heq]; subst.
    + split; [now left|]. split; [apply calculateRecursiveCount_root|].
      left. apply calculateRecursiveCount_root.
    + simpl in *. now apply elem_of_nil in Hsub.
  - inversion Hnode as [Heq|f t subs sub Hsub Hrest Heq].
    + split; [now left|]. split; [apply calculateRecursiveCount_root|].
      left. apply calculateRecursiveCount_root.
    + assert (sub ∈ subsOf (calculateRecursiveCount (S fuel) m folder))
        as Hsub' by exact Hsub.
      apply calculateRecursiveCount_subs in Hsub'
        as (Hpos & ref & child & Href & Hget & ->).
      destruct (IH child node Hrest) as ([->|Hp] & Hsum & Hfolder).
      * split; [now right|]. split; [exact Hsum|]. right. exists ref.
        now rewrite (proj1 (calculateRecursiveCount_root fuel m child)).
      * split; [now right|]. split; [exact Hsum|]. right.
        destruct Hfolder as [->|Hex]; eauto.
Qed.

Lemma key_length_bound (m : FolderMap) key x :
  mapGet m key = Some x ->
  (String.length key <= max_list (map (fun kv => String.length kv.1) m))%nat.
Proof.
  intros Hget. apply mapGet_elem in Hget. apply max_list_elem_of_le.
  apply list_elem_of_fmap. now exists (key, x).
Qed.

(** Beyond the depth bound more fuel changes nothing. *)
Lemma fuel_enough m :
  refsDeeper m ->
  forall (n : nat) key x,
    mapGet m key = Some x ->
    (max_list (map (fun kv => String.length kv.1) m) < n + String.length key)%nat ->
    forall n', (n <= n')%nat ->
      calculateRecursiveCount n' m x = calculateRecursiveCount n m x.
Proof.
  intros Hdeep. induction n as [|n IH]; intros key x Hget Hbound n' Hn'.
  - pose proof (key_length_bound m key x Hget). lia.
  - destruct n' as [|n']; [lia|]. simpl.
    assert (map (calculateRecursiveCount n' m) (omap (mapGet m) (subfolders x))
            = map (calculateRecursiveCount n m) (omap (mapGet m) (subfolders x)))
      as ->; [|reflexivity].
    apply map_ext_in. intros child Hin. apply list_elem_of_In in Hin.
    apply list_elem_of_omap in Hin as (ref & Href & Hchild).
    apply (IH ref child Hchild); [|lia].
    pose proof (Hdeep key x Hget ref Href). lia.
Qed.

End FolderTrees.

Section FolderAncestors.
Import Catalog Folders.

Lemma splitOn_app sep (a b : string) :
  splitOn sep (a +:+ String sep b) = splitOn sep a ++ splitOn sep b.
Proof.
  induction a as [|c a IH].
  - simpl. now rewrite Ascii.eqb_refl.
  - rewrite str_app_cons. simpl. rewrite IH.
    destruct (Ascii.eqb c sep); [reflexivity|].
    pose proof (splitOn_nonempty sep a) as Hne.
    now destruct (splitOn sep a).
Qed.

(** The parts of a split hold no separator. *)
Lemma splitOn_parts sep (s : string) :
  Forall (fun part => splitOn sep part = [part]) (splitOn sep s).
Proof.
  induction s as [|c s IH]; simpl; [now constructor|].
  destruct (Ascii.eqb c sep) eqn:Hc; [now constructor|].
  pose proof (splitOn_nonempty sep s) as Hne.
  destruct (splitOn sep s) as [|part parts]; [easy|].
  apply Forall_cons in IH as [Hpart Hparts].
  constructor; [|exact Hparts]. simpl. now rewrite Hc, Hpart.
Qed.

(** Splitting what was joined gives the parts back. *)
Lemma splitOn_join sep (parts : list string) :
  parts <> [] ->
  Forall (fun part => splitOn sep part = [part]) parts ->
  splitOn sep (joinWith (String sep EmptyString) parts) = parts.
Proof.
  induction parts as [|p parts IH]; [easy|]. intros _ Hall.
  apply Forall_cons in Hall as [Hp Hparts].
  destruct parts as [|q parts]; [exact Hp|].
  change (joinWith (String sep EmptyString) (p :: q :: parts))
    with (p +:+ String sep (joinWith (String sep EmptyString) (q :: parts))).
  rewrite splitOn_app, Hp, IH by easy. reflexivity.
Qed.

Lemma joinWith_app sep (l1 l2 : list string) :
  l1 <> [] -> l2 <> [] ->
  joinWith sep (l1 ++ l2) = joinWith sep l1 +:+ sep +:+ joinWith sep l2.
Proof.
  induction l1 as [|x l1 IH]; [easy|]. intros _ Hl2.
  destruct l1 as [|y l1].
  - simpl. destruct l2; [easy | reflexivity].
  - change (joinWith sep ((x :: y :: l1) ++ l2))
      with (x +:+ sep +:+ joinWith sep ((y :: l1) ++ l2)).
    rewrite IH by easy.
    change (joinWith sep (x :: y :: l1))
      with (x +:+ sep +:+ joinWith sep (y :: l1)).
    now rewrite !str_app_assoc.
Qed.

(** The ancestor paths that the code walks through are the folders
    that the path lies in or is. *)
Lemma ancestorPaths_spec (s a : string) :
  a ∈ ancestorPaths s <-> ancestorOrSelf a s.
Proof.
  unfold ancestorPaths, ancestorOrSelf.
  pose proof (join_split slash s) as Hjoin.
  pose proof (splitOn_nonempty slash s) as Hne.
  change (String slash EmptyString) with "/"%string in Hjoin.
  split.
  - intros Hin. apply list_elem_of_fmap in Hin as (i & -> & Hi).
    apply elem_of_seq in Hi. destruct Hi as [_ Hi]. simpl in Hi.
    destruct (decide (S i = length (splitOn slash s))) as [Hlast|Hmore].
    + left. rewrite take_ge by lia. exact Hjoin.
    + right. exists (joinWith "/" (drop (S i) (splitOn slash s))).
      rewrite <- joinWith_app.
      * now rewrite take_drop.
      * intros Hnil. apply (f_equal length) in Hnil.
        rewrite length_take in Hnil. change (length []) with 0%nat in Hnil. lia.
      * intros Hnil. apply (f_equal length) in Hnil.
        rewrite length_drop in Hnil. change (length []) with 0%nat in Hnil. lia.
  - intros [->|[rest ->]].
    + apply ancestorPaths_self.
    + change ("/" +:+ rest)%string with (String slash rest).
      rewrite splitOn_app. pose proof (splitOn_nonempty slash a) as Ha.
      pose proof (splitOn_nonempty slash rest) as Hrest.
      apply list_elem_of_fmap. exists (pred (length (splitOn slash a))).
      split.
      * replace (S (pred (length (splitOn slash a))))
          with (length (splitOn slash a))
          by (destruct (splitOn slash a); [easy | reflexivity]).
        rewrite take_app_length.
        pose proof (join_split slash a) as Hjoin'.
        change (String slash EmptyString) with "/"%string in Hjoin'.
        now rewrite Hjoin'.
      * apply elem_of_seq. rewrite length_app.
        destruct (splitOn slash a); [easy|]. simpl. lia.
Qed.

Lemma ensuredPaths_spec photo (a : string) :
  a ∈ ensuredPaths photo <-> folderAbove photo a.
Proof.
  unfold ensuredPaths, folderAbove. rewrite elem_of_cons.
  destruct (String.eqb_spec (folderPath photo) "") as [Hroot|Hsub]; simpl.
  - rewrite Hroot. split; [intros [->|Hin]; [now left|]|].
    + now apply elem_of_nil in Hin.
    + intros [->|[->|[rest Hrest]]]; [now left | now left |].
      destruct a; discriminate Hrest.
  - now rewrite ancestorPaths_spec.
Qed.

End FolderAncestors.

Section FolderOrigins.
Import Catalog Folders.
Variable md5 : string -> string.
Variable basename : string -> string.
Variable pathJoin : string -> string -> string.
Variable pathSep : string.

Lemma fromPhotos_ensure db m photo a :
  fromPhotos md5 db m -> photo ∈ db -> a ∈ ensuredPaths photo ->
  fromPhotos md5 db
    (ensureFolderExists md5 basename pathJoin pathSep m (rootPath photo) a).
Proof.
  intros Hm Hphoto Ha. unfold ensureFolderExists.
  destruct (mapHas m (keyOf (rootPath photo) a)); [exact Hm|].
  intros k x Hin. apply elem_of_app in Hin as [Hin|Hin]; [now apply Hm|].
  apply list_elem_of_singleton in Hin. injection Hin as -> ->. simpl.
  split; [reflexivity|]. now exists photo.
Qed.

Lemma fromPhotos_collect db m photo :
  fromPhotos md5 db m -> photo ∈ db ->
  fromPhotos md5 db (collectPhoto md5 basename pathJoin pathSep m photo).
Proof.
  intros Hm Hphoto. rewrite collect_unfold.
  assert (forall paths m0,
            (forall a, a ∈ paths -> a ∈ ensuredPaths photo) ->
            fromPhotos md5 db m0 ->
            fromPhotos md5 db
              (foldl (fun m a =>
                        ensureFolderExists md5 basename pathJoin pathSep m
                                           (rootPath photo) a) m0 paths))
    as Hall.
  { induction paths as [|a paths IH]; intros m0 Hsub Hm0; [exact Hm0|].
    simpl. apply IH.
    - intros b Hb. now apply Hsub, list_elem_of_further.
    - apply fromPhotos_ensure; [exact Hm0 | exact Hphoto|].
      apply Hsub, list_elem_of_here. }
  specialize (Hall (ensuredPaths photo) m (fun a Ha => Ha) Hm).
  intros k x' Hin. apply mapUpdate_elem in Hin as (x & Hin & Hx).
  specialize (Hall k x Hin). now destruct Hx as [->| ->].
Qed.

Lemma collectFolders_fromPhotos (db : list PhotoRecord) :
  fromPhotos md5 db (collectFolders md5 basename pathJoin pathSep db).
Proof.
  induction db as [|photo db IH] using rev_ind.
  - intros k x Hin. now apply elem_of_nil in Hin.
  - unfold collectFolders. rewrite foldl_snoc. apply fromPhotos_collect.
    + intros k x Hin. destruct (IH k x Hin) as (Hid & p & Hp & Hroot & Hpath).
      split; [exact Hid|]. exists p. split; [|easy].
      apply elem_of_app. now left.
    + apply elem_of_app. right. apply list_elem_of_here.
Qed.

End FolderOrigins.

Section FolderAttachment.
Import Catalog Folders.

Lemma sameFolders_has m h key x :
  sameFolders m h -> mapGet m key = Some x ->
  exists x', mapGet h key = Some x' /\ stripped x' = stripped x.
Proof.
  induction 1 as [|[k x0] [k' x'] m h [Hk Hx] _ IH]; [discriminate|].
  simpl in *. subst k'. rewrite !mapGet_cons.
  destruct (String.eqb k key); [|exact IH].
  intros [= <-]. eauto.
Qed.

Lemma stripped_fid x y : stripped x = stripped y -> fid x = fid y.
Proof. unfold stripped. now intros [= -> _ _ _ _ _]. Qed.

Lemma existsb_elem {A} (f : A -> bool) (l : list A) :
  existsb f l = true <-> exists x, x ∈ l /\ f x = true.
Proof.
  rewrite existsb_exists. split; intros (x & Hin & Hx); exists x;
    (split; [now apply list_elem_of_In | exact Hx]).
Qed.

(** One visit of [folders.forEach] keeps the references below their
    holders. *)
Lemma attach_refsBelow m h key folder :
  (key, folder) ∈ m -> refsBelow m h -> refsBelow m (attach h (key, folder)).
Proof.
  intros Hin Hrefs. unfold attach.
  destruct (String.eqb_spec (fFolderPath folder) "") as [Hroot|Hpath];
    [exact Hrefs|].
  destruct (mapGet h (parentKeyOf folder)) as [parent|]; [|exact Hrefs].
  destruct (existsb _ (subfolders parent)); [exact Hrefs|].
  intros k x' ref. rewrite mapGet_update.
  destruct (mapGet h k) as [x|] eqn:Hk; [|discriminate]. simpl.
  intros [= <-] Href.
  destruct (String.eqb_spec k (parentKeyOf folder)) as [->|_];
    [|now apply (Hrefs k x)].
  simpl in Href. apply elem_of_app in Href as [Href|Href];
    [now apply (Hrefs _ x)|].
  apply list_elem_of_singleton in Href. subst ref.
  exists folder. split; [exact Hin|]. split; [exact Hpath | reflexivity].
Qed.

(** One visit of [folders.forEach] attaches the folder it visits. *)
Lemma attach_step m h done key folder :
  wellKeyed m ->
  (forall k1 x1 k2 x2, (k1, x1) ∈ m -> (k2, x2) ∈ m ->
                       fid x1 = fid x2 -> k1 = k2) ->
  sameFolders m h -> (key, folder) ∈ m -> refsBelow m h ->
  attached m h done ->
  attached m (attach h (key, folder)) (done ++ [(key, folder)]).
Proof.
  intros [Hnd Hkeys] Hids Hsame Hin Hrefs Hdone. unfold attach.
  destruct (String.eqb_spec (fFolderPath folder) "") as [Hroot|Hpath].
  { intros ck c Hc Hsub k -> Hparent.
    apply elem_of_app in Hc as [Hc|Hc]; [now apply (Hdone ck c)|].
    apply list_elem_of_singleton in Hc. injection Hc as -> ->. easy. }
  unfold parentKeyOf.
  set (pk := keyOf (fRootPath folder)
               (joinWith "/" (removelast (splitOn slash (fFolderPath folder))))).
  destruct (mapGet h pk) as [parent|] eqn:Hparent.
  2: { intros ck c Hc Hsub k -> [p0 Hp0].
       apply elem_of_app in Hc as [Hc|Hc]; [now apply (Hdone ck c); eauto|].
       apply list_elem_of_singleton in Hc. injection Hc as -> ->.
       destruct (sameFolders_has _ _ _ _ Hsame Hp0) as (p' & Hp' & _).
       fold pk in Hp'. congruence. }
  destruct (existsb _ (subfolders parent)) eqn:Hfound.
  - intros ck c Hc Hsub k -> Hp0.
    apply elem_of_app in Hc as [Hc|Hc]; [now apply (Hdone ck c)|].
    apply list_elem_of_singleton in Hc. injection Hc as -> ->.
    fold pk. exists parent. split; [exact Hparent|].
    apply existsb_elem in Hfound as (ref & Href & Hsame_id).
    destruct (mapGet h ref) as [sf|] eqn:Hsf; [|discriminate].
    apply String.eqb_eq in Hsame_id.
    destruct (Hrefs _ _ _ Hparent Href) as (y & Hy & _).
    destruct (sameFolders_get _ _ _ _ Hsame Hsf) as (y0 & Hy0 & Hstripped).
    rewrite (mapGet_unique _ _ _ Hnd Hy) in Hy0. injection Hy0 as <-.
    apply stripped_fid in Hstripped.
    rewrite (Hids key folder ref y Hin Hy) by congruence. exact Href.
  - intros ck c Hc Hsub k -> Hp0. rewrite mapGet_update.
    apply elem_of_app in Hc as [Hc|Hc].
    + destruct (Hdone ck c Hc Hsub _ eq_refl Hp0) as (p' & -> & Hp'ref).
      simpl. eexists. split; [reflexivity|].
      destruct (String.eqb _ pk); [|exact Hp'ref].
      simpl. apply elem_of_app. now left.
    + apply list_elem_of_singleton in Hc. injection Hc as -> ->.
      fold pk. rewrite Hparent, String.eqb_refl. simpl.
      eexists. split; [reflexivity|]. simpl.
      apply elem_of_app. right. apply list_elem_of_here.
Qed.

Lemma attach_all_attached m (entries : list (string * FolderObj)) :
  wellKeyed m ->
  (forall k1 x1 k2 x2, (k1, x1) ∈ m -> (k2, x2) ∈ m ->
                       fid x1 = fid x2 -> k1 = k2) ->
  forall done h,
    (forall e, e ∈ entries -> e ∈ m) ->
    sameFolders m h -> refsDeeper h -> refsBelow m h -> attached m h done ->
    refsBelow m (foldl attach h entries) /\
    attached m (foldl attach h entries) (done ++ entries).
Proof.
  intros Hwk Hids.
  induction entries as [|[key folder] entries IH];
    intros done h Hsub Hsame Hdeep Hrefs Hdone.
  - now rewrite app_nil_r.
  - simpl.
    assert ((key, folder) ∈ m) as Hin by apply Hsub, list_elem_of_here.
    destruct (attach_inv m h key folder) as [Hsame' Hdeep']; auto.
    { now apply (proj2 Hwk). }
    replace (done ++ (key, folder) :: entries)
      with ((done ++ [(key, folder)]) ++ entries)
      by (now rewrite <- app_assoc).
    apply IH; auto.
    + intros e He. now apply Hsub, list_elem_of_further.
    + now apply attach_refsBelow.
    + now apply attach_step.
Qed.

Lemma attach_all_refsBelow m (entries : list (string * FolderObj)) :
  forall h,
    (forall e, e ∈ entries -> e ∈ m) -> refsBelow m h ->
    refsBelow m (foldl attach h entries).
Proof.
  induction entries as [|[key folder] entries IH]; intros h Hsub Hrefs;
    [exact Hrefs|].
  simpl. apply IH.
  - intros e He. now apply Hsub, list_elem_of_further.
  - apply attach_refsBelow; [|exact Hrefs]. apply Hsub, list_elem_of_here.
Qed.

(** The references of the hierarchy follow the folder paths. *)
Lemma buildHierarchy_refsBelow m : noRefs m -> refsBelow m (buildHierarchy m).
Proof.
  intros Hrefs. unfold buildHierarchy. apply attach_all_refsBelow; [auto|].
  intros k x ref Hk Href. rewrite (Hrefs _ _ Hk) in Href.
  now apply elem_of_nil in Href.
Qed.

(** When no two folders share an id, the hierarchy refers to every
    folder below a root from its parent. *)
Lemma buildHierarchy_attached m :
  wellKeyed m -> noRefs m ->
  (forall k1 x1 k2 x2, (k1, x1) ∈ m -> (k2, x2) ∈ m ->
                       fid x1 = fid x2 -> k1 = k2) ->
  attached m (buildHierarchy m) m.
Proof.
  intros Hwk Hrefs Hids. unfold buildHierarchy.
  apply (attach_all_attached m m Hwk Hids [] m); [auto | | | |].
  - apply sameFolders_refl.
  - intros k x Hk ref Href. rewrite (Hrefs _ _ Hk) in Href.
    now apply elem_of_nil in Href.
  - intros k x ref Hk Href. rewrite (Hrefs _ _ Hk) in Href.
    now apply elem_of_nil in Href.
  - intros ck c Hc. now apply elem_of_nil in Hc.
Qed.

End FolderAttachment.

Section FolderReach.
Import Catalog Folders.
Variable md5 : string -> string.
Variable basename : string -> string.
Variable pathJoin : string -> string -> string.
Variable pathSep : string.

#[local] Abbreviation collected :=
  (collectFolders md5 basename pathJoin pathSep).
#[local] Abbreviation hierarchy db :=
  (buildHierarchy (collectFolders md5 basename pathJoin pathSep db)).

Lemma removelast_take {A} (l : list A) (i : nat) :
  (i < length l)%nat -> removelast (take (S i) l) = take i l.
Proof.
  intros Hi. destruct (lookup_lt_is_Some_2 l i Hi) as [x Hx].
  rewrite (take_S_r _ _ _ Hx). apply removelast_last.
Qed.

Lemma joinWith_length (l : list string) :
  (length l <= S (String.length (joinWith "/" l)))%nat.
Proof.
  induction l as [|x l IH]; [simpl; lia|].
  destruct l as [|y l]; [simpl; lia|].
  change (joinWith "/" (x :: y :: l))
    with (x +:+ "/" +:+ joinWith "/" (y :: l)).
  rewrite !str_length_app. simpl in *. lia.
Qed.

Lemma total_le_sum (t : FolderTree) (l : list FolderTree) :
  t ∈ l -> (totalOf t <= sum_list (map totalOf l))%nat.
Proof.
  induction l as [|u l IH]; intros Hin; [now apply elem_of_nil in Hin|].
  simpl. apply elem_of_cons in Hin as [->|Hin]; [lia|].
  specialize (IH Hin). lia.
Qed.

Lemma nodeOf_trans (a b c : FolderTree) :
  nodeOf a b -> nodeOf b c -> nodeOf a c.
Proof.
  intros Hab Hbc. induction Hbc as [|folder total subs sub Hsub _ IH];
    [exact Hab|].
  now apply (nodeOf_sub a folder total subs sub).
Qed.

(** A subfolder with photos is counted into its parent and kept. *)
Lemma calculateRecursiveCount_child (n : nat) (h : FolderMap) x ref child :
  ref ∈ subfolders x -> mapGet h ref = Some child ->
  (0 < totalOf (calculateRecursiveCount n h child))%nat ->
  calculateRecursiveCount n h child
    ∈ subsOf (calculateRecursiveCount (S n) h x) /\
  (totalOf (calculateRecursiveCount n h child)
   <= totalOf (calculateRecursiveCount (S n) h x))%nat.
Proof.
  intros Href Hchild Hpos.
  assert (calculateRecursiveCount n h child
            ∈ map (calculateRecursiveCount n h)
                  (omap (mapGet h) (subfolders x))) as Hin.
  { apply list_elem_of_fmap. exists child. split; [reflexivity|].
    apply list_elem_of_omap. eauto. }
  simpl. split.
  - apply list_elem_of_filter. now split.
  - pose proof (total_le_sum _ _ Hin). lia.
Qed.

Variable db : list PhotoRecord.
Hypothesis Hdistinct : distinctIds md5 db.

(** The object under the key of a folder above a photo is that
    folder. *)
Lemma folder_of_key k x photo a :
  (k, x) ∈ collected db -> photo ∈ db -> folderAbove photo a ->
  k = keyOf (rootPath photo) a ->
  fRootPath x = rootPath photo /\ fFolderPath x = a.
Proof.
  intros Hin Hphoto Ha Hk.
  destruct (collectFolders_inv md5 basename pathJoin pathSep db)
    as ([_ Hkeys] & _).
  destruct (collectFolders_fromPhotos md5 basename pathJoin pathSep db k x Hin)
    as (_ & p & Hp & Hroot & Hpath).
  apply ensuredPaths_spec in Hpath.
  pose proof (Hkeys k x Hin) as Hkx. rewrite Hroot in Hkx.
  destruct (Hdistinct p (fFolderPath x) photo a Hp Hpath Hphoto Ha)
    as [Hr Hf]; [congruence|].
  split; congruence.
Qed.

Lemma collected_ids k1 x1 k2 x2 :
  (k1, x1) ∈ collected db -> (k2, x2) ∈ collected db ->
  fid x1 = fid x2 -> k1 = k2.
Proof.
  intros H1 H2 Hid.
  destruct (collectFolders_inv md5 basename pathJoin pathSep db)
    as ([_ Hkeys] & _).
  destruct (collectFolders_fromPhotos md5 basename pathJoin pathSep db _ _ H1)
    as (Hid1 & p1 & Hp1 & Hroot1 & Hpath1).
  destruct (collectFolders_fromPhotos md5 basename pathJoin pathSep db _ _ H2)
    as (Hid2 & p2 & Hp2 & Hroot2 & Hpath2).
  apply ensuredPaths_spec in Hpath1, Hpath2.
  pose proof (Hkeys _ _ H1) as Hk1. pose proof (Hkeys _ _ H2) as Hk2.
  rewrite Hroot1 in Hk1. rewrite Hroot2 in Hk2.
  destruct (Hdistinct p1 (fFolderPath x1) p2 (fFolderPath x2)
              Hp1 Hpath1 Hp2 Hpath2) as [Hr Hf]; congruence.
Qed.

(** Every folder above a photo has its object in the hierarchy. *)
Lemma folder_in_hierarchy photo a :
  photo ∈ db -> folderAbove photo a ->
  exists x,
    mapGet (hierarchy db) (keyOf (rootPath photo) a) = Some x /\
    (keyOf (rootPath photo) a, x) ∈ hierarchy db /\
    fRootPath x = rootPath photo /\ fFolderPath x = a /\
    photoCount x = directCount db (keyOf (rootPath photo) a).
Proof.
  intros Hphoto Ha.
  destruct (collectFolders_inv md5 basename pathJoin pathSep db)
    as (Hwk & Hcount & Hrefs & Hanc).
  destruct (buildHierarchy_inv _ Hwk Hrefs) as (Hsame & _ & _).
  pose proof (Hanc photo a Hphoto (proj2 (ensuredPaths_spec photo a) Ha))
    as Hhas.
  apply mapHas_get in Hhas as [x0 Hx0].
  destruct (folder_of_key _ x0 photo a (mapGet_elem _ _ _ Hx0) Hphoto Ha
              eq_refl) as [Hroot Hpath].
  destruct (sameFolders_has _ _ _ _ Hsame Hx0) as (x & Hx & Hstripped).
  apply stripped_fields in Hstripped as (Hc & Hr & Hf).
  exists x. split; [exact Hx|]. split; [now apply mapGet_elem|].
  split; [congruence|]. split; [congruence|].
  rewrite Hc. now apply (proj1 Hcount).
Qed.

(** The folders on the way from the root to the folder of a photo. *)
Lemma prefix_above photo (i : nat) :
  (i <= length (splitOn slash (folderPath photo)))%nat ->
  folderAbove photo (joinWith "/" (take i (splitOn slash (folderPath photo)))).
Proof.
  intros Hi. destruct i as [|i]; [now left|]. right.
  apply ancestorPaths_spec. unfold ancestorPaths.
  apply list_elem_of_fmap. exists i. split; [reflexivity|].
  apply elem_of_seq. simpl. lia.
Qed.

(** Each of them refers to the next one. *)
Lemma next_folder_attached photo (i : nat) :
  photo ∈ db ->
  (i < length (splitOn slash (folderPath photo)))%nat ->
  let a := joinWith "/" (take i (splitOn slash (folderPath photo))) in
  let c := joinWith "/" (take (S i) (splitOn slash (folderPath photo))) in
  c <> a ->
  exists x child,
    mapGet (hierarchy db) (keyOf (rootPath photo) a) = Some x /\
    mapGet (hierarchy db) (keyOf (rootPath photo) c) = Some child /\
    keyOf (rootPath photo) c ∈ subfolders x.
Proof.
  intros Hphoto Hi a c Hne.
  destruct (collectFolders_inv md5 basename pathJoin pathSep db)
    as (Hwk & Hcount & Hrefs & Hanc).
  destruct (buildHierarchy_inv _ Hwk Hrefs) as (Hsame & _ & _).
  pose proof (buildHierarchy_attached _ Hwk Hrefs collected_ids)
    as Hattached.
  assert (c <> EmptyString) as Hc.
  { intros Hempty. apply Hne. unfold a, c in *.
    pose proof (joinWith_length
                  (take (S i) (splitOn slash (folderPath photo)))) as Hlen.
    rewrite Hempty, length_take in Hlen. cbn [String.length] in Hlen.
    assert (i = 0)%nat as -> by lia. now rewrite Hempty. }
  assert (folderAbove photo a) as Ha by (apply prefix_above; lia).
  assert (folderAbove photo c) as Hc' by (apply prefix_above; lia).
  pose proof (Hanc photo c Hphoto (proj2 (ensuredPaths_spec photo c) Hc'))
    as Hhas.
  apply mapHas_get in Hhas as [c0 Hc0].
  pose proof (mapGet_elem _ _ _ Hc0) as Hin0.
  destruct (folder_of_key _ c0 photo c Hin0 Hphoto Hc' eq_refl)
    as [Hroot Hpath].
  destruct (sameFolders_has _ _ _ _ Hsame Hc0) as (child & Hchild & _).
  assert (joinWith "/" (removelast (splitOn slash (fFolderPath c0))) = a)
    as Hparent.
  { rewrite Hpath. unfold c, a.
    change "/"%string with (String slash EmptyString) at 1.
    rewrite splitOn_join.
    - now rewrite removelast_take.
    - intros Hnil. apply (f_equal length) in Hnil.
      rewrite length_take in Hnil. change (length []) with 0%nat in Hnil. lia.
    - apply Forall_take, splitOn_parts. }
  destruct (Hattached _ c0 Hin0 ltac:(congruence)
              (keyOf (rootPath photo) a)) as (x & Hx & Href).
  { now rewrite Hroot, Hparent. }
  { apply mapHas_get.
    apply (Hanc photo a Hphoto (proj2 (ensuredPaths_spec photo a) Ha)). }
  exists x, child. now repeat split.
Qed.

(** Every folder on the way has a positive total. *)
Lemma prefix_total photo :
  photo ∈ db ->
  forall (j i : nat),
    (i + j = length (splitOn slash (folderPath photo)))%nat ->
    forall x (n : nat),
      mapGet (hierarchy db)
        (keyOf (rootPath photo)
               (joinWith "/" (take i (splitOn slash (folderPath photo)))))
        = Some x ->
      (max_list (map (fun kv => String.length kv.1) (hierarchy db))
       < n + String.length
               (keyOf (rootPath photo)
                  (joinWith "/" (take i (splitOn slash (folderPath photo))))))%nat ->
      (0 < totalOf (calculateRecursiveCount n (hierarchy db) x))%nat.
Proof.
  intros Hphoto.
  destruct (collectFolders_inv md5 basename pathJoin pathSep db)
    as (Hwk & Hcount & Hrefs & Hanc).
  destruct (buildHierarchy_inv _ Hwk Hrefs) as (Hsame & Hdeep & _).
  induction j as [|j IH]; intros i Hij x n Hx Hn.
  - rewrite take_ge in Hx by lia.
    pose proof (join_split slash (folderPath photo)) as Hjoin.
    change (String slash EmptyString) with "/"%string in Hjoin.
    rewrite Hjoin in Hx.
    destruct (folder_in_hierarchy photo (folderPath photo) Hphoto)
      as (x' & Hx' & _ & _ & _ & Hdirect).
    { right. now left. }
    rewrite Hx in Hx'. injection Hx' as <-.
    assert (0 < directCount db (keyOf (rootPath photo) (folderPath photo)))%nat
      as Hpos.
    { unfold directCount.
      assert (photo ∈ filter (fun p => photoKey p = keyOf (rootPath photo)
                                                     (folderPath photo)) db)
        as Hin by (apply list_elem_of_filter; now split).
      destruct (filter _ db); [now apply elem_of_nil in Hin | simpl; lia]. }
    pose proof (proj2 (calculateRecursiveCount_root n (hierarchy db) x)). lia.
  - set (a := joinWith "/" (take i (splitOn slash (folderPath photo)))) in *.
    set (c := joinWith "/" (take (S i) (splitOn slash (folderPath photo)))).
    destruct (decide (c = a)) as [Hsame_path|Hne].
    + apply (IH (S i) ltac:(lia) x n); fold c; now rewrite Hsame_path.
    + destruct (next_folder_attached photo i Hphoto ltac:(lia) Hne)
        as (x' & child & Hx' & Hchild & Href).
      fold a in Hx'. fold c in Hchild, Href.
      rewrite Hx in Hx'. injection Hx' as <-.
      pose proof (key_length_bound _ _ _ Hx) as Hbound.
      pose proof (Hdeep _ _ Hx _ Href) as Hlonger.
      destruct n as [|n]; [lia|].
      assert (0 < totalOf (calculateRecursiveCount n (hierarchy db) child))%nat
        as Hpos.
      { apply (IH (S i) ltac:(lia) child n); fold c; [exact Hchild | lia]. }
      destruct (calculateRecursiveCount_child n (hierarchy db) x _ child
                  Href Hchild Hpos) as [_ Hle]. lia.
Qed.

(** Every folder on the way is a node of the tree of the root. *)
Lemma prefix_reached photo root :
  photo ∈ db ->
  mapGet (hierarchy db) (keyOf (rootPath photo) "") = Some root ->
  forall (i : nat),
    (i <= length (splitOn slash (folderPath photo)))%nat ->
    exists x (n : nat),
      mapGet (hierarchy db)
        (keyOf (rootPath photo)
               (joinWith "/" (take i (splitOn slash (folderPath photo)))))
        = Some x /\
      (max_list (map (fun kv => String.length kv.1) (hierarchy db))
       < n + String.length
               (keyOf (rootPath photo)
                  (joinWith "/" (take i (splitOn slash (folderPath photo))))))%nat /\
      nodeOf (calculateRecursiveCount n (hierarchy db) x)
             (calculateRecursiveCount (depthBound (hierarchy db))
                                      (hierarchy db) root).
Proof.
  intros Hphoto Hroot.
  destruct (collectFolders_inv md5 basename pathJoin pathSep db)
    as (Hwk & Hcount & Hrefs & Hanc).
  destruct (buildHierarchy_inv _ Hwk Hrefs) as (Hsame & Hdeep & _).
  induction i as [|i IH]; intros Hi.
  - exists root, (depthBound (hierarchy db)).
    split; [exact Hroot|]. split; [unfold depthBound; lia | constructor].
  - destruct (IH ltac:(lia)) as (x & n & Hx & Hn & Hnode).
    set (a := joinWith "/" (take i (splitOn slash (folderPath photo)))) in *.
    set (c := joinWith "/" (take (S i) (splitOn slash (folderPath photo)))).
    destruct (decide (c = a)) as [Hsame_path|Hne].
    + exists x, n. now rewrite Hsame_path.
    + destruct (next_folder_attached photo i Hphoto ltac:(lia) Hne)
        as (x' & child & Hx' & Hchild & Href).
      fold a in Hx'. fold c in Hchild, Href.
      rewrite Hx in Hx'. injection Hx' as <-.
      pose proof (key_length_bound _ _ _ Hx) as Hbound.
      pose proof (Hdeep _ _ Hx _ Href) as Hlonger.
      destruct n as [|n]; [lia|].
      assert (0 < totalOf (calculateRecursiveCount n (hierarchy db) child))%nat
        as Hpos.
      { apply (prefix_total photo Hphoto
                 (length (splitOn slash (folderPath photo)) - S i) (S i)
                 ltac:(lia) child n); fold c; [exact Hchild | lia]. }
      destruct (calculateRecursiveCount_child n (hierarchy db) x _ child
                  Href Hchild Hpos) as [Hsub _].
      exists child, n. split; [exact Hchild|]. split; [lia|].
      apply (nodeOf_trans _ (calculateRecursiveCount (S n) (hierarchy db) x));
        [|exact Hnode].
      simpl. eapply nodeOf_sub; [exact Hsub | constructor].
Qed.

(** Every folder above a photo is a node of the returned structure,
    below the root folder of the photo's library. *)
Lemma folder_reached photo a :
  photo ∈ db -> folderAbove photo a ->
  exists top node,
    top ∈ (buildFolderStructure md5 basename pathJoin pathSep db).1 /\
    fRootPath (folderOf top) = rootPath photo /\
    fFolderPath (folderOf top) = EmptyString /\
    nodeOf node top /\
    fRootPath (folderOf node) = rootPath photo /\
    fFolderPath (folderOf node) = a.
Proof.
  intros Hphoto Ha.
  destruct (folder_in_hierarchy photo "" Hphoto ltac:(now left))
    as (root & Hroot & Hroot_in & Hroot_root & Hroot_path & _).
  assert (exists i : nat,
            (i <= length (splitOn slash (folderPath photo)))%nat /\
            a = joinWith "/" (take i (splitOn slash (folderPath photo))))
    as (i & Hi & ->).
  { destruct Ha as [->|Ha]; [exists 0%nat; split; [lia | reflexivity]|].
    apply ancestorPaths_spec in Ha. unfold ancestorPaths in Ha.
    apply list_elem_of_fmap in Ha as (i & -> & Hin).
    apply elem_of_seq in Hin. exists (S i). split; [simpl in *; lia|].
    reflexivity. }
  destruct (prefix_reached photo root Hphoto Hroot i Hi)
    as (x & n & Hx & Hn & Hnode).
  destruct (folder_in_hierarchy photo _ Hphoto (prefix_above photo i Hi))
    as (x' & Hx' & _ & Hx_root & Hx_path & _).
  rewrite Hx in Hx'. injection Hx' as <-.
  exists (calculateRecursiveCount (depthBound (hierarchy db)) (hierarchy db)
            root),
         (calculateRecursiveCount n (hierarchy db) x).
  rewrite !(proj1 (calculateRecursiveCount_root _ _ _)).
  split; [|now repeat split].
  unfold buildFolderStructure, structureWith. cbn [fst].
  apply list_elem_of_filter. split.
  - apply (prefix_total photo Hphoto
             (length (splitOn slash (folderPath photo))) 0 ltac:(lia));
      [exact Hroot | unfold depthBound; lia].
  - apply list_elem_of_fmap. exists root. split; [reflexivity|].
    unfold rootFolders. apply list_elem_of_filter. split; [exact Hroot_path|].
    apply list_elem_of_fmap. now exists (keyOf (rootPath photo) "", root).
Qed.

End FolderReach.

Section FolderStructure.
Import Catalog Folders.
Variable md5 : string -> string.
Variable basename : string -> string.
Variable pathJoin : string -> string -> string.
Variable pathSep : string.

Lemma mapHas_same_keys (m h : FolderMap) key :
  map fst h = map fst m -> mapHas h key = mapHas m key.
Proof.
  intros Hkeys. unfold mapHas.
  destruct (mapGet h key) eqn:Hh, (mapGet m key) eqn:Hm; try reflexivity.
  - apply mapGet_none in Hm. rewrite <- Hkeys in Hm.
    apply mapGet_none in Hm. congruence.
  - apply mapGet_none in Hh. rewrite Hkeys in Hh.
    apply mapGet_none in Hh. congruence.
Qed.

Lemma rootFolders_get (h : FolderMap) x :
  wellKeyed h -> x ∈ rootFolders h -> exists key, mapGet h key = Some x.
Proof.
  intros [Hnd _] Hin. unfold rootFolders in Hin.
  apply list_elem_of_filter in Hin as [_ Hin].
  apply list_elem_of_fmap in Hin as ([k y] & -> & Hin).
  exists k. now apply mapGet_unique.
Qed.

(** Every node of a counted tree is the counted tree of an object of
    the map. *)
Lemma calculateRecursiveCount_shape m (fuel : nat) :
  forall key folder node,
    mapGet m key = Some folder ->
    nodeOf node (calculateRecursiveCount fuel m folder) ->
    exists (n : nat) k x,
      mapGet m k = Some x /\ node = calculateRecursiveCount n m x.
Proof.
  induction fuel as [|fuel IH]; intros key folder node Hkey Hnode.
  - inversion Hnode as [|f t subs sub Hsub _ Heq]; subst.
    + now exists 0%nat, key, folder.
    + simpl in *. now apply elem_of_nil in Hsub.
  - inversion Hnode as [Heq|f t subs sub Hsub Hrest Heq].
    + now exists (S fuel), key, folder.
    + assert (sub ∈ subsOf (calculateRecursiveCount (S fuel) m folder))
        as Hsub' by exact Hsub.
      apply calculateRecursiveCount_subs in Hsub'
        as (_ & ref & child & _ & Hget & ->).
      exact (IH ref child node Hget Hrest).
Qed.

(** C9 (as amended).  The folder structure is computed from the catalog
    alone.  When no two folders share an id, the structure returned
    holds, for every photo, the root folder of its library and, nested
    below it, every ancestor folder of the photo's folder and that
    folder itself, whether or not photos lie directly in them.  The
    nodes of the structure are such folders only; every node has a
    strictly positive recursive total, that total is the node's direct
    photo count plus the totals of its subfolders, and the direct count
    is the number of catalog photos lying in that folder; every
    subfolder of a node lies directly below it: its parent path, under
    the same root, is the key of the node.  The depth bound of the
    recursion is enough: more fuel gives the same result. *)
Theorem folder_structure_properties (db : list PhotoRecord) :
  let h := buildHierarchy (collectFolders md5 basename pathJoin pathSep db) in
  let result := buildFolderStructure md5 basename pathJoin pathSep db in
  (distinctIds md5 db ->
   forall photo a, photo ∈ db -> folderAbove photo a ->
     exists top node,
       top ∈ result.1 /\
       fRootPath (folderOf top) = rootPath photo /\
       fFolderPath (folderOf top) = EmptyString /\
       nodeOf node top /\
       fRootPath (folderOf node) = rootPath photo /\
       fFolderPath (folderOf node) = a) /\
  (forall root node, root ∈ result.1 -> nodeOf node root ->
     (exists photo,
        photo ∈ db /\ fRootPath (folderOf node) = rootPath photo /\
        folderAbove photo (fFolderPath (folderOf node))) /\
     (0 < totalOf node)%nat /\
     totalOf node =
       (photoCount (folderOf node) + sum_list (map totalOf (subsOf node)))%nat /\
     photoCount (folderOf node) =
       directCount db (keyOf (fRootPath (folderOf node))
                             (fFolderPath (folderOf node))) /\
     (forall sub, sub ∈ subsOf node ->
        fFolderPath (folderOf sub) <> EmptyString /\
        parentKeyOf (folderOf sub) =
          keyOf (fRootPath (folderOf node)) (fFolderPath (folderOf node)))) /\
  result.2 = length db /\
  (forall fuel, (depthBound h <= fuel)%nat ->
     structureWith md5 basename pathJoin pathSep fuel db = result).
Proof.
  cbv zeta.
  destruct (collectFolders_inv md5 basename pathJoin pathSep db)
    as (Hwk & Hcount & Hrefs & Hanc).
  destruct (buildHierarchy_inv _ Hwk Hrefs) as (Hsame & Hdeep & Hwk').
  pose proof (buildHierarchy_refsBelow _ Hrefs) as Hbelow.
  pose proof (collectFolders_fromPhotos md5 basename pathJoin pathSep db)
    as Horigin.
  set (m := collectFolders md5 basename pathJoin pathSep db) in *.
  set (h := buildHierarchy m) in *.
  split; [|split; [|split]].
  - intros Hdistinct photo a Hphoto Ha.
    apply (folder_reached md5 basename pathJoin pathSep db Hdistinct photo a
             Hphoto Ha).
  - intros root node Hroot Hnode.
    unfold buildFolderStructure, structureWith in Hroot. cbn [fst] in Hroot.
    fold m in Hroot. fold h in Hroot.
    apply list_elem_of_filter in Hroot as [Hpos Hroot].
    apply list_elem_of_fmap in Hroot as (x & -> & Hx).
    destruct (rootFolders_get h x Hwk' Hx) as [kx Hkx].
    destruct (calculateRecursiveCount_nodes h _ x node Hnode)
      as (Htop & Hsum & Hfolder).
    assert (exists key, mapGet h key = Some (folderOf node)) as [key Hkey].
    { destruct Hfolder as [->|Hex]; eauto. }
    destruct (sameFolders_get _ _ _ _ Hsame Hkey) as (y0 & Hy0 & Hs).
    pose proof Hs as Hfields.
    apply stripped_fields in Hfields as (Hc & Hr & Hf).
    split; [|split; [|split; [|split]]].
    + destruct (Horigin key y0 (mapGet_elem _ _ _ Hy0))
        as (_ & photo & Hphoto & Hroot & Hpath).
      exists photo. split; [exact Hphoto|]. split; [congruence|].
      rewrite Hf. now apply ensuredPaths_spec.
    + now destruct Htop as [->|Hp].
    + exact Hsum.
    + rewrite Hc, (proj1 Hcount _ _ Hy0). f_equal.
      rewrite Hr, Hf. apply (proj2 Hwk). now apply mapGet_elem.
    + intros sub Hsub.
      destruct (calculateRecursiveCount_shape h _ kx x node Hkx Hnode)
        as (n & k & y & Hy & ->).
      rewrite (proj1 (calculateRecursiveCount_root n h y)) in *.
      destruct n as [|n]; [simpl in Hsub; now apply elem_of_nil in Hsub|].
      apply calculateRecursiveCount_subs in Hsub
        as (_ & ref & child & Href & Hchild & ->).
      rewrite (proj1 (calculateRecursiveCount_root n h child)).
      destruct (Hbelow _ _ _ Hy Href) as (c0 & Hc0 & Hsubfolder & Hparent).
      destruct (sameFolders_get _ _ _ _ Hsame Hchild) as (c1 & Hc1 & Hsc).
      rewrite (mapGet_unique _ _ _ (proj1 Hwk) Hc0) in Hc1.
      injection Hc1 as <-.
      apply stripped_fields in Hsc as (_ & Hcr & Hcf).
      unfold parentKeyOf. rewrite Hcr, Hcf.
      split; [exact Hsubfolder|]. rewrite Hparent.
      apply (proj2 Hwk'). now apply mapGet_elem.
  - reflexivity.
  - intros fuel Hfuel. unfold buildFolderStructure, structureWith.
    fold m. fold h. f_equal. f_equal.
    apply map_ext_in. intros x Hx. apply list_elem_of_In in Hx.
    destruct (rootFolders_get h x Hwk' Hx) as [kx Hkx].
    apply (fuel_enough h Hdeep _ kx x Hkx); [|exact Hfuel].
    unfold depthBound. lia.
Qed.

End FolderStructure.

(** C9, counterexample.  The key of a folder is its root path and its
    folder path joined by two colons, so two different folders can have
    one key.  A photo in the folder [a::b] of the library [/lib] and a
    photo in the folder [b] of the library [/lib::a] are counted into
    one folder object, that of the first photo; the structure returned
    has no node for the folder of the second photo, nor for the root
    folder of its library, whatever the hash function is. *)
Lemma folder_key_counterexample :
  let p1 := Catalog.mkPhoto "c3" "a.jpg" "/lib/a::b/a.jpg" 10 1000 4 3
                            "/lib" "a::b" in
  let p2 := Catalog.mkPhoto "d4" "b.jpg" "/lib::a/b/b.jpg" 10 1000 4 3
                            "/lib::a" "b" in
  Folders.folderAbove p2 "b" /\
  Folders.folderAbove p2 "" /\
  forall md5 basename pathJoin pathSep,
    let result :=
      Folders.buildFolderStructure md5 basename pathJoin pathSep [p1; p2] in
    map (fun top => (Folders.fRootPath (Folders.folderOf top),
                     Folders.totalOf top)) result.1
      = [("/lib"%string, 2%nat)] /\
    ~ (exists top node,
         top ∈ result.1 /\ Folders.nodeOf node top /\
         Folders.fRootPath (Folders.folderOf node) = "/lib::a"%string).
Proof.
  cbv zeta. split; [right; now left|]. split; [now left|].
  intros md5 basename pathJoin pathSep.
  assert ((Folders.buildFolderStructure md5 basename pathJoin pathSep
             [Catalog.mkPhoto "c3" "a.jpg" "/lib/a::b/a.jpg" 10 1000 4 3
                              "/lib" "a::b";
              Catalog.mkPhoto "d4" "b.jpg" "/lib::a/b/b.jpg" 10 1000 4 3
                              "/lib::a" "b"]).1
          = [Folders.Node
               (Folders.mkFolderObj
                  (String.substring 0 16 (md5 "/lib::"%string)) "/lib" ""
                  (basename "/lib"%string) "/lib" 0 ["/lib::a::b"%string])
               2
               [Folders.Node
                  (Folders.mkFolderObj
                     (String.substring 0 16 (md5 "/lib::a::b"%string))
                     "/lib" "a::b" (basename "a::b"%string)
                     (pathJoin "/lib"%string
                        (Folders.joinWith pathSep ["a::b"%string]))
                     2 [])
                  2 []]]) as Hresult by (vm_compute; reflexivity).
  rewrite Hresult. split; [reflexivity|].
  intros (top & node & Htop & Hnode & Hroot).
  apply list_elem_of_singleton in Htop. subst top.
  inversion Hnode as [Heq|folder total subs sub Hsub Hbelow Heq].
  - subst node. discriminate Hroot.
  - subst. apply list_elem_of_singleton in Hsub. subst sub.
    inversion Hbelow as [Heq|folder total subs sub Hsub _ Heq].
    + subst node. discriminate Hroot.
    + subst. now apply elem_of_nil in Hsub.
Qed.

Lemma folder_structure_properties_witness :
  let db := [Samples.photoB; Samples.photoA] in
  let result :=
    Folders.buildFolderStructure (fun s => s) (fun s => s)
      (fun a b => a +:+ "/" +:+ b) "/" db in
  exists top node,
    result.1 = [top] /\ Folders.nodeOf node top /\
    Folders.totalOf top = 2%nat /\
    Folders.fFolderPath (Folders.folderOf node) = "trip"%string.
Proof.
  cbv zeta.
  assert (Folders.distinctIds (fun s => s) [Samples.photoB; Samples.photoA])
    as Hdistinct.
  { intros p1 a1 p2 a2 Hp1 Ha1 Hp2 Ha2.
    assert (forall p a, p ∈ [Samples.photoB; Samples.photoA] ->
                        Folders.folderAbove p a ->
              Catalog.rootPath p = "/lib"%string /\
              (a = EmptyString \/ a = "trip"%string)) as Hcases.
    { intros p a Hp Ha. apply ensuredPaths_spec in Ha.
      apply elem_of_cons in Hp as [->|Hp];
        [|apply list_elem_of_singleton in Hp; subst p].
      - split; [reflexivity|].
        apply elem_of_cons in Ha as [->|Ha]; [now left|].
        apply list_elem_of_singleton in Ha. now right.
      - split; [reflexivity|].
        apply list_elem_of_singleton in Ha. now left. }
    destruct (Hcases p1 a1 Hp1 Ha1) as [-> [->| ->]],
             (Hcases p2 a2 Hp2 Ha2) as [-> [->| ->]];
      vm_compute; intros Hid; (split; [reflexivity|]);
      (reflexivity || discriminate Hid). }
  destruct (proj1 (folder_structure_properties (fun s => s) (fun s => s)
                     (fun a b => a +:+ "/" +:+ b) "/"
                     [Samples.photoB; Samples.photoA])
              Hdistinct Samples.photoB "trip"%string)
    as (top & node & Htop & _ & _ & Hnode & _ & Hpath).
  { apply list_elem_of_here. }
  { right. now left. }
  exists top, node.
  assert ((Folders.buildFolderStructure (fun s => s) (fun s => s)
             (fun a b => a +:+ "/" +:+ b) "/"
             [Samples.photoB; Samples.photoA]).1
          = [Folders.calculateRecursiveCount 2
               (Folders.buildHierarchy
                  (Folders.collectFolders (fun s => s) (fun s => s)
                     (fun a b => a +:+ "/" +:+ b) "/"
                     [Samples.photoB; Samples.photoA]))
               (Folders.mkFolderObj "/lib::" "/lib" "" "/lib" "/lib" 1
                  ["/lib::trip"%string])]) as Hresult
    by (vm_compute; reflexivity).
  rewrite Hresult in Htop. apply list_elem_of_singleton in Htop.
  rewrite Hresult. subst top.
  split; [reflexivity|]. split; [exact Hnode|].
  split; [vm_compute; reflexivity | exact Hpath].
Defined.

Lemma p2p_fallback_sends_original_witness :
  P2P.payload
    (P2P.sendPhoto Samples.brokenSharp P2P.alwaysUp [Samples.photoB] "a7"
                   None None)
  = [Byte.x89; Byte.x50].
Proof.
  destruct (p2p_fallback_sends_original Samples.brokenSharp P2P.alwaysUp
              [Samples.photoB] "a7" None None Samples.photoB
              [Byte.x89; Byte.x50]
              "Input file contains unsupported image format"
              eq_refl eq_refl eq_refl) as (_ & _ & Hfull).
  destruct (Hfull (fun k => conj eq_refl eq_refl)) as [Hpayload _].
  exact Hpayload.
Defined.

(** ** Further properties of the code *)

Section ListFacts.

Lemma elem_of_List_filter {A} (f : A -> bool) (l : list A) (x : A) :
  x ∈ List.filter f l <-> f x = true /\ x ∈ l.
Proof.
  rewrite !list_elem_of_In, filter_In. tauto.
Qed.

End ListFacts.

(** ** The token cache and the token administration *)

Section TokenCache.
Import Js Tokens Auth Revocation.

(** The verdict on a credential of the right form, given the tokens in
    force. *)
Lemma validateAgainst_hex store v now :
  isHex64 v = true ->
  validateAgainst store (JStr v) now =
    match findToken store v with
    | None => Invalid "TOKEN_NOT_FOUND"
    | Some t =>
        if negb (active t) then Invalid "TOKEN_REVOKED"
        else if expiresAt t <? now then Invalid "TOKEN_EXPIRED"
        else Valid t
    end.
Proof.
  intros Hhex. unfold validateAgainst, validateToken. simpl.
  assert (String.eqb v EmptyString = false) as ->.
  { destruct v; [discriminate Hhex | reflexivity]. }
  rewrite Hhex. simpl.
  destruct (findToken store v) as [t|]; [|reflexivity].
  destruct (negb (active t)); [reflexivity|].
  now destruct (expiresAt t <? now).
Qed.

Lemma validateAgainst_empty tok now t : validateAgainst [] tok now <> Valid t.
Proof.
  unfold validateAgainst, validateToken.
  destruct (falsy tok || negb (is_string tok)); [discriminate|].
  destruct (negb (isHex64 (str_of tok))); discriminate.
Qed.

(** X1.  A credential is judged against the cached token list, whatever
    the token file holds, for as long as the last successful read is
    less than [CACHE_TTL] old; once the cache is that old it is judged
    against the file; and when the file cannot be read then, nothing is
    accepted. *)
Theorem validation_cache_window tok cached t0 now file :
  let m := mkManager (Some cached) t0 in
  (now - t0 < CACHE_TTL ->
     validateToken tok file now m = (validateAgainst cached tok now, m)) /\
  (CACHE_TTL <= now - t0 ->
     (validateToken tok file now m).1 = validateAgainst (storeOf file) tok now /\
     forall t, (validateToken tok None now m).1 <> Valid t).
Proof.
  cbv zeta. split; intros Hage.
  - assert (readTokens file now (mkManager (Some cached) t0)
            = (cached, mkManager (Some cached) t0)) as Hread.
    { unfold readTokens. simpl.
      now replace (now - t0 <? CACHE_TTL) with true
        by (symmetry; apply Z.ltb_lt; lia). }
    destruct (validate_verdict tok _ _ _ _ _ Hread) as [Hv Hm].
    destruct (validateToken tok file now _) as [v m1]. simpl in *.
    f_equal; [exact Hv | now destruct Hm].
  - assert (forall f, exists m',
               readTokens f now (mkManager (Some cached) t0) = (storeOf f, m'))
      as Hread.
    { intros f. unfold readTokens. simpl.
      replace (now - t0 <? CACHE_TTL) with false
        by (symmetry; apply Z.ltb_ge; lia).
      destruct f; simpl; eauto. }
    split.
    + destruct (Hread file) as [m' Hm'].
      apply (validate_verdict tok _ _ _ _ _ Hm').
    + intros t. destruct (Hread None) as [m' Hm'].
      rewrite (proj1 (validate_verdict tok _ _ _ _ _ Hm')).
      apply validateAgainst_empty.
Qed.

End TokenCache.

Lemma validation_cache_window_witness :
  (Tokens.validateToken (Js.JStr Samples.tokenValue)
     (Some [Samples.revokedToken]) 7000
     (Tokens.mkManager (Some [Samples.activeToken]) 6000)).1
    = Tokens.Valid Samples.activeToken /\
  (Tokens.validateToken (Js.JStr Samples.tokenValue)
     (Some [Samples.revokedToken]) 11000
     (Tokens.mkManager (Some [Samples.activeToken]) 6000)).1
    = Tokens.Invalid "TOKEN_REVOKED".
Proof.
  split.
  - rewrite (proj1 (validation_cache_window (Js.JStr Samples.tokenValue)
                      [Samples.activeToken] 6000 7000
                      (Some [Samples.revokedToken]))
               ltac:(unfold Tokens.CACHE_TTL; lia)).
    reflexivity.
  - rewrite (proj1 (proj2 (validation_cache_window (Js.JStr Samples.tokenValue)
                      [Samples.activeToken] 6000 11000
                      (Some [Samples.revokedToken]))
               ltac:(unfold Tokens.CACHE_TTL; lia))).
    reflexivity.
Defined.

Section TokenAdministration.
Import Js Tokens Wire Auth Revocation.

Lemma isHexChar_hexDigit (n : N) :
  (n < 16)%N -> isHexChar (Admin.hexDigit n) = true.
Proof.
  intros Hn. unfold isHexChar, Admin.hexDigit. cbv zeta.
  destruct (N.ltb_spec n 10) as [Hdigit|Hletter];
    rewrite Ascii.N_ascii_embedding by lia;
    apply orb_true_iff; left; apply orb_true_iff; [left | right];
    apply andb_true_iff; split; apply N.leb_le; lia.
Qed.

Lemma allHex_app (a b : string) : allHex (a +:+ b) = allHex a && allHex b.
Proof.
  induction a as [|c a IH]; [reflexivity|].
  rewrite str_app_cons. simpl. now rewrite IH, andb_assoc.
Qed.

Lemma toHex_hex (buffer : bytes) :
  allHex (Admin.toHex buffer) = true /\
  String.length (Admin.toHex buffer) = (2 * length buffer)%nat.
Proof.
  induction buffer as [|b rest [IHhex IHlen]]; [now split|].
  simpl. rewrite allHex_app, str_length_app, IHhex, IHlen. split; [|simpl; lia].
  rewrite andb_true_r. unfold Admin.hexOfByte. simpl.
  assert (Byte.to_N b < 256)%N as Hb
    by (pose proof (Byte.to_N_bounded b); lia).
  rewrite !isHexChar_hexDigit; [reflexivity| |].
  - apply N.mod_lt. lia.
  - apply N.Div0.div_lt_upper_bound. lia.
Qed.

Lemma generateToken_hex64 random :
  length (random 32%nat) = 32%nat -> isHex64 (Admin.generateToken random) = true.
Proof.
  intros Hlen. unfold isHex64, Admin.generateToken.
  destruct (toHex_hex (random 32%nat)) as [-> ->]. now rewrite Hlen.
Qed.

(** The server finds in the file what the store holds. *)
Lemma findToken_exported (ts : list Admin.ManagedToken) v :
  findToken (map Admin.exported ts) v = Admin.exported <$> Admin.findToken ts v.
Proof.
  unfold findToken, Admin.findToken.
  induction ts as [|t ts IH]; [reflexivity|]. simpl.
  now destruct (String.eqb (Admin.token t) v).
Qed.

Lemma findToken_app (ts ts' : list Admin.ManagedToken) v :
  Admin.findToken (ts ++ ts') v =
    match Admin.findToken ts v with
    | Some t => Some t
    | None => Admin.findToken ts' v
    end.
Proof.
  unfold Admin.findToken. induction ts as [|t ts IH]; [reflexivity|]. simpl.
  now destruct (String.eqb (Admin.token t) v).
Qed.

Lemma findToken_fresh (ts : list Admin.ManagedToken) v :
  (forall t, t ∈ ts -> Admin.token t <> v) -> Admin.findToken ts v = None.
Proof.
  intros Hfresh. unfold Admin.findToken.
  induction ts as [|t ts IH]; [reflexivity|]. simpl.
  destruct (String.eqb_spec (Admin.token t) v) as [Heq|_].
  - exfalso. apply (Hfresh t); [left | exact Heq].
  - apply IH. intros t' Ht'. apply Hfresh. now right.
Qed.

Lemma findToken_updateFirst (ts : list Admin.ManagedToken) v f v' :
  (forall t, Admin.token (f t) = Admin.token t) ->
  Admin.findToken
    (Admin.updateFirst (fun t => String.eqb (Admin.token t) v) f ts) v' =
    (if String.eqb v' v then f else fun t => t) <$> Admin.findToken ts v'.
Proof.
  intros Hf. unfold Admin.findToken.
  induction ts as [|t ts IH]; [reflexivity|]. simpl.
  destruct (String.eqb_spec (Admin.token t) v) as [Heq|Hne]; simpl.
  - rewrite Hf. destruct (String.eqb_spec (Admin.token t) v') as [Heq'|Hne'].
    + simpl. subst v v'. now rewrite String.eqb_refl.
    + destruct (List.find _ ts); [|reflexivity]. simpl.
      destruct (String.eqb_spec v' v); [|reflexivity]. congruence.
  - destruct (String.eqb_spec (Admin.token t) v') as [Heq'|Hne'].
    + simpl. destruct (String.eqb_spec v' v); [congruence | reflexivity].
    + exact IH.
Qed.

Lemma findToken_filter (ts : list Admin.ManagedToken) (keep : _ -> bool) v t :
  Admin.findToken ts v = Some t -> keep t = true ->
  Admin.findToken (List.filter keep ts) v = Some t.
Proof.
  unfold Admin.findToken. intros Hfind Hkeep.
  induction ts as [|x ts IH]; [discriminate|]. simpl in *.
  destruct (String.eqb (Admin.token x) v) eqn:Hx.
  - injection Hfind as ->. rewrite Hkeep. simpl. now rewrite Hx.
  - destruct (keep x); simpl; rewrite ?Hx; now apply IH.
Qed.

Lemma findToken_deleted (ts : list Admin.ManagedToken) v v' :
  Admin.findToken
    (List.filter (fun t => negb (String.eqb (Admin.token t) v)) ts) v' =
    if String.eqb v' v then None else Admin.findToken ts v'.
Proof.
  unfold Admin.findToken. induction ts as [|t ts IH].
  - simpl. now destruct (String.eqb v' v).
  - simpl. destruct (String.eqb_spec (Admin.token t) v) as [Heq|Hne]; simpl.
    + rewrite IH. destruct (String.eqb_spec v' v) as [Heq'|Hne']; [reflexivity|].
      destruct (String.eqb_spec (Admin.token t) v'); [congruence | reflexivity].
    + destruct (String.eqb_spec (Admin.token t) v') as [Heq'|Hne'].
      * destruct (String.eqb_spec v' v); [congruence | reflexivity].
      * exact IH.
Qed.




(** X5.  [cleanExpiredTokens] removes exactly the tokens that are still
    active and whose expiry time is not after the clock, and answers
    their number; revoked tokens are all kept.  A credential that the
    server accepts at any later moment is accepted after the clean-up as
    well, with the same token. *)
Theorem cleanup_keeps_valid_tokens now s :
  Admin.synced s ->
  let r := Admin.cleanExpiredTokens now true s in
  Admin.tokens r.2 =
    List.filter (fun t => negb (Admin.active t && (Admin.expiresAt t <=? now)))
                (Admin.tokens s) /\
  r.1 = length (List.filter
                  (fun t => Admin.active t && (Admin.expiresAt t <=? now))
                  (Admin.tokens s)) /\
  Admin.synced r.2 /\
  (forall tok now' t, now < now' ->
     validateAgainst (map Admin.exported (Admin.tokens s)) tok now' = Valid t ->
     validateAgainst (storeOf (Admin.jsonFile r.2)) tok now' = Valid t).
Proof.
  intros Hsynced. cbv zeta. unfold Admin.cleanExpiredTokens.
  set (keep := fun t => (now <? Admin.expiresAt t) || negb (Admin.active t)).
  set (drop := fun t => Admin.active t && (Admin.expiresAt t <=? now)).
  assert (forall t, keep t = negb (drop t)) as Hkeep.
  { intros t. unfold keep, drop. rewrite negb_andb, orb_comm. f_equal.
    destruct (Z.ltb_spec now (Admin.expiresAt t)),
             (Z.leb_spec (Admin.expiresAt t) now); simpl; (reflexivity || lia). }
  assert (List.filter keep (Admin.tokens s)
          = List.filter (fun t => negb (drop t)) (Admin.tokens s)) as Hfilter.
  { induction (Admin.tokens s) as [|t ts IH]; [reflexivity|]. simpl.
    now rewrite Hkeep, IH. }
  assert (length (Admin.tokens s) - length (List.filter keep (Admin.tokens s))
          = length (List.filter drop (Admin.tokens s)))%nat as Hcount.
  { rewrite Hfilter. clear. induction (Admin.tokens s) as [|t ts IH];
      [reflexivity|]. simpl.
    pose proof (List.filter_length_le (fun t => negb (drop t)) ts).
    destruct (drop t); simpl; lia. }
  assert (length (List.filter drop (Admin.tokens s)) = 0%nat ->
          List.filter keep (Admin.tokens s) = Admin.tokens s) as Hnone.
  { rewrite Hfilter. clear. induction (Admin.tokens s) as [|t ts IH];
      [reflexivity|]. simpl.
    destruct (drop t); simpl; [discriminate|]. intros H. now rewrite IH. }
  rewrite Hcount.
  assert (Admin.tokens
            (if Nat.ltb 0 (length (List.filter drop (Admin.tokens s))) then
               (length (List.filter drop (Admin.tokens s)),
                Admin.syncToJsonFile now true
                  (Admin.mkState (List.filter keep (Admin.tokens s))
                                 (Admin.file s)))
             else (length (List.filter drop (Admin.tokens s)), s)).2
          = List.filter keep (Admin.tokens s)) as Htokens.
  { destruct (Nat.ltb_spec 0 (length (List.filter drop (Admin.tokens s))));
      [reflexivity|]. simpl. symmetry. apply Hnone. lia. }
  assert (Admin.synced
            (if Nat.ltb 0 (length (List.filter drop (Admin.tokens s))) then
               (length (List.filter drop (Admin.tokens s)),
                Admin.syncToJsonFile now true
                  (Admin.mkState (List.filter keep (Admin.tokens s))
                                 (Admin.file s)))
             else (length (List.filter drop (Admin.tokens s)), s)).2)
    as Hsynced'.
  { destruct (Nat.ltb _ _); [reflexivity | exact Hsynced]. }
  split; [now rewrite Htokens, Hfilter|].
  split; [now destruct (Nat.ltb _ _)|]. split; [exact Hsynced'|].
  intros tok now' t Hlater Hvalid.
  rewrite Hsynced', Htokens. simpl.
  unfold validateAgainst, validateToken in *.
  destruct (falsy tok || negb (is_string tok)); [discriminate|].
  destruct (negb (isHex64 (str_of tok))); [discriminate|].
  simpl in *. rewrite findToken_exported in *.
  destruct (Admin.findToken (Admin.tokens s) (str_of tok)) as [t0|] eqn:Hfind;
    [|discriminate].
  simpl in Hvalid.
  destruct (Admin.active t0) eqn:Hactive; [|discriminate]. simpl in Hvalid.
  destruct (Z.ltb_spec (Admin.expiresAt t0) now') as [|Hlive]; [discriminate|].
  rewrite (findToken_filter _ keep _ t0 Hfind).
  - simpl. rewrite Hactive. simpl.
    now replace (Admin.expiresAt t0 <? now') with false
      by (symmetry; apply Z.ltb_ge; lia).
  - unfold keep. apply orb_true_iff. left. apply Z.ltb_lt. lia.
Qed.

(** X6.  The statistics add up: every stored token is counted as exactly
    one of active, revoked and expired; the active count is the length
    of [getActiveTokens] and, once the file is written, the number that
    the server's [getActiveTokenCount] reports on a fresh read. *)
Theorem token_stats_partition now s :
  let stats := Admin.getStats now s in
  Admin.total stats =
    (Admin.activeCount stats + Admin.revokedCount stats
     + Admin.expiredCount stats)%nat /\
  Admin.activeCount stats = length (Admin.getActiveTokens now s) /\
  (Admin.synced s ->
   (TokenStore.getActiveTokenCount (Admin.jsonFile s) now (mkManager None 0)).1
     = Admin.activeCount stats).
Proof.
  cbv zeta. unfold Admin.getStats, Admin.getActiveTokens, Admin.getAllTokens.
  simpl. split; [|split; [reflexivity|]].
  - induction (Admin.tokens s) as [|t ts IH]; [reflexivity|]. simpl.
    destruct (Admin.active t); simpl.
    + destruct (Z.ltb_spec now (Admin.expiresAt t)),
               (Z.leb_spec (Admin.expiresAt t) now); simpl; lia.
    + lia.
  - intros ->. unfold TokenStore.getActiveTokenCount, readTokens. simpl.
    induction (Admin.tokens s) as [|t ts IH]; [reflexivity|]. simpl.
    destruct (Admin.active t && (now <? Admin.expiresAt t)); simpl;
      now rewrite IH.
Qed.

Lemma exported_updateFirst_used now ip v (ts : list Admin.ManagedToken) :
  map Admin.exported
      (Admin.updateFirst (fun t => String.eqb (Admin.token t) v)
                         (Admin.used now ip) ts)
  = map Admin.exported ts.
Proof.
  induction ts as [|t ts IH]; [reflexivity|]. simpl.
  destruct (String.eqb (Admin.token t) v); simpl; [reflexivity|].
  now rewrite IH.
Qed.

Lemma mirrored_synced s : Admin.mirrored s -> Admin.synced s.
Proof. intros [t Ht]. unfold Admin.synced, Admin.jsonFile. now rewrite Ht. Qed.

Lemma mirrored_call c s : Admin.mirrored s -> Admin.mirrored (Admin.call true c s).
Proof.
  intros Hs. unfold Admin.mirrored.
  destruct c as [random now metadata|now v|now v|now v ip|now]; simpl.
  - eauto.
  - unfold Admin.revokeToken. destruct (Admin.findToken _ _); simpl; eauto.
  - unfold Admin.deleteToken. destruct (Nat.ltb _ _); simpl; eauto.
  - unfold Admin.updateLastUsed. destruct (Admin.findToken _ _); simpl; eauto.
  - unfold Admin.cleanExpiredTokens. destruct (Nat.ltb _ _); simpl; eauto.
Qed.

(** X7.  After the write of the constructor and any run of calls whose
    writes succeed, the file holds the stored tokens as they are, with
    all their properties, and the time of the last write, and the
    server reads the tokens of the store from it.  Recording a use of a
    stored token rewrites the file, with the new time of use and the
    write time of that call, and yet changes nothing of what the
    server reads: every credential is judged as before. *)
Theorem file_mirrors_store now0 stored found (calls : list Admin.Call) :
  let s := foldl (fun s c => Admin.call true c s)
                 (Admin.start now0 true stored found) calls in
  Admin.mirrored s /\ Admin.synced s /\
  forall now v ip,
    let r := Admin.updateLastUsed now true v ip s in
    Admin.mirrored r.2 /\
    (forall t, Admin.findToken (Admin.tokens s) v = Some t ->
       r.1 = true /\
       Admin.file r.2 = Some (Admin.mkJsonData (Admin.tokens r.2) now) /\
       Admin.findToken (Admin.tokens r.2) v = Some (Admin.used now ip t)) /\
    (Admin.findToken (Admin.tokens s) v = None -> r = (false, s)) /\
    Admin.jsonFile r.2 = Admin.jsonFile s /\
    forall tok now',
      validateAgainst (storeOf (Admin.jsonFile r.2)) tok now'
        = validateAgainst (storeOf (Admin.jsonFile s)) tok now'.
Proof.
  cbv zeta.
  assert (Admin.mirrored
            (foldl (fun s c => Admin.call true c s)
                   (Admin.start now0 true stored found) calls)) as Hmirrored.
  { assert (Admin.mirrored (Admin.start now0 true stored found)) as H0
        by (exists now0; reflexivity).
    revert H0. generalize (Admin.start now0 true stored found).
    induction calls as [|c calls IH]; intros s Hs; [exact Hs|].
    simpl. apply IH, mirrored_call, Hs. }
  set (s := foldl _ _ calls) in *.
  pose proof (mirrored_synced s Hmirrored) as Hsynced.
  split; [exact Hmirrored|]. split; [exact Hsynced|].
  intros now v ip.
  assert (Admin.jsonFile (Admin.updateLastUsed now true v ip s).2
          = Admin.jsonFile s) as Hsame.
  { unfold Admin.updateLastUsed.
    destruct (Admin.findToken _ v); [|reflexivity].
    rewrite Hsynced. unfold Admin.jsonFile. simpl.
    now rewrite exported_updateFirst_used. }
  split; [apply (mirrored_call (Admin.Touch now v ip) s Hmirrored)|].
  split; [|split; [|split]].
  - intros t Hfind. unfold Admin.updateLastUsed. rewrite Hfind. simpl.
    split; [reflexivity|]. split; [reflexivity|].
    rewrite findToken_updateFirst by reflexivity.
    now rewrite String.eqb_refl, Hfind.
  - intros Hfind. unfold Admin.updateLastUsed. now rewrite Hfind.
  - exact Hsame.
  - intros tok now'. now rewrite Hsame.
Qed.

End TokenAdministration.




Lemma cleanup_keeps_valid_tokens_witness :
  (Admin.cleanExpiredTokens 6000 true Fixtures.phoneStore).1 = 1%nat /\
  Revocation.validateAgainst
    (Revocation.storeOf
       (Admin.jsonFile (Admin.cleanExpiredTokens 6000 true Fixtures.phoneStore).2))
    (Js.JStr Samples.tokenValue) 7000
  = Tokens.Valid (Admin.exported Fixtures.phoneToken).
Proof.
  split; [reflexivity|].
  apply (cleanup_keeps_valid_tokens 6000 Fixtures.phoneStore);
    [reflexivity | lia | reflexivity].
Defined.

Lemma token_stats_partition_witness :
  Admin.getStats 6000 Fixtures.phoneStore = Admin.mkStats 2 1 0 1 /\
  (TokenStore.getActiveTokenCount (Admin.jsonFile Fixtures.phoneStore) 6000
     (Tokens.mkManager None 0)).1 = 1%nat.
Proof.
  split; [reflexivity|].
  apply (token_stats_partition 6000 Fixtures.phoneStore). reflexivity.
Defined.

Lemma file_mirrors_store_witness :
  let s := Admin.call true (Admin.Revoke 2000 "none") Fixtures.phoneStore in
  let r := Admin.updateLastUsed 3000 true Samples.tokenValue (Some "10.0.0.7")
             s in
  Admin.file r.2 = Some (Admin.mkJsonData (Admin.tokens r.2) 3000) /\
  Admin.lastUsed <$> Admin.findToken (Admin.tokens r.2) Samples.tokenValue
    = Some (Some 3000) /\
  Admin.file r.2 <> Admin.file s /\
  Admin.jsonFile r.2 = Admin.jsonFile s.
Proof.
  cbv zeta.
  destruct (file_mirrors_store 1000 [Fixtures.staleToken; Fixtures.phoneToken]
              None [Admin.Revoke 2000 "none"])
    as (_ & _ & Htouch).
  destruct (Htouch 3000 Samples.tokenValue (Some "10.0.0.7"%string))
    as (_ & Hfound & _ & Hsame & _).
  destruct (Hfound Fixtures.phoneToken eq_refl) as (_ & Hfile & Hfind).
  split; [exact Hfile|]. split; [|split; [discriminate | exact Hsame]].
  exact (f_equal (fmap Admin.lastUsed) Hfind).
Defined.

(** ** The configured photo directories *)

Section PhotoPaths.
Import Paths.

Lemma find_none_path (paths : list PhotoPath) dir :
  List.find (fun p => String.eqb (path p) dir) paths = None <->
  dir ∉ map path paths.
Proof.
  induction paths as [|p paths IH]; simpl.
  - split; [intros _; apply not_elem_of_nil | reflexivity].
  - rewrite not_elem_of_cons.
    destruct (String.eqb_spec (path p) dir) as [Heq|Hne].
    + split; [discriminate | intros [Hne _]; congruence].
    + rewrite IH. split; [intros H; split; [congruence | exact H] | tauto].
Qed.

Lemma removeFirst_sublist {A} (p : A -> bool) (l : list A) :
  sublist (removeFirst p l) l.
Proof.
  induction l as [|x l IH]; simpl; [constructor|].
  destruct (p x); [now apply sublist_cons | now apply sublist_skip].
Qed.

Lemma setFirst_map {A B} (p : A -> bool) (f : A -> A) (g : A -> B)
  (l : list A) :
  (forall x, g (f x) = g x) -> map g (setFirst p f l) = map g l.
Proof.
  intros Hg. induction l as [|x l IH]; [reflexivity|]. simpl.
  destruct (p x); simpl; [now rewrite Hg | now rewrite IH].
Qed.

Lemma removeFirst_snoc_fresh (paths : list PhotoPath) p :
  (forall q, q ∈ paths -> id q <> id p) ->
  removeFirst (fun q => String.eqb (id q) (id p)) (paths ++ [p]) = paths.
Proof.
  intros Hfresh. induction paths as [|q paths IH]; simpl.
  - now rewrite String.eqb_refl.
  - destruct (String.eqb_spec (id q) (id p)) as [Heq|_].
    + exfalso. apply (Hfresh q); [left | exact Heq].
    + rewrite IH; [reflexivity|]. intros q' Hq'. apply Hfresh. now right.
Qed.

Lemma find_snoc_fresh (paths : list PhotoPath) p :
  List.find (fun q => String.eqb (id q) (id p)) (paths ++ [p]) <> None.
Proof.
  induction paths as [|q paths IH]; simpl.
  - now rewrite String.eqb_refl.
  - now destruct (String.eqb (id q) (id p)).
Qed.

Lemma setFirst_unique (paths : list PhotoPath) i f :
  NoDup (map id paths) -> (forall q, id (f q) = id q) ->
  setFirst (fun q => String.eqb (id q) i) f paths =
    map (fun q => if String.eqb (id q) i then f q else q) paths.
Proof.
  intros Hnodup Hf. induction paths as [|q paths IH]; [reflexivity|].
  simpl in *. apply NoDup_cons in Hnodup as [Hq Hnodup].
  destruct (String.eqb_spec (id q) i) as [Heq|Hne].
  - f_equal. clear IH. induction paths as [|q' paths IH]; [reflexivity|].
    simpl in *. apply not_elem_of_cons in Hq as [Hne Hq].
    apply NoDup_cons in Hnodup as [_ Hnodup].
    destruct (String.eqb_spec (id q') i); [congruence|].
    f_equal. now apply IH.
  - f_equal. now apply IH.
Qed.

Lemma find_unique (paths : list PhotoPath) i p :
  NoDup (map id paths) -> p ∈ paths -> id p = i ->
  List.find (fun q => String.eqb (id q) i) paths = Some p.
Proof.
  intros Hnodup Hin Hid. induction paths as [|q paths IH];
    [now apply elem_of_nil in Hin|].
  simpl in *. apply NoDup_cons in Hnodup as [Hq Hnodup].
  apply elem_of_cons in Hin as [->|Hin].
  - now rewrite Hid, String.eqb_refl.
  - destruct (String.eqb_spec (id q) i) as [Heq|_]; [|now apply IH].
    exfalso. apply Hq. rewrite Heq, <- Hid. now apply list_elem_of_fmap_2.
Qed.

(** X8.  No call of the manager stores a directory twice: when the
    paths of the store are pairwise different, they still are after any
    run of [addPath], [removePath], [togglePath] and [clearAllPaths],
    whether the writes succeed or not. *)
Theorem paths_stay_distinct (calls : list (bool * Call)) :
  forall file,
    NoDup (map path (getAllPaths file)) ->
    NoDup (map path
             (getAllPaths (foldl (fun file c => (call c.1 c.2 file).2) file
                                 calls))).
Proof.
  induction calls as [|[writable c] calls IH]; intros file Hnodup;
    [exact Hnodup|].
  simpl. apply IH. destruct writable, c as [fs now suffix dir|i|i e|]; simpl;
    unfold addPath, removePath, togglePath, clearAllPaths, writeStore;
    try exact Hnodup.
  - destruct (isDirectory fs (resolve fs dir)) as [[|]|]; try exact Hnodup.
    destruct (List.find _ (getAllPaths file)) eqn:Hfind; [exact Hnodup|].
    simpl. rewrite map_app. simpl. apply NoDup_app. split; [exact Hnodup|].
    split; [|apply NoDup_singleton].
    intros x Hx Hx'. apply list_elem_of_singleton in Hx'. subst x.
    now apply find_none_path in Hfind.
  - destruct (List.find _ (getAllPaths file)); [|exact Hnodup]. simpl.
    eapply sublist_NoDup; [exact Hnodup|].
    apply (fmap_sublist path), removeFirst_sublist.
  - destruct (List.find _ (getAllPaths file)); [|exact Hnodup]. simpl.
    now rewrite setFirst_map.
  - constructor.
  - destruct (isDirectory fs (resolve fs dir)) as [[|]|]; try exact Hnodup.
    now destruct (List.find _ (getAllPaths file)).
  - now destruct (List.find _ (getAllPaths file)).
  - now destruct (List.find _ (getAllPaths file)).
Qed.

(** X9.  Adding a directory that exists and is not yet configured appends
    it, enabled, to the store; removing the id that [addPath] answered
    gives back the store as it was, provided no older entry has that
    id. *)
Theorem add_then_remove fs now suffix dir file :
  isDirectory fs (resolve fs dir) = Some true ->
  resolve fs dir ∉ map path (getAllPaths file) ->
  generateId now suffix ∉ map id (getAllPaths file) ->
  let added := addPath fs now suffix true dir file in
  let newPath := mkPath (generateId now suffix) (resolve fs dir) true now in
  added.1 = mkAnswer true "Path added successfully" (Some newPath) /\
  getAllPaths added.2 = getAllPaths file ++ [newPath] /\
  newPath ∈ getEnabledPaths added.2 /\
  let removed := removePath true (generateId now suffix) added.2 in
  success removed.1 = true /\ getAllPaths removed.2 = getAllPaths file.
Proof.
  intros Hdir Hnew Hfresh. cbv zeta. unfold addPath. rewrite Hdir.
  apply find_none_path in Hnew. rewrite Hnew. cbn [fst snd writeStore getAllPaths
                                                    from_option].
  split; [reflexivity|]. split; [reflexivity|]. split.
  - unfold getEnabledPaths. simpl. apply elem_of_List_filter.
    split; [reflexivity|]. apply elem_of_app. right. now left.
  - unfold removePath. cbn [getAllPaths from_option].
    set (newPath := mkPath _ _ _ _).
    change (generateId now suffix) with (id newPath).
    destruct (List.find _ (_ ++ [newPath])) eqn:Hfind;
      [|now apply find_snoc_fresh in Hfind].
    cbn [fst snd writeStore getAllPaths from_option success].
    split; [reflexivity|]. apply removeFirst_snoc_fresh.
    intros q Hq Heq. apply Hfresh. simpl in Heq. rewrite <- Heq.
    now apply list_elem_of_fmap_2.
Qed.

(** X10.  When ids are pairwise different, [togglePath] sets the switch
    of the entry with the given id and of no other, and leaves ids,
    directories and order alone; so the entry is among the enabled
    paths afterwards exactly when it was switched on.  An unknown id
    changes nothing. *)
Theorem toggle_sets_one_path i e file :
  NoDup (map id (getAllPaths file)) ->
  (forall p, p ∈ getAllPaths file -> id p = i ->
     let r := togglePath true i e file in
     r.1 = mkAnswer true
             ("Path " +:+ (if e then "enabled" else "disabled")
              +:+ " successfully")
             (Some (withEnabled e p)) /\
     getAllPaths r.2 =
       map (fun q => if String.eqb (id q) i then withEnabled e q else q)
           (getAllPaths file) /\
     (withEnabled e p ∈ getEnabledPaths r.2 <-> e = true) /\
     forall q, id q <> i ->
       (q ∈ getEnabledPaths r.2 <-> q ∈ getEnabledPaths file)) /\
  (i ∉ map id (getAllPaths file) ->
     togglePath true i e file = (mkAnswer false "Path not found" None, file)).
Proof.
  intros Hnodup. split.
  - intros p Hin Hid. cbv zeta. unfold togglePath.
    rewrite (find_unique _ _ _ Hnodup Hin Hid).
    cbn [fst snd writeStore getAllPaths from_option].
    rewrite (setFirst_unique _ _ _ Hnodup) by reflexivity.
    split; [reflexivity|]. split; [reflexivity|].
    unfold getEnabledPaths. cbn [getAllPaths from_option].
    split.
    + rewrite elem_of_List_filter. simpl. split; [now intros [He _]|].
      intros ->. split; [reflexivity|].
      apply list_elem_of_fmap. exists p. split; [|exact Hin].
      now rewrite Hid, String.eqb_refl.
    + intros q Hq. rewrite !elem_of_List_filter, list_elem_of_fmap.
      split.
      * intros [Hen (q0 & Heq & Hq0)]. split; [exact Hen|].
        destruct (String.eqb_spec (id q0) i) as [Hi|_]; [|now subst q].
        subst q. now simpl in Hq.
      * intros [Hen Hin']. split; [exact Hen|]. exists q. split; [|exact Hin'].
        now replace (String.eqb (id q) i) with false
          by (symmetry; now apply String.eqb_neq).
  - intros Hunknown. unfold togglePath.
    destruct (List.find _ (getAllPaths file)) as [p|] eqn:Hfind; [|reflexivity].
    exfalso. apply Hunknown. apply find_some in Hfind as [Hin Heq].
    apply String.eqb_eq in Heq. rewrite <- Heq.
    apply list_elem_of_fmap_2. now apply list_elem_of_In.
Qed.

(** X11.  A failed write is silent: the store keeps what it had after
    every call, and [addPath] still answers that the directory was
    added although it is not among the configured paths. *)
Theorem failed_write_is_silent file :
  (forall c, (call false c file).2 = file) /\
  (forall fs now suffix dir,
     isDirectory fs (resolve fs dir) = Some true ->
     resolve fs dir ∉ map path (getAllPaths file) ->
     let r := addPath fs now suffix false dir file in
     success r.1 = true /\ message r.1 = "Path added successfully"%string /\
     resolve fs dir ∉ map path (getAllPaths r.2)).
Proof.
  split.
  - intros [fs now suffix dir|i|i e|]; simpl;
      unfold addPath, removePath, togglePath, clearAllPaths, writeStore.
    + destruct (isDirectory fs (resolve fs dir)) as [[|]|]; try reflexivity.
      now destruct (List.find _ (getAllPaths file)).
    + now destruct (List.find _ (getAllPaths file)).
    + now destruct (List.find _ (getAllPaths file)).
    + reflexivity.
  - intros fs now suffix dir Hdir Hnew. cbv zeta. unfold addPath.
    rewrite Hdir. pose proof Hnew as Hnone. apply find_none_path in Hnone.
    rewrite Hnone. simpl. now repeat split.
Qed.

End PhotoPaths.

Lemma paths_stay_distinct_witness :
  NoDup
    (map Paths.path
       (Paths.getAllPaths
          (foldl (fun file c => (Paths.call c.1 c.2 file).2) Fixtures.pathStore
                 [(true, Paths.Add Fixtures.anyDir 5 "abc" "/photos");
                  (true, Paths.Add Fixtures.anyDir 6 "abd" "/summer");
                  (false, Paths.Clear);
                  (true, Paths.Toggle "path_2_b" true)]))).
Proof.
  apply paths_stay_distinct. simpl.
  apply NoDup_cons. split; [|apply NoDup_singleton].
  intros H. apply list_elem_of_singleton in H. discriminate H.
Defined.

Lemma add_then_remove_witness :
  Paths.getAllPaths
    (Paths.removePath true (Paths.generateId 5 "abc")
       (Paths.addPath Fixtures.anyDir 5 "abc" true "/summer"
          Fixtures.pathStore).2).2
  = [Fixtures.photosDir; Fixtures.tripDir].
Proof.
  apply (add_then_remove Fixtures.anyDir 5 "abc" "/summer" Fixtures.pathStore).
  - reflexivity.
  - simpl. intros H. apply elem_of_cons in H as [H|H]; [discriminate H|].
    apply list_elem_of_singleton in H. discriminate H.
  - simpl. intros H. apply elem_of_cons in H as [H|H];
      [vm_compute in H; discriminate H|].
    apply list_elem_of_singleton in H. vm_compute in H. discriminate H.
Defined.

Lemma toggle_sets_one_path_witness :
  Paths.getEnabledPaths (Paths.togglePath true "path_2_b" true Fixtures.pathStore).2
  = [Fixtures.photosDir; Paths.withEnabled true Fixtures.tripDir] /\
  Paths.getAllPaths (Paths.togglePath true "path_2_b" true Fixtures.pathStore).2
  = [Fixtures.photosDir; Paths.withEnabled true Fixtures.tripDir].
Proof.
  split; [reflexivity|].
  assert (NoDup (map Paths.id (Paths.getAllPaths Fixtures.pathStore))) as Hnodup.
  { simpl. apply NoDup_cons. split; [|apply NoDup_singleton].
    intros H. apply list_elem_of_singleton in H. discriminate H. }
  apply (proj1 (toggle_sets_one_path "path_2_b" true Fixtures.pathStore Hnodup)
           Fixtures.tripDir).
  - simpl. right. left.
  - reflexivity.
Defined.

Lemma failed_write_is_silent_witness :
  let r := Paths.addPath Fixtures.anyDir 5 "abc" false "/summer"
             Fixtures.pathStore in
  Paths.success r.1 = true /\ Paths.getAllPaths r.2
                               = [Fixtures.photosDir; Fixtures.tripDir].
Proof.
  split; [|reflexivity].
  apply (proj2 (failed_write_is_silent Fixtures.pathStore) Fixtures.anyDir 5
           "abc" "/summer").
  - reflexivity.
  - simpl. intros H. apply elem_of_cons in H as [H|H]; [discriminate H|].
    apply list_elem_of_singleton in H. discriminate H.
Defined.

(** ** Scanning *)

Section Scanning.
Import Catalog Cache Scan.
Variable md5 : string -> string.
Variable extnameLower : string -> string.
Variable pathJoin : string -> string -> string.
Variable relative : string -> string -> string.
Variable pathSep : Ascii.ascii.

#[local] Abbreviation scanEntry := (scanEntry md5 extnameLower pathJoin relative pathSep).
#[local] Abbreviation scanDirectoryRecursive :=
  (scanDirectoryRecursive md5 extnameLower pathJoin relative pathSep).
#[local] Abbreviation scanPhotos :=
  (scanPhotos md5 extnameLower pathJoin relative pathSep).

(** Induction over a directory tree. *)
Lemma FsNode_tree_ind (P : FsNode -> Prop) :
  (forall name stat metadata, P (FileNode name stat metadata)) ->
  (forall name entries, Forall P entries -> P (DirNode name (Ok entries))) ->
  (forall name e, P (DirNode name (Err e))) ->
  (forall name, P (OtherNode name)) ->
  forall entry, P entry.
Proof.
  intros Hfile Hdir Herr Hother. fix IH 1.
  intros [name stat metadata|name [entries|e]|name].
  - apply Hfile.
  - apply Hdir. induction entries as [|x xs IHxs]; constructor;
      [apply IH | exact IHxs].
  - apply Herr.
  - apply Hother.
Qed.

Lemma scanEntries_found scanOne (entries : list FsNode) (Q : PhotoRecord -> Prop) :
  Forall (fun entry => forall results, exists found,
            scanOne entry results = (length found, results ++ found) /\
            Forall Q found) entries ->
  forall results, exists found,
    scanEntries scanOne entries results = (length found, results ++ found) /\
    Forall Q found.
Proof.
  intros Hall. unfold scanEntries.
  set (f := fun (acc : nat * list PhotoRecord) entry =>
              let r := scanOne entry acc.2 in ((acc.1 + r.1)%nat, r.2)).
  assert (forall (n : nat) results, exists found,
            fold_left f entries (n, results)
            = ((n + length found)%nat, results ++ found) /\ Forall Q found)
    as Hgen.
  { induction Hall as [|entry entries Hentry _ IH]; intros n results.
    - exists []. simpl. now rewrite Nat.add_0_r, app_nil_r.
    - cbn [fold_left].
      change (f (n, results) entry)
        with ((n + (scanOne entry results).1)%nat, (scanOne entry results).2).
      destruct (Hentry results) as (found1 & -> & Hq1). cbn [fst snd].
      destruct (IH (n + length found1)%nat (results ++ found1))
        as (found2 & -> & Hq2).
      exists (found1 ++ found2). rewrite length_app, Nat.add_assoc, app_assoc.
      split; [reflexivity|]. now apply Forall_app. }
  intros results. destruct (Hgen 0%nat results) as (found & Hfold & Hq).
  exists found. now rewrite Hfold.
Qed.

Lemma scanEntry_found (entry : FsNode) :
  forall root dir results, exists found,
    scanEntry root dir entry results = (length found, results ++ found) /\
    Forall (scanned md5 extnameLower root) found.
Proof.
  induction entry as [name stat metadata|name entries IH|name e|name]
    using FsNode_tree_ind; intros root dir results.
  - simpl. destruct (isImageFile extnameLower name) eqn:Himage;
      [|exists []; now rewrite app_nil_r].
    destruct stat as [[size mtimeMs]|e]; [|exists []; now rewrite app_nil_r].
    eexists [_]. split; [reflexivity|]. constructor; [|constructor].
    now repeat split.
  - simpl.
    set (root' := if String.eqb root EmptyString then pathJoin dir name else root).
    destruct (scanEntries_found (scanEntry root' (pathJoin dir name)) entries
                (scanned md5 extnameLower root')) with (results := results)
      as (found & Hscan & Hq).
    { eapply Forall_impl; [exact IH|]. intros entry Hentry results'.
      apply Hentry. }
    exists found. split; [exact Hscan|].
    eapply Forall_impl; [exact Hq|]. intros photo (Himage & Hid & Hroot).
    split; [exact Himage|]. split; [exact Hid|]. intros Hne. unfold root' in Hroot.
    destruct (String.eqb_spec root EmptyString); [contradiction|].
    now apply Hroot.
  - exists []. simpl. now rewrite app_nil_r.
  - exists []. simpl. now rewrite app_nil_r.
Qed.

Lemma scanDirectory_found dirPath listing results rootPath :
  exists found,
    scanDirectoryRecursive dirPath listing results rootPath
      = (length found, results ++ found) /\
    Forall (scanned md5 extnameLower (match rootPath with
                     | Some r => if String.eqb r EmptyString then dirPath else r
                     | None => dirPath
                     end)) found.
Proof.
  unfold Scan.scanDirectoryRecursive.
  set (root := match rootPath with Some _ => _ | None => _ end).
  destruct listing as [entries|e]; [|exists []; now rewrite app_nil_r].
  apply scanEntries_found. apply Forall_forall. intros entry _ results'.
  apply scanEntry_found.
Qed.

(** X12.  [scanDirectoryRecursive] answers exactly the number of records
    it appended: the array it was given is kept as a prefix, every new
    record is an image file with the id made of its path and
    modification time, and in a scan started at a directory every
    record has that directory as its root.  A directory that cannot be
    listed and a file whose [stat] fails add nothing. *)
Theorem scan_count_matches_records dirPath listing results :
  let r := scanDirectoryRecursive dirPath listing results None in
  exists found,
    r.2 = results ++ found /\ r.1 = length found /\
    Forall (fun photo =>
              isImageFile extnameLower (filename photo) = true /\
              id photo = generatePhotoId md5 (path photo) (modified photo) /\
              (dirPath <> EmptyString -> rootPath photo = dirPath)) found /\
    (forall e, listing = Err e -> found = []).
Proof.
  cbv zeta.
  destruct (scanDirectory_found dirPath listing results None)
    as (found & Hscan & Hq).
  exists found. rewrite Hscan. split; [reflexivity|]. split; [reflexivity|].
  split; [exact Hq|]. intros e ->. simpl in Hscan.
  injection Hscan as Hlen _. symmetry in Hlen. now apply length_zero_iff_nil.
Qed.

(** X13.  A scan tells the clients that the manifest changed exactly
    when the Streaming server is up, some directory is enabled and the
    number of photos differs from the number after the last such scan;
    it compares counts only.  With no directory enabled the catalog is
    emptied, nothing is sent and the remembered count stays. *)
Theorem scan_notifies_on_count_change storeFile tree wsReady st :
  let st' := scanPhotos storeFile tree wsReady st in
  (Paths.getEnabledPaths storeFile = [] ->
     st' = mkScanState [] (previousPhotoCount st) (broadcasts st)) /\
  (Paths.getEnabledPaths storeFile <> [] ->
     previousPhotoCount st' = length (photosDatabase st') /\
     (length (photosDatabase st') = previousPhotoCount st \/ wsReady = false ->
        broadcasts st' = broadcasts st) /\
     (length (photosDatabase st') <> previousPhotoCount st -> wsReady = true ->
        broadcasts st' =
          broadcasts st ++
            [mkUpdated (previousPhotoCount st) (length (photosDatabase st'))])) /\
  Forall (fun photo =>
            isImageFile extnameLower (filename photo) = true /\
            id photo = generatePhotoId md5 (path photo) (modified photo))
         (photosDatabase st').
Proof.
  cbv zeta. unfold Scan.scanPhotos.
  split; [|split].
  - intros ->. reflexivity.
  - intros Hsome.
    destruct (Paths.getEnabledPaths storeFile) as [|p ps] eqn:Hpaths;
      [contradiction|].
    cbn [length Nat.eqb photosDatabase previousPhotoCount broadcasts].
    set (database := fold_left _ (p :: ps) []).
    split; [reflexivity|]. split.
    + intros [Hsame|Hdown].
      * rewrite Hsame, Nat.eqb_refl. simpl. apply app_nil_r.
      * rewrite Hdown, andb_false_r. apply app_nil_r.
    + intros Hdiff ->. apply Nat.eqb_neq in Hdiff. now rewrite Hdiff.
  - destruct (Nat.eqb _ 0); [constructor|]. simpl.
    assert (Forall (fun photo =>
                      isImageFile extnameLower (filename photo) = true /\
                      id photo = generatePhotoId md5 (path photo) (modified photo))
                   (@nil PhotoRecord)) as Hnil by constructor.
    revert Hnil. generalize (@nil PhotoRecord).
    induction (Paths.getEnabledPaths storeFile) as [|p ps IH];
      intros database Hdb; [exact Hdb|].
    simpl. apply IH. destruct (tree (Paths.path p)) as [listing|]; [|exact Hdb].
    destruct (scanDirectory_found (Paths.path p) listing database None)
      as (found & -> & Hq).
    simpl. apply Forall_app. split; [exact Hdb|].
    eapply Forall_impl; [exact Hq|]. now intros photo (Himage & Hid & _).
Qed.

End Scanning.

Lemma scan_count_matches_records_witness :
  let r := Scan.scanDirectoryRecursive (fun s => s) Fixtures.extOf
             Fixtures.joinPath Fixtures.below Folders.slash "/photos"
             Fixtures.photoTree [Samples.photoA] None in
  r.1 = 2%nat /\
  (r.1 + 1)%nat = length r.2 /\
  map Catalog.folderPath r.2 = [""; ""; "trip"]%string.
Proof.
  split; [reflexivity|]. split; [|reflexivity].
  destruct (scan_count_matches_records (fun s => s) Fixtures.extOf
              Fixtures.joinPath Fixtures.below Folders.slash "/photos"
              Fixtures.photoTree [Samples.photoA])
    as (found & Hresults & Hcount & _).
  rewrite Hresults, Hcount, length_app. simpl. lia.
Defined.

Lemma scan_notifies_on_count_change_witness :
  Scan.broadcasts
    (Scan.scanPhotos (fun s => s) Fixtures.extOf Fixtures.joinPath
       Fixtures.below Folders.slash Fixtures.pathStore Fixtures.photosOnly true
       (Scan.mkScanState [] 0 []))
  = [Scan.mkUpdated 0 2] /\
  Scan.broadcasts
    (Scan.scanPhotos (fun s => s) Fixtures.extOf Fixtures.joinPath
       Fixtures.below Folders.slash Fixtures.pathStore Fixtures.photosOnly true
       (Scan.mkScanState [Samples.photoA; Samples.photoB] 2 []))
  = [].
Proof.
  split.
  - apply (proj1 (proj2 (scan_notifies_on_count_change (fun s => s)
                           Fixtures.extOf Fixtures.joinPath Fixtures.below
                           Folders.slash Fixtures.pathStore Fixtures.photosOnly
                           true (Scan.mkScanState [] 0 []))));
      [discriminate | simpl; lia | reflexivity].
  - apply (proj1 (proj2 (scan_notifies_on_count_change (fun s => s)
                           Fixtures.extOf Fixtures.joinPath Fixtures.below
                           Folders.slash Fixtures.pathStore Fixtures.photosOnly
                           true
                           (Scan.mkScanState [Samples.photoA; Samples.photoB]
                                             2 []))));
      [discriminate | left; reflexivity].
Defined.

(** ** The HTTP routes *)

Section HttpRoutes.
Import Js Catalog Wire Cache Worker Http.
Variable md5 : bytes -> string.
Variable md5Text : string -> string.

#[local] Abbreviation getCompressedPhoto := (getCompressedPhoto md5).

Lemma orDefault_range parsed fallback lo hi :
  ((orDefault parsed fallback <? lo) || (hi <? orDefault parsed fallback)) = false
  <-> lo <= orDefault parsed fallback <= hi.
Proof.
  rewrite orb_false_iff, !Z.ltb_ge. tauto.
Qed.

(** The route, once its parameters are in range. *)
Lemma getCompressedPhoto_in_range env pid q d w :
  1 <= orDefault q 50 <= 100 -> 1 <= orDefault d 1920 <= 10000 ->
  getCompressedPhoto env pid q d w =
    match getPhoto (database w) pid with
    | None => (jsonError 404 "Photo not found", w)
    | Some photo =>
        if negb (sourceExists env (path photo)) then
          (jsonError 404 "Photo file not found on disk", w)
        else
          match compressImage env (cacheState w) (path photo) (orDefault q 50)
                              (orDefault d 1920) pid with
          | (Err _, cache') =>
              (jsonError 500 "Compression failed",
               mkWorld (database w) cache' (emitted w))
          | (Ok buffer, cache') =>
              (mkResponse 200
                 ([ ("Content-Type", "image/jpeg");
                    ("ETag", quote +:+ md5 buffer +:+ quote) ]%string
                  ++ noCache
                  ++ [ ("Content-Length", pretty (length buffer)) ]%string)
                 (BytesBody buffer),
               mkWorld (database w) cache' (emitted w))
          end
    end.
Proof.
  intros Hq Hd. unfold Http.getCompressedPhoto, getPhoto.
  rewrite (proj2 (orDefault_range q 50 1 100) Hq),
          (proj2 (orDefault_range d 1920 1 10000) Hd).
  destruct (List.find _ (database w)) as [photo|]; [|reflexivity].
  destruct (negb (sourceExists env (path photo))); [reflexivity|].
  now destruct (compressImage _ _ _ _ _ _) as [[buffer|e] cache'].
Qed.

Lemma getCompressedPhoto_out_of_range env pid q d w :
  ~ (1 <= orDefault q 50 <= 100 /\ 1 <= orDefault d 1920 <= 10000) ->
  status (getCompressedPhoto env pid q d w).1 = 400%nat.
Proof.
  intros Hout. unfold Http.getCompressedPhoto.
  destruct (Z.ltb_spec (orDefault q 50) 1); [reflexivity|].
  destruct (Z.ltb_spec 100 (orDefault q 50)); [reflexivity|].
  destruct (Z.ltb_spec (orDefault d 1920) 1); [reflexivity|].
  destruct (Z.ltb_spec 10000 (orDefault d 1920)); [reflexivity|]. lia.
Qed.

(** X14.  [GET /api/photo/:id] never touches the catalog or a socket.
    It answers 400 exactly when the quality or the dimension, after
    defaults, is out of range, and, for parameters in range, 404
    exactly when the catalog has no such photo or its file is gone; a
    200 carries the rendition that is now in the memory cache, with its
    MD5 in quotes as the entity tag and its length.  A quality of 0 is
    read as if it had been left out. *)
Theorem compressed_photo_response env pid q d w :
  let quality := orDefault q 50 in
  let maxDimension := orDefault d 1920 in
  let inRange := 1 <= quality <= 100 /\ 1 <= maxDimension <= 10000 in
  let r := getCompressedPhoto env pid q d w in
  database r.2 = database w /\ emitted r.2 = emitted w /\
  (status r.1 = 400%nat <-> ~ inRange) /\
  (status r.1 = 404%nat <->
     inRange /\
     match getPhoto (database w) pid with
     | None => True
     | Some photo => sourceExists env (path photo) = false
     end) /\
  (status r.1 = 200%nat ->
     exists b,
       r.1 = mkResponse 200
               ([ ("Content-Type", "image/jpeg");
                  ("ETag", quote +:+ md5 b +:+ quote) ]%string
                ++ noCache ++ [ ("Content-Length", pretty (length b)) ]%string)
               (BytesBody b) /\
       mem (cacheState r.2) !! getCacheKey pid quality maxDimension = Some b) /\
  getCompressedPhoto env pid (Some 0) d w = getCompressedPhoto env pid None d w.
Proof.
  cbv zeta.
  destruct (Z.ltb_spec (orDefault q 50) 1) as [Hq1|Hq1];
    [|destruct (Z.ltb_spec 100 (orDefault q 50)) as [Hq2|Hq2]];
    [| |destruct (Z.ltb_spec (orDefault d 1920) 1) as [Hd1|Hd1];
        [|destruct (Z.ltb_spec 10000 (orDefault d 1920)) as [Hd2|Hd2]]].
  1-4: unfold Http.getCompressedPhoto;
    repeat match goal with
      | |- context [Z.ltb ?a ?b] =>
          first [ replace (Z.ltb a b) with true by (symmetry; apply Z.ltb_lt; lia)
                | replace (Z.ltb a b) with false by (symmetry; apply Z.ltb_ge; lia) ]
      end;
    cbn [orb fst snd status jsonError];
    (split; [reflexivity|]); (split; [reflexivity|]);
    (split; [split; [lia | reflexivity]|]);
    (split; [split; [discriminate | lia]|]);
    (split; [discriminate | reflexivity]).
  rewrite getCompressedPhoto_in_range by lia.
  destruct (getPhoto (database w) pid) as [photo|] eqn:Hphoto.
  - destruct (sourceExists env (path photo)) eqn:Hexists; simpl.
    + destruct (compressImage env (cacheState w) (path photo) (orDefault q 50)
                  (orDefault d 1920) pid) as [[b|e] c'] eqn:Hcompress; simpl.
      * split; [reflexivity|]. split; [reflexivity|].
        split; [split; [discriminate | lia]|].
        split; [split; [discriminate | now intros [_ ?]]|].
        split; [|reflexivity]. intros _. exists b. split; [reflexivity|].
        now apply compressImage_ok_cached in Hcompress.
      * split; [reflexivity|]. split; [reflexivity|].
        split; [split; [discriminate | lia]|].
        split; [split; [discriminate | now intros [_ ?]]|].
        split; [discriminate | reflexivity].
    + split; [reflexivity|]. split; [reflexivity|].
      split; [split; [discriminate | lia]|].
      split; [split; [intros _; split; [lia | reflexivity] | reflexivity]|].
      split; [discriminate | reflexivity].
  - simpl. split; [reflexivity|]. split; [reflexivity|].
    split; [split; [discriminate | lia]|].
    split; [split; [intros _; split; [lia | exact I] | reflexivity]|].
    split; [discriminate | reflexivity].
Qed.

(** X15.  The HTTP route and the Streaming worker serve the same
    rendition: once [GET /api/photo/:id] has answered 200 for a photo,
    quality and dimension, every later compressed job for the same
    three that succeeds sends the bytes of that answer, and its
    checksum is the answer's entity tag. *)
Theorem http_and_stream_agree env pid q d w resp w1 w2 env' job w3 :
  getCompressedPhoto env pid q d w = (resp, w1) ->
  status resp = 200%nat ->
  evolves (cacheState w1) (cacheState w2) ->
  photoId job = pid ->
  quality job = orDefault q 50 ->
  maxDimension job = orDefault d 1920 ->
  processCompressedPhoto md5 env' w2 job = (Ok tt, w3) ->
  exists b,
    body resp = BytesBody b /\
    ("ETag"%string, quote +:+ md5 b +:+ quote) ∈ headers resp /\
    emitted w3 =
      emitted w2 ++
        [(socket job, PhotoData pid b (length b) (md5 b) "image/jpeg");
         (socket job, PhotoComplete pid (length b) (md5 b))].
Proof.
  intros Hget Hstatus Hevolves Hpid Hquality Hdim Hjob.
  assert (1 <= orDefault q 50 <= 100 /\ 1 <= orDefault d 1920 <= 10000)
    as [Hq Hd].
  { destruct (decide (1 <= orDefault q 50 <= 100
                       /\ 1 <= orDefault d 1920 <= 10000)) as [Hin|Hout];
      [exact Hin|].
    apply (getCompressedPhoto_out_of_range env pid q d w) in Hout.
    rewrite Hget in Hout. simpl in Hout. congruence. }
  rewrite getCompressedPhoto_in_range in Hget by assumption.
  destruct (getPhoto (database w) pid) as [photo|];
    [|injection Hget as <- _; discriminate Hstatus].
  destruct (negb (sourceExists env (path photo)));
    [injection Hget as <- _; discriminate Hstatus|].
  destruct (compressImage env (cacheState w) (path photo) (orDefault q 50)
              (orDefault d 1920) pid) as [[b|e] c'] eqn:Hcompress;
    [|injection Hget as <- _; discriminate Hstatus].
  injection Hget as <- <-. simpl in Hevolves.
  apply processCompressedPhoto_ok in Hjob
    as (photo' & b' & c3 & Hphoto' & Hcompress' & ->).
  rewrite Hpid, Hquality, Hdim in Hcompress'.
  pose proof (compressImage_deterministic _ _ _ _ _ _ _ _ _ env' (path photo')
                Hcompress Hevolves) as Hsame.
  rewrite Hcompress' in Hsame. injection Hsame as ->.
  exists b. split; [reflexivity|]. split; [|now rewrite Hpid].
  simpl. right. left.
Qed.

(** X16.  When the rendition can be produced but the cache directory
    cannot be written, the first request fails with 500 and yet leaves
    the rendition in memory, so that the same request, made again,
    succeeds with it whatever the image library or the disk would
    answer then. *)
Theorem retry_after_failed_cache_write env pid q d w photo b e :
  1 <= orDefault q 50 <= 100 -> 1 <= orDefault d 1920 <= 10000 ->
  getPhoto (database w) pid = Some photo ->
  sourceExists env (path photo) = true ->
  mem (cacheState w) !! getCacheKey pid (orDefault q 50) (orDefault d 1920)
    = None ->
  disk (cacheState w)
    !! cacheFilePathOf env
         (getCacheKey pid (orDefault q 50) (orDefault d 1920)) = None ->
  sharp env (path photo) (orDefault q 50) (orDefault d 1920) = Ok b ->
  diskWritable env
    (cacheFilePathOf env (getCacheKey pid (orDefault q 50) (orDefault d 1920)))
    = Err e ->
  let first := getCompressedPhoto env pid q d w in
  first.1 = jsonError 500 "Compression failed" /\
  forall env', sourceExists env' (path photo) = true ->
    let second := getCompressedPhoto env' pid q d first.2 in
    status second.1 = 200%nat /\ body second.1 = BytesBody b.
Proof.
  intros Hq Hd Hphoto Hexists Hmem Hdisk Hsharp Hwrite. cbv zeta.
  set (key := getCacheKey pid (orDefault q 50) (orDefault d 1920)) in *.
  assert (getCompressedPhoto env pid q d w
          = (jsonError 500 "Compression failed",
             mkWorld (database w)
               (mkCache (<[key := b]> (mem (cacheState w)))
                        (disk (cacheState w))
                        (ops (cacheState w) ++ [Resample (path photo); MemSet key]))
               (emitted w))) as ->.
  { rewrite getCompressedPhoto_in_range by assumption.
    rewrite Hphoto, Hexists. simpl. unfold compressImage. fold key.
    now rewrite Hmem, Hdisk, Hsharp, Hwrite. }
  split; [reflexivity|]. intros env' Hexists'.
  rewrite getCompressedPhoto_in_range by assumption.
  cbn [fst snd database cacheState]. rewrite Hphoto, Hexists'. simpl.
  rewrite compressImage_hit with (b := b)
    by (simpl; fold key; apply lookup_insert_eq).
  now split.
Qed.

Lemma fold_max_ge (l : list Z) :
  forall z, z <= fold_left Z.max l z /\
            Forall (fun x => x <= fold_left Z.max l z) l /\
            (fold_left Z.max l z = z \/ fold_left Z.max l z ∈ l).
Proof.
  induction l as [|x l IH]; intros z; simpl.
  - split; [lia|]. split; [constructor | now left].
  - destruct (IH (Z.max z x)) as (Hge & Hall & Hin).
    split; [lia|]. split; [constructor; [lia | exact Hall]|].
    destruct Hin as [Heq|Hin]; [|right; now right].
    rewrite Heq. destruct (Z.max_spec z x) as [[_ ->]|[_ ->]];
      [right; now left | now left].
Qed.

(** X17.  [GET /api/sync-status] and the Streaming manifest agree on the
    number of photos and on the catalog hash, so a client may compare
    one with the other; the reported [lastModified], which [/health]
    reports as [timestamp], is the latest modification time of a
    catalog record, and the clock when the catalog is empty. *)
Theorem sync_status_matches_manifest now db :
  exists status manifest latest,
    body (syncStatus md5Text now db) = JsonBody status /\
    Manifest.handleManifestRequest md5Text db true = Some manifest /\
    get status "photoCount" = get manifest "count" /\
    get status "directoryHash" = get manifest "hash" /\
    get status "lastModified" = JNum latest /\
    body (health now db) =
      JsonBody (JObj [ ("status", JStr "ok");
                       ("photoCount", JNum (Z.of_nat (length db)));
                       ("timestamp", JNum latest) ]%string) /\
    (db = [] -> latest = now) /\
    (db <> [] ->
       latest ∈ map modified db /\ Forall (fun p => modified p <= latest) db).
Proof.
  eexists _, _, (lastModifiedOf now db).
  split; [reflexivity|]. split; [reflexivity|].
  split; [simpl; now rewrite length_map|].
  split; [reflexivity|]. split; [reflexivity|]. split; [reflexivity|].
  split; [now intros ->|].
  intros Hne. unfold lastModifiedOf.
  destruct db as [|p db]; [contradiction|]. simpl.
  destruct (fold_max_ge (map modified db) (modified p)) as (Hge & Hall & Hin).
  split.
  - destruct Hin as [->|Hin]; [now left | now right].
  - constructor; [exact Hge|]. apply Forall_forall. intros x Hx.
    rewrite Forall_forall in Hall. apply Hall. now apply list_elem_of_fmap_2.
Qed.

End HttpRoutes.

Section Rescan.
Import Js Catalog Wire Cache Worker Http.
Variable md5Text : string -> string.
Variable extnameLower : string -> string.
Variable pathJoin : string -> string -> string.
Variable relative : string -> string -> string.
Variable pathSep : Ascii.ascii.

#[local] Abbreviation rescan :=
  (rescan md5Text extnameLower pathJoin relative pathSep).

Lemma unlinkAll_subset directory ok (files : list string) :
  forall (disk : gmap string bytes) p b,
    unlinkAll directory ok files disk !! p = Some b -> disk !! p = Some b.
Proof.
  induction files as [|file files IH]; intros disk p b Hp; [exact Hp|].
  simpl in Hp. destruct (ok (directory +:+ "/" +:+ file)); [|exact Hp].
  apply IH in Hp. apply lookup_delete_Some in Hp. tauto.
Qed.

Lemma unlinkAll_gone directory ok (files : list string) :
  (forall file, file ∈ files -> ok (directory +:+ "/" +:+ file) = true) ->
  forall (disk : gmap string bytes) file,
    file ∈ files ->
    unlinkAll directory ok files disk !! (directory +:+ "/" +:+ file) = None.
Proof.
  induction files as [|f files IH]; intros Hok disk file Hin;
    [now apply elem_of_nil in Hin|].
  simpl. rewrite Hok by now left.
  destruct (decide (file ∈ files)) as [Hrest|Hrest].
  - apply IH; [|exact Hrest]. intros f' Hf'. apply Hok. now right.
  - apply elem_of_cons in Hin as [->|Hin]; [|contradiction].
    destruct (unlinkAll directory ok files
                (delete (directory +:+ "/" +:+ f) disk)
              !! (directory +:+ "/" +:+ f)) as [b|] eqn:Hlookup; [|reflexivity].
    apply unlinkAll_subset in Hlookup. now rewrite lookup_delete_eq in Hlookup.
Qed.


End Rescan.

Section FolderListing.
Import Catalog Folders Library.
Variable md5 : string -> string.
Variable basename : string -> string.
Variable pathJoin : string -> string -> string.
Variable pathSep : string.

Lemma substring_length (s : string) (n : nat) :
  (n <= String.length s)%nat -> String.length (String.substring 0 n s) = n.
Proof.
  revert n. induction s as [|c s IH]; intros [|n] Hn; simpl in *;
    try reflexivity; [lia|].
  rewrite IH; [reflexivity | lia].
Qed.

Lemma prefix_same_length (a b : string) :
  String.length a = String.length b -> String.prefix a b = String.eqb a b.
Proof.
  revert b. induction a as [|c a IH]; intros [|c' b] Hlen; simpl in *;
    try reflexivity; try discriminate.
  unfold String.eqb at 1. fold (String.eqb a b).
  destruct (Ascii.ascii_dec c c') as [->|Hne].
  - rewrite Ascii.eqb_refl. apply IH. lia.
  - now replace (Ascii.eqb c c') with false
      by (symmetry; now apply Ascii.eqb_neq).
Qed.

(** X19.  A folder id is sixteen characters of a hash, and the
    recursive listing only adds photos whose folder id begins with the
    id asked for; so for every id of that length the recursive listing
    is the plain one: it holds the photos lying directly in the folder
    and none from its subfolders.  The id [all] lists the catalog. *)
Theorem recursive_listing_is_flat db folderId :
  (forall s, (16 <= String.length (md5 s))%nat) ->
  String.length folderId = 16%nat ->
  getPhotosInFolder md5 db folderId true = getPhotosInFolder md5 db folderId false /\
  getPhotosInFolder md5 db "all" true = db /\
  forall photo, photo ∈ getPhotosInFolder md5 db folderId true ->
                photoFolderId md5 photo = folderId.
Proof.
  intros Hmd5 Hlen. unfold getPhotosInFolder.
  assert (String.eqb folderId "all" = false) as ->.
  { apply String.eqb_neq. intros ->. discriminate Hlen. }
  assert (forall photo,
            String.eqb (photoFolderId md5 photo) folderId
            || String.prefix folderId (photoFolderId md5 photo)
            = String.eqb (photoFolderId md5 photo) folderId) as Hflat.
  { intros photo. rewrite prefix_same_length.
    - rewrite (String.eqb_sym folderId). apply orb_diag.
    - unfold photoFolderId. rewrite substring_length; [exact Hlen | apply Hmd5]. }
  split; [|split; [reflexivity|]].
  - induction db as [|photo db IH]; [reflexivity|]. simpl.
    now rewrite Hflat, IH.
  - intros photo Hin. apply elem_of_List_filter in Hin as [Hmatch _].
    rewrite Hflat in Hmatch. now apply String.eqb_eq.
Qed.

Lemma ensure_idKeyed m r f :
  idKeyed md5 m ->
  idKeyed md5 (ensureFolderExists md5 basename pathJoin pathSep m r f).
Proof.
  intros Hm. unfold ensureFolderExists.
  destruct (mapHas m (keyOf r f)); [exact Hm|].
  intros k x Hin. apply elem_of_app in Hin as [Hin|Hin]; [now apply Hm|].
  apply list_elem_of_singleton in Hin. now injection Hin as -> ->.
Qed.

Lemma collectFolders_idKeyed (db : list PhotoRecord) :
  idKeyed md5 (collectFolders md5 basename pathJoin pathSep db).
Proof.
  unfold collectFolders.
  assert (idKeyed md5 []) as Hnil
    by (intros k x Hin; now apply elem_of_nil in Hin).
  revert Hnil. generalize (@nil (string * FolderObj)).
  induction db as [|photo db IH]; intros m Hm; [exact Hm|].
  simpl. apply IH. rewrite collect_unfold.
  intros k x Hin. apply mapUpdate_elem in Hin as (x0 & Hin & Hx).
  assert (idKeyed md5
            (foldl (fun m a =>
                      ensureFolderExists md5 basename pathJoin pathSep m
                                         (rootPath photo) a)
                   m (ensuredPaths photo))) as Hensured.
  { clear Hin. revert m Hm. induction (ensuredPaths photo) as [|a paths IHp];
      intros m Hm; [exact Hm|]. simpl. apply IHp. now apply ensure_idKeyed. }
  specialize (Hensured k x0 Hin). now destruct Hx as [->| ->].
Qed.

Lemma listing_covers_folder (db : list PhotoRecord) key :
  (length (filter (fun photo => photoKey photo = key) db)
   <= length (List.filter
                (fun photo => String.eqb (photoFolderId md5 photo)
                                         (String.substring 0 16 (md5 key)))
                db))%nat.
Proof.
  induction db as [|photo db IH]; [reflexivity|].
  rewrite filter_cons. simpl.
  destruct (decide (photoKey photo = key)) as [Hphoto|Hphoto].
  - unfold photoFolderId at 1. rewrite Hphoto, String.eqb_refl. simpl. lia.
  - destruct (String.eqb _ _); simpl; lia.
Qed.

Lemma listing_is_folder (db : list PhotoRecord) key :
  (forall photo, photo ∈ db ->
     photoFolderId md5 photo = String.substring 0 16 (md5 key) ->
     photoKey photo = key) ->
  List.filter
    (fun photo => String.eqb (photoFolderId md5 photo)
                             (String.substring 0 16 (md5 key))) db
  = filter (fun photo => photoKey photo = key) db.
Proof.
  intros Hinjective. induction db as [|photo db IH]; [reflexivity|].
  rewrite filter_cons. simpl.
  assert (forall p, p ∈ db ->
            photoFolderId md5 p = String.substring 0 16 (md5 key) ->
            photoKey p = key) as Hrest
    by (intros p Hp; apply Hinjective; now right).
  destruct (decide (photoKey photo = key)) as [Hphoto|Hphoto].
  - unfold photoFolderId at 1. rewrite Hphoto, String.eqb_refl.
    f_equal. now apply IH.
  - destruct (String.eqb_spec (photoFolderId md5 photo)
                              (String.substring 0 16 (md5 key))) as [Heq|_].
    + exfalso. apply Hphoto. apply Hinjective; [now left | exact Heq].
    + now apply IH.
Qed.

(** X20.  The folder structure and the folder listing fit together:
    every folder of the structure carries the id that
    [getPhotosInFolder] computes for the photos lying in it, so the
    listing of a folder's id holds at least as many photos as the
    folder's direct count, and exactly the photos lying in it when no
    photo of another folder has the same id. *)
Theorem folder_listing_matches_structure (db : list PhotoRecord) root node :
  root ∈ (getFolderStructure md5 basename pathJoin pathSep db).1 ->
  nodeOf node root ->
  let folder := folderOf node in
  let key := keyOf (fRootPath folder) (fFolderPath folder) in
  fid folder = String.substring 0 16 (md5 key) /\
  (photoCount folder
   <= length (getPhotosInFolder md5 db (fid folder) false))%nat /\
  (fid folder <> "all"%string ->
   (forall photo, photo ∈ db -> photoFolderId md5 photo = fid folder ->
                  photoKey photo = key) ->
   getPhotosInFolder md5 db (fid folder) false
     = filter (fun photo => photoKey photo = key) db /\
   length (getPhotosInFolder md5 db (fid folder) false) = photoCount folder).
Proof.
  intros Hroot Hnode. cbv zeta.
  destruct (collectFolders_inv md5 basename pathJoin pathSep db)
    as (Hwk & Hcount & Hrefs & _).
  destruct (buildHierarchy_inv _ Hwk Hrefs) as (Hsame & _ & Hwk').
  pose proof (collectFolders_idKeyed db) as Hids.
  set (m := collectFolders md5 basename pathJoin pathSep db) in *.
  set (h := buildHierarchy m) in *.
  unfold getFolderStructure, buildFolderStructure, structureWith in Hroot.
  cbn [fst] in Hroot. fold m in Hroot. fold h in Hroot.
  apply list_elem_of_filter in Hroot as [_ Hroot].
  apply list_elem_of_fmap in Hroot as (x & -> & Hx).
  destruct (rootFolders_get h x Hwk' Hx) as [kx Hkx].
  destruct (calculateRecursiveCount_nodes h _ x node Hnode)
    as (_ & _ & Hfolder).
  assert (exists key, mapGet h key = Some (folderOf node)) as [key Hkey].
  { destruct Hfolder as [->|Hex]; eauto. }
  destruct (sameFolders_get _ _ _ _ Hsame Hkey) as (y0 & Hy0 & Hs).
  assert (key = keyOf (fRootPath (folderOf node)) (fFolderPath (folderOf node)))
    as Hkeyed by (apply (proj2 Hwk'); now apply mapGet_elem).
  assert (fid (folderOf node) = String.substring 0 16 (md5 key)) as Hfid.
  { replace (fid (folderOf node)) with (fid (stripped (folderOf node)))
      by reflexivity.
    rewrite Hs. simpl. apply Hids. now apply mapGet_elem. }
  assert (photoCount (folderOf node) = directCount db key) as Hdirect.
  { apply stripped_fields in Hs as (-> & _ & _). apply (proj1 Hcount _ _ Hy0). }
  rewrite <- Hkeyed. split; [exact Hfid|].
  rewrite Hdirect, Hfid. unfold directCount, getPhotosInFolder.
  split.
  - destruct (String.eqb _ "all"); [apply length_filter|].
    apply listing_covers_folder.
  - intros Hnotall Hinjective.
    replace (String.eqb (String.substring 0 16 (md5 key)) "all") with false
      by (symmetry; now apply String.eqb_neq).
    now rewrite listing_is_folder.
Qed.

End FolderListing.

Lemma compressed_photo_response_witness :
  Http.status
    (Http.getCompressedPhoto Samples.lengthHash Samples.sampleEnv "gone"
       (Some 0) None Samples.sampleWorld).1 = 404%nat /\
  Http.status
    (Http.getCompressedPhoto Samples.lengthHash Samples.sampleEnv "b1"
       (Some 101) None Samples.sampleWorld).1 = 400%nat.
Proof.
  split.
  - apply (proj1 (proj2 (proj2 (proj2
             (compressed_photo_response Samples.lengthHash Samples.sampleEnv
                "gone" (Some 0) None Samples.sampleWorld))))).
    simpl. split; [lia | exact I].
  - apply (proj1 (proj2 (proj2
             (compressed_photo_response Samples.lengthHash Samples.sampleEnv
                "b1" (Some 101) None Samples.sampleWorld)))).
    simpl. lia.
Defined.

Lemma http_and_stream_agree_witness :
  exists b,
    Http.body
      (Http.getCompressedPhoto Samples.lengthHash Samples.sampleEnv "b1"
         (Some 50) (Some 1920) Samples.sampleWorld).1 = Http.BytesBody b /\
    Worker.eventsOf "s2"
      (Worker.processCompressedPhoto Samples.lengthHash Samples.otherEnv
         (Http.getCompressedPhoto Samples.lengthHash Samples.sampleEnv "b1"
            (Some 50) (Some 1920) Samples.sampleWorld).2
         (Samples.jobFor "b1" "s2")).2
    = [Wire.PhotoData "b1" b (length b) (Samples.lengthHash b) "image/jpeg";
       Wire.PhotoComplete "b1" (length b) (Samples.lengthHash b)].
Proof.
  destruct (http_and_stream_agree Samples.lengthHash Samples.sampleEnv "b1"
              (Some 50) (Some 1920) Samples.sampleWorld
              (Http.getCompressedPhoto Samples.lengthHash Samples.sampleEnv "b1"
                 (Some 50) (Some 1920) Samples.sampleWorld).1
              (Http.getCompressedPhoto Samples.lengthHash Samples.sampleEnv "b1"
                 (Some 50) (Some 1920) Samples.sampleWorld).2
              (Http.getCompressedPhoto Samples.lengthHash Samples.sampleEnv "b1"
                 (Some 50) (Some 1920) Samples.sampleWorld).2
              Samples.otherEnv (Samples.jobFor "b1" "s2")
              (Worker.processCompressedPhoto Samples.lengthHash Samples.otherEnv
                 (Http.getCompressedPhoto Samples.lengthHash Samples.sampleEnv
                    "b1" (Some 50) (Some 1920) Samples.sampleWorld).2
                 (Samples.jobFor "b1" "s2")).2)
    as (b & Hbody & _ & Hemitted);
    [reflexivity | reflexivity | apply Cache.evolves_refl | reflexivity
    | reflexivity | reflexivity | reflexivity |].
  exists b. split; [exact Hbody|].
  unfold Worker.eventsOf. rewrite Hemitted. reflexivity.
Defined.

Lemma retry_after_failed_cache_write_witness :
  let first := Http.getCompressedPhoto Samples.lengthHash Samples.readOnlyEnv
                 "b1" None None Samples.sampleWorld in
  Http.status first.1 = 500%nat /\
  Http.status
    (Http.getCompressedPhoto Samples.lengthHash Samples.readOnlyEnv "b1" None
       None first.2).1 = 200%nat.
Proof.
  destruct (retry_after_failed_cache_write Samples.lengthHash
              Samples.readOnlyEnv "b1" None None Samples.sampleWorld
              Samples.photoA [Byte.xff; Byte.xd8; Byte.x01] "EACCES")
    as [Hfirst Hsecond];
    [simpl; lia | simpl; lia | reflexivity | reflexivity | apply lookup_empty
    | apply lookup_empty | reflexivity | reflexivity |].
  cbv zeta. split; [now rewrite Hfirst|].
  apply (Hsecond Samples.readOnlyEnv). reflexivity.
Defined.

Lemma sync_status_matches_manifest_witness :
  exists latest,
    Http.body (Http.health 0 [Samples.photoA; Samples.photoB]) =
      Http.JsonBody
        (Js.JObj [ ("status", Js.JStr "ok"); ("photoCount", Js.JNum 2);
                   ("timestamp", Js.JNum latest) ]%string) /\
    latest ∈ [1000; 2000].
Proof.
  destruct (sync_status_matches_manifest (fun s => s) 0
              [Samples.photoA; Samples.photoB])
    as (status & manifest & latest & _ & _ & _ & _ & _ & Hhealth & _ & Hlatest).
  exists latest. split; [exact Hhealth|]. apply Hlatest. discriminate.
Defined.


Lemma recursive_listing_is_flat_witness :
  Library.getPhotosInFolder Fixtures.flatHash [Samples.photoA; Samples.photoB]
    Samples.hex16 true
  = Library.getPhotosInFolder Fixtures.flatHash [Samples.photoA; Samples.photoB]
      Samples.hex16 false.
Proof.
  apply (recursive_listing_is_flat Fixtures.flatHash
           [Samples.photoA; Samples.photoB] Samples.hex16).
  - intros s. vm_compute. lia.
  - reflexivity.
Defined.

Lemma folder_listing_matches_structure_witness :
  Forall
    (fun root =>
       Folders.photoCount (Folders.folderOf root)
       <= length
            (Library.getPhotosInFolder (fun s => s) [Samples.photoA; Samples.photoB]
               (Folders.fid (Folders.folderOf root)) false))%nat
    (Folders.getFolderStructure (fun s => s) (fun s => s) Fixtures.joinPath "/"
       [Samples.photoA; Samples.photoB]).1 /\
  length (Folders.getFolderStructure (fun s => s) (fun s => s) Fixtures.joinPath
            "/" [Samples.photoA; Samples.photoB]).1 = 1%nat.
Proof.
  split; [|reflexivity].
  apply Forall_forall. intros root Hroot.
  apply (folder_listing_matches_structure (fun s => s) (fun s => s)
           Fixtures.joinPath "/" [Samples.photoA; Samples.photoB] root root
           Hroot (Folders.nodeOf_here root)).
Defined.

(** ** Batches of originals *)

Section OriginalBatch.
Import Js Catalog Wire Cache Worker Originals.
Variable md5 : bytes -> string.

#[local] Abbreviation originalsLoop := (originalsLoop md5).
#[local] Abbreviation handleOriginalBatchRequest :=
  (handleOriginalBatchRequest md5).

(** A job for an original either sends the file as it is, payload first,
    or throws and sends nothing. *)
Lemma original_job env w pid socketId :
  let r := processJob md5 env w (originalJob pid socketId) in
  database r.2 = database w /\
  match originalOutcome env (database w) pid with
  | Ok (photo, fullBuffer) =>
      r.1 = Ok tt /\
      emitted r.2 =
        emitted w ++ map (pair socketId) (delivery md5 env pid photo fullBuffer)
  | Err message => r.1 = Err message /\ emitted r.2 = emitted w
  end.
Proof.
  cbv zeta. split; [apply processJob_evolves|].
  unfold processJob, originalJob, processOriginalPhoto, originalOutcome. simpl.
  destruct (getPhoto (database w) pid) as [photo|]; [|now split].
  destruct (negb (sourceExists env (path photo))); [now split|].
  destruct (readSource env (path photo)) as [fullBuffer|e]; [|now split].
  split; [reflexivity|]. simpl. now rewrite <- app_assoc.
Qed.

Lemma received_own socketId w w' (events : list Event) :
  eventsOf socketId w' = eventsOf socketId w ++ events ->
  received socketId w w' = map Photo events.
Proof.
  intros Hevents. unfold received. now rewrite Hevents, drop_app_length.
Qed.

Lemma originalsLoop_cons env socketId total pid rest c st log :
  originalsLoop env socketId total (pid :: rest) c st log =
    let r := awaitJob md5 env (originalJob pid socketId) st in
    match r.1 with
    | Ok _ =>
        originalsLoop env socketId total rest (S c) r.2
          ((log ++ received socketId st.2 r.2.2) ++ progressAt (S c) total)
    | Err message =>
        originalsLoop env socketId total rest c
          (r.2.1, emitTo socketId (PhotoError pid "PROCESSING_FAILED" message)
                         r.2.2)
          ((log ++ received socketId st.2 r.2.2)
           ++ [Photo (PhotoError pid "PROCESSING_FAILED" message)])
    end.
Proof. reflexivity. Qed.

(** What the loop over the found ids sends. *)
Lemma originalsLoop_trace env socketId total (found : list string) :
  forall c ws w log,
    queue_inv ws ->
    Forall (fun job => socket job <> socketId) (loops ws ++ queue ws) ->
    let r := originalsLoop env socketId total found c (ws, w) log in
    exists tail final,
      r.2 = log ++ tail /\
      loopTrace md5 env (database w) total c found tail final.
Proof.
  induction found as [|pid rest IH]; intros c ws w log Hinv Hothers.
  - exists [], c. simpl. split; [now rewrite app_nil_r | constructor].
  - cbv zeta. rewrite originalsLoop_cons. cbv zeta.
    destruct (awaitJob_alone md5 env (originalJob pid socketId) ws w Hinv)
      as (ws' & -> & Hinv' & Hloops' & Hqueue').
    destruct (runJobs_frame md5 env socketId _ w Hothers) as [Hframe Hdb0].
    set (w0 := runJobs md5 env w (loops ws ++ queue ws)) in *.
    destruct (original_job env w0 pid socketId) as [Hdb Hjob].
    assert (Forall (fun job => socket job <> socketId)
                   (loops ws' ++ queue ws')) as Hnone
        by (rewrite Hloops', Hqueue'; constructor).
    destruct (processJob md5 env w0 (originalJob pid socketId))
      as [outcome w1]. cbn [fst snd] in *.
    rewrite Hdb0 in Hjob.
    destruct (originalOutcome env (database w) pid) as [[photo raw]|message]
      eqn:Houtcome.
    + destruct Hjob as [-> Hemitted].
      rewrite (received_own socketId w w1
                 (delivery md5 env pid photo raw))
        by (rewrite <- Hframe; now apply eventsOf_own).
      destruct (IH (S c) ws' w1
                   ((log ++ map Photo (delivery md5 env pid photo raw))
                    ++ progressAt (S c) total) Hinv' Hnone)
        as (tail & final & Hlog & Htrace).
      exists (map Photo (delivery md5 env pid photo raw)
              ++ progressAt (S c) total ++ tail), final.
      split; [rewrite Hlog; now rewrite <- !app_assoc|].
      rewrite Hdb, Hdb0 in Htrace. now apply trace_sent.
    + destruct Hjob as [-> Hemitted].
      rewrite (received_own socketId w w1 [])
        by (rewrite <- Hframe, app_nil_r; unfold eventsOf; now rewrite Hemitted).
      set (e := PhotoError pid "PROCESSING_FAILED" message).
      destruct (IH c ws' (emitTo socketId e w1) ((log ++ map Photo []) ++ [Photo e])
                   Hinv' Hnone)
        as (tail & final & Hlog & Htrace).
      exists (Photo e :: tail), final.
      split; [rewrite Hlog; simpl; now rewrite app_nil_r, <- app_assoc|].
      change (database (emitTo socketId e w1)) with (database w1) in Htrace.
      rewrite Hdb, Hdb0 in Htrace. now apply trace_failed.
Qed.

(** The ids of the catalog, the other ids and the sum of the sizes. *)
Lemma partitionIds_spec (db : list PhotoRecord) (photoIds : list string) :
  partitionIds db photoIds =
    (filter (fun pid => absent db pid = false) photoIds,
     filter (fun pid => absent db pid = true) photoIds,
     foldr Z.add 0 (omap (fun pid => size <$> getPhoto db pid) photoIds)).
Proof.
  unfold partitionIds.
  assert (forall found notFound total,
            fold_left
              (fun acc photoId =>
                 let '(foundIds, notFoundIds, totalSize) := acc in
                 match getPhoto db photoId with
                 | Some photo =>
                     (foundIds ++ [photoId], notFoundIds, totalSize + size photo)
                 | None => (foundIds, notFoundIds ++ [photoId], totalSize)
                 end)
              photoIds (found, notFound, total)
            = (found ++ filter (fun pid => absent db pid = false) photoIds,
               notFound ++ filter (fun pid => absent db pid = true) photoIds,
               total + foldr Z.add 0
                         (omap (fun pid => size <$> getPhoto db pid) photoIds)))
    as Hgen.
  { induction photoIds as [|pid rest IH]; intros found notFound total.
    - simpl. now rewrite !app_nil_r, Z.add_0_r.
    - cbn [fold_left]. rewrite !filter_cons. cbn [omap list_omap].
      fold (omap (fun pid => size <$> getPhoto db pid) rest).
      destruct (getPhoto db pid) as [photo|] eqn:Hphoto.
      + assert (absent db pid = false) as ->
          by (unfold absent; now rewrite Hphoto).
        destruct (decide (false = false)); [|contradiction].
        destruct (decide (false = true)); [discriminate|].
        rewrite IH. simpl. now rewrite <- app_assoc, Z.add_assoc.
      + assert (absent db pid = true) as ->
          by (unfold absent; now rewrite Hphoto).
        destruct (decide (true = false)); [discriminate|].
        destruct (decide (true = true)); [|contradiction].
        rewrite IH. simpl. now rewrite <- app_assoc. }
  rewrite Hgen. now rewrite Z.add_0_l.
Qed.

(** A trace without failures: one group of events per id. *)
Lemma loopTrace_all_sent env db total (ids : list string) :
  forall c tail final,
    loopTrace md5 env db total c ids tail final ->
    Forall (fun pid => exists sent, originalOutcome env db pid = Ok sent) ids ->
    exists groups,
      tail = concat groups /\
      Forall2
        (fun ip group =>
           exists photo fullBuffer,
             originalOutcome env db ip.2 = Ok (photo, fullBuffer) /\
             group = map Photo (delivery md5 env ip.2 photo fullBuffer)
                     ++ progressAt (S ip.1) total)
        (zip (seq c (length ids)) ids) groups.
Proof.
  intros c tail final Htrace.
  induction Htrace as [c|c pid rest photo raw tail final Hout _ IH
                      |c pid rest message tail final Hout _ IH]; intros Hall.
  - exists []. split; [reflexivity | constructor].
  - apply Forall_cons in Hall as [_ Hall].
    destruct (IH Hall) as (groups & -> & Hgroups).
    exists ((map Photo (delivery md5 env pid photo raw)
             ++ progressAt (S c) total) :: groups).
    split; [cbn [concat]; now rewrite app_assoc|].
    simpl. constructor; [|exact Hgroups]. simpl. eauto.
  - apply Forall_cons in Hall as [[sent Hsent] _]. congruence.
Qed.

(** Progress is reported for multiples of ten and for the total, and
    never runs ahead of the photos that were sent. *)
Lemma loopTrace_progress env db total (ids : list string) :
  forall c tail final,
    loopTrace md5 env db total c ids tail final ->
    (c <= final)%nat /\
    (final + length (List.filter isProcessingFailed tail)
     = c + length ids)%nat /\
    forall completed t,
      BatchProgress completed t ∈ tail ->
      t = total /\ (c < completed <= final)%nat /\
      ((completed mod 10 = 0)%nat \/ completed = total).
Proof.
  intros c tail final Htrace.
  induction Htrace as [c|c pid rest photo raw tail final Hout _ (IHle & IHn & IHp)
                      |c pid rest message tail final Hout _ (IHle & IHn & IHp)].
  - split; [lia|]. split; [simpl; lia|].
    intros completed t Hin. now apply elem_of_nil in Hin.
  - split; [lia|]. split.
    + rewrite !List.filter_app. unfold delivery. cbn [map List.filter
        isProcessingFailed length app].
      assert (List.filter isProcessingFailed (progressAt (S c) total) = [])
        as -> by (unfold progressAt; now destruct (_ || _)).
      simpl. simpl in IHn. lia.
    + intros completed t Hin.
      apply elem_of_app in Hin as [Hin|Hin].
      { unfold delivery in Hin. simpl in Hin.
        apply elem_of_cons in Hin as [Hin|Hin]; [discriminate Hin|].
        apply list_elem_of_singleton in Hin. discriminate Hin. }
      apply elem_of_app in Hin as [Hin|Hin].
      * unfold progressAt in Hin.
        destruct (Nat.eqb (S c mod 10) 0 || Nat.eqb (S c) total) eqn:Hcond;
          [|now apply elem_of_nil in Hin].
        apply list_elem_of_singleton in Hin. injection Hin as -> ->.
        split; [reflexivity|]. split; [lia|].
        apply orb_true_iff in Hcond as [Hten|Hall];
          [left; now apply Nat.eqb_eq | right; now apply Nat.eqb_eq].
      * destruct (IHp completed t Hin) as (Ht & Hrange & Hkind).
        split; [exact Ht|]. split; [lia | exact Hkind].
  - split; [exact IHle|]. split.
    + cbn [List.filter isProcessingFailed]. rewrite String.eqb_refl.
      simpl. simpl in IHn. lia.
    + intros completed t Hin.
      apply elem_of_cons in Hin as [Hin|Hin]; [discriminate Hin|].
      now apply IHp.
Qed.

(** X21.  A batch of originals whose files can all be read: the socket
    first learns how many ids were found and how many were not, and the
    sum of the sizes of those found; then, for each id of the catalog in
    request order, it receives the file byte for byte with its MD5 and
    the content type of its extension, followed by the completion
    marker, and a progress event after every tenth photo and after the
    last; last come the [PHOTO_NOT_FOUND] errors, one for each id that
    is not in the catalog, in request order. *)
Theorem originals_batch_delivery env socketId photoIds ws w :
  queue_inv ws ->
  Forall (fun job => socket job <> socketId) (loops ws ++ queue ws) ->
  (0 < length photoIds <= MAX_BATCH_SIZE)%nat ->
  Forall (fun pid => absent (database w) pid = false ->
                     exists sent, originalOutcome env (database w) pid = Ok sent)
         photoIds ->
  let found := filter (fun pid => absent (database w) pid = false) photoIds in
  let notFound := filter (fun pid => absent (database w) pid = true) photoIds in
  let totalSize :=
    foldr Z.add 0 (omap (fun pid => size <$> getPhoto (database w) pid) photoIds) in
  let r := handleOriginalBatchRequest env socketId (Some photoIds) true (ws, w) in
  r.1.1 = Some AckSuccess /\
  (length found + length notFound = length photoIds)%nat /\
  exists groups,
    r.2 =
      OriginalsStarted (length found) (length notFound) totalSize
                       (Auth.ceil_div totalSize (1024 * 1024))
        :: concat groups
        ++ map (fun pid => Photo (notFoundError pid)) notFound /\
    Forall2
      (fun ip group =>
         exists photo fullBuffer,
           originalOutcome env (database w) ip.2 = Ok (photo, fullBuffer) /\
           group = map Photo (delivery md5 env ip.2 photo fullBuffer)
                   ++ progressAt (S ip.1) (length found))
      (zip (seq 0 (length found)) found) groups.
Proof.
  intros Hinv Hothers Hlen Hreadable. cbv zeta.
  unfold Originals.handleOriginalBatchRequest.
  destruct photoIds as [|pid0 ids0] eqn:Hids; [simpl in Hlen; lia|].
  rewrite <- Hids in *. clear Hids pid0 ids0.
  destruct photoIds as [|pid0 ids0] eqn:Hids; [simpl in Hlen; lia|].
  rewrite <- Hids in *.
  destruct (Nat.ltb_spec MAX_BATCH_SIZE (length photoIds)); [lia|].
  cbn [fst snd]. rewrite partitionIds_spec.
  set (found := filter (fun pid => absent (database w) pid = false) photoIds).
  set (notFound := filter (fun pid => absent (database w) pid = true) photoIds).
  set (totalSize := foldr Z.add 0 _).
  set (started := OriginalsStarted _ _ _ _).
  destruct (originalsLoop_trace env socketId (length found) found 0 ws w
              [started] Hinv Hothers) as (tail & final & Hlog & Htrace).
  cbv zeta in Hlog.
  destruct (loopTrace_all_sent env (database w) (length found) found 0 tail
              final Htrace) as (groups & -> & Hgroups).
  { unfold found. apply Forall_forall. intros pid Hpid.
    apply list_elem_of_filter in Hpid as [Hpresent Hpid].
    rewrite Forall_forall in Hreadable. now apply Hreadable. }
  split; [reflexivity|]. split.
  - unfold found, notFound. clear. induction photoIds as [|pid ids IH];
      [reflexivity|].
    rewrite !filter_cons. destruct (absent (database w) pid); simpl.
    + destruct (decide (true = false)); [discriminate|].
      destruct (decide (true = true)); [|contradiction]. simpl. lia.
    + destruct (decide (false = false)); [|contradiction].
      destruct (decide (false = true)); [discriminate|]. simpl. lia.
  - exists groups. split; [|exact Hgroups].
    cbn [fst snd]. rewrite Hlog. reflexivity.
Qed.

(** X22.  Progress counts photos that were sent, not photos that were
    tried: every progress event of a batch of originals names the
    number of found ids as its total, comes after a multiple of ten or
    after the last photo, and its count plus the number of
    [PROCESSING_FAILED] errors of the batch is at most that total.  So
    when the file of one found photo cannot be read, no progress event
    ever says that the batch is complete. *)
Theorem progress_counts_successes env socketId photoIds ack ws w :
  queue_inv ws ->
  Forall (fun job => socket job <> socketId) (loops ws ++ queue ws) ->
  let found := filter (fun pid => absent (database w) pid = false) photoIds in
  let r := handleOriginalBatchRequest env socketId (Some photoIds) ack (ws, w) in
  let failures := length (List.filter isProcessingFailed r.2) in
  forall completed total,
    BatchProgress completed total ∈ r.2 ->
    total = length found /\
    (0 < completed)%nat /\ (completed + failures <= total)%nat /\
    ((completed mod 10 = 0)%nat \/ completed = total).
Proof.
  intros Hinv Hothers. cbv zeta.
  unfold Originals.handleOriginalBatchRequest.
  destruct photoIds as [|pid0 ids0] eqn:Hids;
    [intros completed total Hin; now apply elem_of_nil in Hin|].
  rewrite <- Hids. clear Hids pid0 ids0.
  destruct (Nat.ltb MAX_BATCH_SIZE (length photoIds));
    [intros completed total Hin; now apply elem_of_nil in Hin|].
  cbn [fst snd]. rewrite partitionIds_spec.
  set (found := filter (fun pid => absent (database w) pid = false) photoIds).
  set (notFound := filter (fun pid => absent (database w) pid = true) photoIds).
  set (started := OriginalsStarted _ _ _ _).
  destruct (originalsLoop_trace env socketId (length found) found 0 ws w
              [started] Hinv Hothers) as (tail & final & Hlog & Htrace).
  cbv zeta in Hlog. cbn [fst snd]. rewrite Hlog.
  destruct (loopTrace_progress env (database w) (length found) found 0 tail
              final Htrace) as (_ & Hcount & Hprogress).
  assert (List.filter isProcessingFailed
            (([started] ++ tail)
             ++ map (fun pid => Photo (notFoundError pid)) notFound)
          = List.filter isProcessingFailed tail) as ->.
  { rewrite !List.filter_app. simpl.
    assert (List.filter isProcessingFailed
              (map (fun pid => Photo (notFoundError pid)) notFound) = []) as ->.
    { clear. induction notFound as [|pid ids IH]; [reflexivity|]. exact IH. }
    now rewrite app_nil_r. }
  intros completed total Hin.
  apply elem_of_app in Hin as [Hin|Hin].
  - apply elem_of_app in Hin as [Hin|Hin].
    + apply list_elem_of_singleton in Hin. discriminate Hin.
    + destruct (Hprogress completed total Hin) as (-> & Hrange & Hkind).
      split; [reflexivity|]. split; [lia|]. split; [lia | exact Hkind].
  - apply list_elem_of_fmap in Hin as (pid & Heq & _). discriminate Heq.
Qed.

End OriginalBatch.

Lemma originals_batch_delivery_witness :
  let r := Originals.handleOriginalBatchRequest Samples.lengthHash
             Samples.sampleEnv "s1" (Some ["b1"; "gone"; "a7"]%string) true
             (Worker.idle, Samples.sampleWorld) in
  r.1.1 = Some Worker.AckSuccess /\
  r.2 =
    [Originals.OriginalsStarted 2 1 30 1;
     Originals.Photo
       (Wire.PhotoData "b1" [Byte.x89; Byte.x50] 2 "2" "image/png");
     Originals.Photo (Wire.PhotoComplete "b1" 2 "2");
     Originals.Photo
       (Wire.PhotoData "a7" [Byte.x89; Byte.x50] 2 "2" "image/png");
     Originals.Photo (Wire.PhotoComplete "a7" 2 "2");
     Originals.BatchProgress 2 2;
     Originals.Photo (Originals.notFoundError "gone")].
Proof.
  split; [|reflexivity].
  apply (originals_batch_delivery Samples.lengthHash Samples.sampleEnv "s1"
           ["b1"; "gone"; "a7"]%string Worker.idle Samples.sampleWorld
           queue_inv_idle (Forall_nil_2 _)).
  - unfold Worker.MAX_BATCH_SIZE. simpl. lia.
  - repeat (constructor;
            [intros H; try discriminate H; eexists; reflexivity|]).
    constructor.
Defined.

Lemma progress_counts_successes_witness :
  Originals.BatchProgress 2 2
    ∉ (Originals.handleOriginalBatchRequest Samples.lengthHash
         Fixtures.oneFileEnv "s1" (Some ["b1"; "a7"]%string) true
         (Worker.idle, Samples.sampleWorld)).2.
Proof.
  intros Hin.
  destruct (progress_counts_successes Samples.lengthHash Fixtures.oneFileEnv
              "s1" ["b1"; "a7"]%string true Worker.idle Samples.sampleWorld
              queue_inv_idle (Forall_nil_2 _) 2%nat 2%nat Hin)
    as (_ & _ & Hle & _).
  vm_compute in Hle. lia.
Defined.

(** ** The peer link *)

Section PeerMessages.
Import Js Catalog Wire Cache P2P Peer.

Lemma sendPhoto_unfold env link db photoId q d :
  sendPhoto env link db photoId q d =
    match getPhotoById db photoId with
    | None => sendToPeer link 0 (errorMessage (JStr photoId) "Photo not found")
    | Some photo =>
        match photoBufferOf env photo q d with
        | Err e => sendToPeer link 0 (errorMessage (JStr photoId) e)
        | Ok buffer =>
            sendToPeer link 0
              (JObj [ ("type", JStr "photo-start");
                      ("photoId", JStr photoId);
                      ("name", JUndefined);
                      ("size", JNum (Z.of_nat (length buffer)));
                      ("mimeType", JStr "image/jpeg") ]%string)
            ++ (sendChunks chunkSize link (length buffer) 1 buffer).1
            ++ match (sendChunks chunkSize link (length buffer) 1 buffer).2 with
               | Some k =>
                   sendToPeer link k
                     (JObj [ ("type", JStr "photo-complete");
                             ("photoId", JStr photoId);
                             ("totalBytes",
                              JNum (Z.of_nat (length buffer))) ]%string)
               | None => []
               end
        end
    end.
Proof.
  unfold sendPhoto, photoBufferOf.
  destruct (getPhotoById db photoId) as [photo|]; [|reflexivity].
  destruct (sharpJpeg env _ _ _ _) as [buffer|e].
  - destruct (statSync env (path photo)) as [size|e].
    + now destruct (sendChunks chunkSize link (length buffer) 1 buffer).
    + destruct (readFileSync env (path photo)) as [raw|e']; [|reflexivity].
      now destruct (sendChunks chunkSize link (length raw) 1 raw).
  - destruct (readFileSync env (path photo)) as [raw|e']; [|reflexivity].
    now destruct (sendChunks chunkSize link (length raw) 1 raw).
Qed.

Lemma chunksOf_app a b : chunksOf (a ++ b) = chunksOf a ++ chunksOf b.
Proof. unfold chunksOf. apply omap_app. Qed.

Lemma chunksOf_sendToPeer link k v : chunksOf (sendToPeer link k v) = [].
Proof. unfold sendToPeer. now destruct (up link k), (sendOk link k). Qed.

(** A chunk loop that ran to its end has sent every byte, in chunks of
    at most [size] bytes, none of them empty. *)
Lemma sendChunks_finished size link (fuel : nat) :
  (0 < size)%nat ->
  forall k rest,
    (length rest <= fuel)%nat ->
    Forall (fun c => (0 < length c <= size)%nat)
           (chunksOf (sendChunks size link fuel k rest).1) /\
    (forall k', (sendChunks size link fuel k rest).2 = Some k' ->
                payload (sendChunks size link fuel k rest).1 = rest).
Proof.
  intros Hsize. induction fuel as [|fuel IH]; intros k rest Hlen.
  - destruct rest; [|simpl in Hlen; lia]. simpl. split; [constructor | reflexivity].
  - destruct rest as [|x rest]; [simpl; split; [constructor | reflexivity]|].
    rewrite sendChunks_round.
    destruct (up link k && sendOk link k); [|split; [constructor | discriminate]].
    destruct (IH (S k) (drop size (x :: rest))) as [Hchunks Hall].
    { rewrite length_drop. simpl in *. lia. }
    cbn [fst snd]. split.
    + unfold chunksOf. cbn [omap list_omap]. constructor; [|exact Hchunks].
      rewrite length_take. simpl length. lia.
    + intros k' Hk'. rewrite payload_binary, (Hall k' Hk').
      apply take_drop.
Qed.

(** X23.  [sendPhoto] announces completion only for a complete
    transfer: when a [photo-complete] message goes out, the binary
    chunks sent before it make up the whole buffer, the JPEG of the
    image pipeline or else the file as it is, and [totalBytes] is its
    length.  Every chunk holds between one byte and 64 KB, and no byte
    is sent for an id that is not in the catalog. *)
Theorem p2p_complete_means_all_bytes env link db photoId q d :
  let out := sendPhoto env link db photoId q d in
  (forall v, v ∈ controlMessages out ->
     get v "type" = JStr "photo-complete" ->
     exists photo buffer,
       getPhotoById db photoId = Some photo /\
       photoBufferOf env photo q d = Ok buffer /\
       payload out = buffer /\
       get v "totalBytes" = JNum (Z.of_nat (length buffer))) /\
  Forall (fun c => (0 < length c <= chunkSize)%nat) (chunksOf out) /\
  (getPhotoById db photoId = None -> payload out = []).
Proof.
  cbv zeta. rewrite sendPhoto_unfold.
  destruct (getPhotoById db photoId) as [photo|].
  - destruct (photoBufferOf env photo q d) as [buffer|e] eqn:Hbuffer.
    + destruct (sendChunks_finished chunkSize link (length buffer)
                  ltac:(unfold chunkSize; lia) 1%nat buffer (le_n _))
        as [Hchunks Hall].
      destruct (sendChunks_prefix chunkSize link (length buffer) 1 buffer)
        as [Hcontrol _].
      split; [|split; [|discriminate]].
      * intros v Hv Htype.
        rewrite !controlMessages_app, Hcontrol in Hv. simpl in Hv.
        apply elem_of_app in Hv as [Hv|Hv].
        { apply sendToPeer_control in Hv. subst v. discriminate Htype. }
        destruct (sendChunks chunkSize link (length buffer) 1 buffer).2
          as [k'|] eqn:Hk'; [|now apply elem_of_nil in Hv].
        apply sendToPeer_control in Hv. subst v.
        exists photo, buffer. split; [reflexivity|]. split; [exact Hbuffer|].
        split; [|reflexivity].
        rewrite !payload_app, !sendToPeer_payload, (Hall k' eq_refl).
        now rewrite app_nil_r.
      * rewrite !chunksOf_app, chunksOf_sendToPeer. cbn [app].
        apply Forall_app. split; [exact Hchunks|].
        destruct (sendChunks chunkSize link (length buffer) 1 buffer).2;
          [rewrite chunksOf_sendToPeer|]; constructor.
    + split; [|split; [|discriminate]].
      * intros v Hv Htype. apply sendToPeer_control in Hv. subst v.
        discriminate Htype.
      * rewrite chunksOf_sendToPeer. constructor.
  - split; [|split; [|intros _; apply sendToPeer_payload]].
    + intros v Hv Htype. apply sendToPeer_control in Hv. subst v.
      discriminate Htype.
    + rewrite chunksOf_sendToPeer. constructor.
Qed.


(** X25.  The three tables of content types agree on [.jpg], [.jpeg],
    [.png], [.gif] and [.webp].  For every extension, the HTTP route
    for originals names the type that the Streaming worker names
    unless the extension is [.heic], and [getMimeType] does unless it
    is [.bmp], [.heif] or one that neither table lists. *)
Theorem content_type_tables (ext : string) :
  (Http.originalContentType ext = Worker.mimeTypeOf ext <->
     ext <> ".heic"%string) /\
  (getMimeType ext = Worker.mimeTypeOf ext <->
     ext ∈ [".jpg"; ".jpeg"; ".png"; ".gif"; ".webp"; ".heic"]%string) /\
  (ext ∈ [".jpg"; ".jpeg"; ".png"; ".gif"; ".webp"]%string ->
     Http.originalContentType ext = Worker.mimeTypeOf ext /\
     getMimeType ext = Worker.mimeTypeOf ext).
Proof.
  unfold Http.originalContentType, Worker.mimeTypeOf, getMimeType.
  rewrite !elem_of_cons, !elem_of_nil.
  destruct (String.eqb_spec ext ".jpg") as [->|Hjpg];
    [split; [split; [discriminate | reflexivity]|];
     split; [split; [tauto | reflexivity] | now split]|].
  destruct (String.eqb_spec ext ".jpeg") as [->|Hjpeg];
    [split; [split; [discriminate | reflexivity]|];
     split; [split; [tauto | reflexivity] | now split]|].
  destruct (String.eqb_spec ext ".png") as [->|Hpng];
    [split; [split; [discriminate | reflexivity]|];
     split; [split; [tauto | reflexivity] | now split]|].
  destruct (String.eqb_spec ext ".gif") as [->|Hgif];
    [split; [split; [discriminate | reflexivity]|];
     split; [split; [tauto | reflexivity] | now split]|].
  destruct (String.eqb_spec ext ".webp") as [->|Hwebp];
    [split; [split; [discriminate | reflexivity]|];
     split; [split; [tauto | reflexivity] | now split]|].
  destruct (String.eqb_spec ext ".heic") as [->|Hheic].
  - split; [split; [discriminate | congruence]|].
    split; [split; [tauto | reflexivity]|].
    intros [H|[H|[H|[H|[H|[]]]]]]; discriminate H.
  - split; [split; [now intros _ | reflexivity]|].
    split; [|intros [H|[H|[H|[H|[H|[]]]]]]; congruence].
    split; [|intros [H|[H|[H|[H|[H|[H|[]]]]]]]; congruence].
    destruct (String.eqb ext ".bmp"); [discriminate|].
    destruct (String.eqb ext ".heif"); discriminate.
Qed.

End PeerMessages.

Lemma p2p_complete_means_all_bytes_witness :
  exists photo buffer,
    Catalog.getPhotoById [Samples.photoB] "a7" = Some photo /\
    Peer.photoBufferOf Samples.brokenSharp photo None None = Cache.Ok buffer /\
    P2P.payload
      (P2P.sendPhoto Samples.brokenSharp P2P.alwaysUp [Samples.photoB] "a7"
                     None None) = buffer /\
    Js.get (Js.JObj [ ("type", Js.JStr "photo-complete");
                      ("photoId", Js.JStr "a7");
                      ("totalBytes", Js.JNum 2) ]%string) "totalBytes"
      = Js.JNum (Z.of_nat (length buffer)).
Proof.
  apply (proj1 (p2p_complete_means_all_bytes Samples.brokenSharp P2P.alwaysUp
                  [Samples.photoB] "a7" None None)).
  - vm_compute. right. left.
  - reflexivity.
Defined.


Lemma content_type_tables_witness :
  Http.originalContentType ".png" = Worker.mimeTypeOf ".png" /\
  Http.originalContentType ".heic" <> Worker.mimeTypeOf ".heic".
Proof.
  split.
  - apply (proj1 (content_type_tables ".png")). discriminate.
  - intros Heq. apply (proj1 (content_type_tables ".heic")) in Heq.
    now apply Heq.
Defined.

(** ** The worker, the limiter and the catalog *)

Section WorkerStatus.
Import Catalog Wire Cache Worker.
Variable md5 : bytes -> string.

(** X26.  The status of the worker accounts for every job: the jobs
    enqueued so far are those settled, the one in flight when the worker
    is busy, and those waiting.  A worker that is not busy has nothing
    waiting and has settled every job it was given, in the order in
    which they were enqueued. *)
Theorem status_accounts_for_jobs (ls : list Label) :
  let w := run ls idle in
  let s := Status.getStatus w in
  length (enqueuedBy ls) =
    (length (settled w) + (if Status.busy s then 1 else 0)
     + Status.queueLength s)%nat /\
  (Status.busy s = false ->
     Status.queueLength s = 0%nat /\ map fst (settled w) = enqueuedBy ls).
Proof.
  cbv zeta. unfold Status.getStatus. simpl.
  pose proof (queue_inv_run ls idle queue_inv_idle)
    as (Hidle & Hbusy & Henq & Hstarted).
  pose proof (enqueued_run ls idle) as Hrun. simpl in Hrun.
  rewrite Hrun in Henq. rewrite Henq, Hstarted, !length_app, length_map.
  split.
  - destruct (busy (run ls idle)) eqn:Hb.
    + destruct (Hbusy eq_refl) as [job ->]. simpl. lia.
    + destruct (Hidle eq_refl) as [-> ->]. simpl. lia.
  - intros Hb. destruct (Hidle Hb) as [-> ->]. now rewrite !app_nil_r.
Qed.

Lemma drain_enqueued env (fuel : nat) :
  forall ws w, enqueued (drain md5 env fuel (ws, w)).1 = enqueued ws.
Proof.
  induction fuel as [|fuel IH]; intros ws w; [reflexivity|].
  simpl. destruct (loops ws) as [|job rest]; [reflexivity|].
  destruct (processJob md5 env w job) as [outcome w'].
  rewrite IH. apply enqueued_resume.
Qed.

(** [await queueJob(job)] leaves an idle worker that has settled every
    job it was ever given, the awaited one last. *)
Lemma awaitJob_settles env job ws w :
  queue_inv ws ->
  let ws' := (awaitJob md5 env job (ws, w)).2.1 in
  queue_inv ws' /\ busy ws' = false /\ queue ws' = [] /\
  enqueued ws' = enqueued ws ++ [job] /\
  map fst (settled ws') = enqueued ws'.
Proof.
  intros Hinv. cbv zeta.
  assert (enqueued (awaitJob md5 env job (ws, w)).2.1 = enqueued ws ++ [job])
    as Henqueued.
  { unfold awaitJob. cbn [fst snd]. rewrite drain_enqueued.
    apply enqueued_queueJob. }
  destruct (awaitJob_alone md5 env job ws w Hinv)
    as (ws' & Hawait & Hinv' & Hloops & Hqueue).
  rewrite Hawait in *. cbn [fst snd] in *.
  pose proof Hinv' as (_ & Hbusy & Henq & Hstarted).
  rewrite Hloops, app_nil_r in Hstarted. rewrite Hqueue, app_nil_r in Henq.
  split; [exact Hinv'|]. split.
  - destruct (busy ws'); [|reflexivity].
    destruct (Hbusy eq_refl) as [j Hj]. congruence.
  - split; [exact Hqueue|]. split; [exact Henqueued | congruence].
Qed.

Lemma batchLoop_jobs env socketId q d (photoIds : list string) :
  forall ws w,
    queue_inv ws ->
    let ws' := (batchLoop md5 env socketId q d photoIds (ws, w)).1 in
    queue_inv ws' /\
    enqueued ws' =
      enqueued ws ++ map (fun pid => mkJob "compressed" pid q d socketId)
                         photoIds /\
    (photoIds <> [] ->
       busy ws' = false /\ queue ws' = [] /\
       map fst (settled ws') = enqueued ws').
Proof.
  induction photoIds as [|pid rest IH]; intros ws w Hinv.
  - simpl. rewrite app_nil_r. split; [exact Hinv|]. split; [reflexivity|].
    now intros Hne.
  - cbv zeta. rewrite batchLoop_cons.
    destruct (awaitJob_settles env (mkJob "compressed" pid q d socketId) ws w
                Hinv) as (Hinv' & Hbusy & Hqueue & Henq & Hsettled).
    cbv zeta in *.
    set (r := awaitJob md5 env (mkJob "compressed" pid q d socketId) (ws, w))
      in *.
    assert (exists w1,
              match r.1 with
              | Ok _ => r.2
              | Err message =>
                  (r.2.1,
                   emitTo socketId (PhotoError pid "PROCESSING_FAILED" message)
                          r.2.2)
              end = (r.2.1, w1)) as [w1 ->].
    { destruct r as [[u|e] [ws1 w1]]; simpl; eauto. }
    destruct (IH r.2.1 w1 Hinv') as (Hinv2 & Henq2 & Hrest).
    cbv zeta in *. split; [exact Hinv2|]. split.
    + rewrite Henq2, Henq. simpl. now rewrite <- app_assoc.
    + intros _. destruct rest as [|pid' rest'].
      * simpl. now repeat split.
      * apply Hrest. discriminate.
Qed.


End WorkerStatus.

Section LimiterFacts.
Import Js Tokens Wire Auth Limiter.

Lemma checkRateLimit_local addr now (st st' : gmap string Attempts) :
  st !! addr = st' !! addr ->
  (checkRateLimit addr now st).1 = (checkRateLimit addr now st').1 /\
  (checkRateLimit addr now st).2 !! addr = (checkRateLimit addr now st').2 !! addr.
Proof.
  intros Hsame. unfold checkRateLimit. rewrite Hsame.
  destruct (MAX_AUTH_ATTEMPTS <? _); simpl; now rewrite !lookup_insert_eq.
Qed.

Lemma rateChecks_local addr (times : list Z) :
  forall (st st' : gmap string Attempts),
    st !! addr = st' !! addr ->
    rateChecks addr times st = rateChecks addr times st'.
Proof.
  induction times as [|now times IH]; intros st st' Hsame; [reflexivity|].
  simpl. destruct (checkRateLimit_local addr now st st' Hsame) as [Hr Hst].
  destruct (checkRateLimit addr now st) as [r st1],
           (checkRateLimit addr now st') as [r' st1']. simpl in *.
  subst r'. f_equal. now apply IH.
Qed.

(** X28.  The limiter counts each source address on its own: in a run
    of handshakes from any addresses, the outcomes for one address are
    what they would have been had the other handshakes not been made. *)
Theorem rate_limit_per_address addr (attempts : list (string * Z)) :
  forall st,
    forAddress addr (runChecks attempts st)
      = rateChecks addr (forAddress addr attempts) st.
Proof.
  induction attempts as [|[a now] attempts IH]; intros st; [reflexivity|].
  simpl. destruct (checkRateLimit a now st) as [r st1] eqn:Hcheck.
  unfold forAddress in *. cbn [omap list_omap fst snd].
  destruct (String.eqb_spec a addr) as [->|Hne].
  - cbn [rateChecks]. rewrite Hcheck. f_equal. apply IH.
  - rewrite IH. apply rateChecks_local.
    pose proof (checkRateLimit_other addr a now st (not_eq_sym Hne)) as Hother.
    now rewrite Hcheck in Hother.
Qed.


End LimiterFacts.

Section CatalogLookups.
Import Catalog Library.

(** X30.  [getPhoto] answers the first record with the id asked for and
    [hasPhoto] tells whether there is one.  When the ids of the catalog
    are pairwise different, every record is found under its own id;
    of two records with the same id, the later one is never
    answered. *)
Theorem catalog_lookup (db : list PhotoRecord) :
  (forall pid,
     hasPhoto db pid = true <-> exists photo, getPhoto db pid = Some photo) /\
  (forall pid photo,
     getPhoto db pid = Some photo ->
     id photo = pid /\
     exists before after,
       db = before ++ photo :: after /\ pid ∉ map id before) /\
  (forall pid, getPhoto db pid = None <-> pid ∉ map id db) /\
  (NoDup (map id db) ->
   forall photo, photo ∈ db -> getPhoto db (id photo) = Some photo) /\
  getCount db = length db.
Proof.
  split; [|split; [|split; [|split; [|reflexivity]]]].
  - intros pid. unfold hasPhoto, getPhoto.
    induction db as [|p db IH]; simpl.
    + split; [discriminate | now intros [photo Hp]].
    + destruct (String.eqb (id p) pid); simpl; [split; eauto | exact IH].
  - intros pid photo. unfold getPhoto.
    induction db as [|p db IH]; simpl; [discriminate|].
    destruct (String.eqb_spec (id p) pid) as [Heq|Hne].
    + intros [= ->]. split; [exact Heq|]. exists [], db.
      split; [reflexivity | apply not_elem_of_nil].
    + intros Hfind. destruct (IH Hfind) as (Hid & before & after & -> & Hfirst).
      split; [exact Hid|]. exists (p :: before), after.
      split; [reflexivity|]. simpl. apply not_elem_of_cons. now split.
  - intros pid. unfold getPhoto. induction db as [|p db IH]; simpl.
    + split; [intros _; apply not_elem_of_nil | reflexivity].
    + rewrite not_elem_of_cons.
      destruct (String.eqb_spec (id p) pid) as [Heq|Hne].
      * split; [discriminate | intros [Hne _]; congruence].
      * rewrite IH. split; [intros H; split; [congruence | exact H] | tauto].
  - intros Hnodup photo Hin. unfold getPhoto.
    induction db as [|p db IH]; [now apply elem_of_nil in Hin|].
    simpl in *. apply NoDup_cons in Hnodup as [Hp Hnodup].
    apply elem_of_cons in Hin as [->|Hin]; [now rewrite String.eqb_refl|].
    destruct (String.eqb_spec (id p) (id photo)) as [Heq|_]; [|now apply IH].
    exfalso. apply Hp. rewrite Heq. now apply list_elem_of_fmap_2.
Qed.

End CatalogLookups.

Lemma status_accounts_for_jobs_witness :
  map fst
    (Worker.settled
       (Worker.run [Worker.Enqueue (Samples.jobFor "b1" "s1");
                    Worker.Enqueue (Samples.jobFor "a7" "s2");
                    Worker.Finish 0 (Cache.Ok tt);
                    Worker.Finish 0 (Cache.Err "socket closed")]
                   Worker.idle))
  = [Samples.jobFor "b1" "s1"; Samples.jobFor "a7" "s2"].
Proof.
  apply (proj2 (status_accounts_for_jobs
                  [Worker.Enqueue (Samples.jobFor "b1" "s1");
                   Worker.Enqueue (Samples.jobFor "a7" "s2");
                   Worker.Finish 0 (Cache.Ok tt);
                   Worker.Finish 0 (Cache.Err "socket closed")])).
  reflexivity.
Defined.



Lemma catalog_lookup_witness :
  Catalog.getPhoto [Samples.photoA; Samples.photoB] "a7"
    = Some Samples.photoB /\
  Catalog.getPhoto [Samples.photoA; Samples.photoB] "zz" = None.
Proof.
  split.
  - apply (proj1 (proj2 (proj2 (proj2
             (catalog_lookup [Samples.photoA; Samples.photoB]))))
             ltac:(apply (bool_decide_unpack _); vm_compute; reflexivity)
             Samples.photoB).
    apply list_elem_of_In. simpl. tauto.
  - apply (proj1 (proj2 (proj2
             (catalog_lookup [Samples.photoA; Samples.photoB]))) "zz"%string).
    apply (bool_decide_unpack _). vm_compute. reflexivity.
Defined.
